(** * A shallow embedding of the test engine: hook composition (testing.ts),
      the ordered runner (runner.ts) and the per-test timeout race (utils.ts).

    Scope frames are shared mutable objects in the source: a test keeps
    references to the frames of its scope path while the suite keeps mutating
    them.  The embedding therefore has an explicit heap of frames addressed by
    index; the stack of a suite and the snapshot of a test are lists of such
    references.

    Callbacks are opaque closures in the source.  Here a callback is described
    by how it settles, and every invocation is recorded in a log, so that the
    statements about which callbacks run, how often and in which order become
    statements about that log.  Wall-clock time is a virtual clock in
    milliseconds: a test body takes the time its description says, hook
    callbacks settle without the clock advancing. *)

From Stdlib Require Import ZArith Lia Ascii.
From stdpp Require Import base relations list strings pretty.

Open Scope Z_scope.

(** ** JavaScript strings *)

Module Js.

(** [String.prototype.includes]. *)
Fixpoint includes (s pat : string) : bool :=
  String.prefix pat s
  || match s with
     | EmptyString => false
     | String _ s' => includes s' pat
     end.

(** [String.prototype.startsWith]. *)
Definition startsWith (s pat : string) : bool := String.prefix pat s.

(** [String.prototype.endsWith]. *)
Definition endsWith (s pat : string) : bool :=
  String.prefix (String.rev pat) (String.rev s).

(** [s.slice(1, s.length - 1)]: an empty range when the string is shorter
    than two characters. *)
Definition slice_inner (s : string) : string :=
  String.substring 1 (String.length s - 2)%nat s.

(** [Array.prototype.join]. *)
Fixpoint join (sep : string) (l : list string) : string :=
  match l with
  | [] => EmptyString
  | [x] => x
  | x :: rest => String.append x (String.append sep (join sep rest))
  end.

(** Truthiness of a string: only the empty string is falsy. *)
Definition truthy_string (s : string) : bool :=
  match s with EmptyString => false | _ => true end.

End Js.

(** ** Thrown values and callbacks *)

(** What a callback can throw.  The runner tests [error != null] and the hook
    composer tests [if (error)], so nullish and other falsy values are kept
    apart from error objects. *)
Inductive thrown : Type :=
| Nullish
| Falsy
| ErrorObj (message : string)
| TimeoutError (ms : Z)
    (** [new TimeoutError(`timeout after ${ms}ms`)] *)
| TypeError (message : string).

Definition truthy (v : thrown) : bool :=
  match v with
  | Nullish | Falsy => false
  | _ => true
  end.

Definition not_null (v : thrown) : bool :=
  match v with
  | Nullish => false
  | _ => true
  end.

(** How an invocation of a callback [() => void | Promise<void>] ends: it
    returns (or its promise fulfils), it throws synchronously, or it returns
    a promise that rejects. *)
Inductive settle : Type :=
| Fulfils
| Throws (v : thrown)
| Rejects (v : thrown).

Record hook_fn : Type := HookFn {
  hook_label : string;
  hook_settle : settle;
}.

(** A test's own function, with the time it takes to settle. *)
Record test_fn : Type := TestFn {
  fn_label : string;
  fn_elapsed : Z;
  fn_settle : settle;
}.

Inductive phase : Type := BeforeAll | BeforeEach | AfterEach | AfterAll.

Global Instance phase_eq_dec : EqDecision phase.
Proof. solve_decision. Defined.

Global Instance thrown_eq_dec : EqDecision thrown.
Proof. solve_decision. Defined.

(** A reference to a scope frame: its index in the heap of frames. *)
Abbreviation ref := nat.

(** ** Scope frames (model.ts: [Context], [StackItem]) *)

Record StackItem : Type := mkStackItem {
  beforeAll : list hook_fn;
  beforeEach : list hook_fn;
  afterEach : list hook_fn;
  afterAll : list hook_fn;
  waiting : nat;
  completed : nat;
  only : nat;
  completedOnly : nat;
  name : string;
}.

(** [{ ...newContext(), name }] *)
Definition newContext (n : string) : StackItem :=
  {| beforeAll := []; beforeEach := []; afterEach := []; afterAll := [];
     waiting := 0; completed := 0; only := 0; completedOnly := 0;
     name := n |}.

Definition push_hook (p : phase) (f : hook_fn) (c : StackItem) : StackItem :=
  match p with
  | BeforeAll =>
      mkStackItem (beforeAll c ++ [f]) (beforeEach c) (afterEach c) (afterAll c)
        (waiting c) (completed c) (only c) (completedOnly c) (name c)
  | BeforeEach =>
      mkStackItem (beforeAll c) (beforeEach c ++ [f]) (afterEach c) (afterAll c)
        (waiting c) (completed c) (only c) (completedOnly c) (name c)
  | AfterEach =>
      mkStackItem (beforeAll c) (beforeEach c) (afterEach c ++ [f]) (afterAll c)
        (waiting c) (completed c) (only c) (completedOnly c) (name c)
  | AfterAll =>
      mkStackItem (beforeAll c) (beforeEach c) (afterEach c) (afterAll c ++ [f])
        (waiting c) (completed c) (only c) (completedOnly c) (name c)
  end.

(** [name.waiting++] *)
Definition incr_waiting (c : StackItem) : StackItem :=
  mkStackItem (beforeAll c) (beforeEach c) (afterEach c) (afterAll c)
    (S (waiting c)) (completed c) (only c) (completedOnly c) (name c).

(** [name.only++] *)
Definition incr_only (c : StackItem) : StackItem :=
  mkStackItem (beforeAll c) (beforeEach c) (afterEach c) (afterAll c)
    (waiting c) (completed c) (S (only c)) (completedOnly c) (name c).

(** [hook.completed++; if (only) hook.completedOnly++] *)
Definition incr_completed (is_only : bool) (c : StackItem) : StackItem :=
  mkStackItem (beforeAll c) (beforeEach c) (afterEach c) (afterAll c)
    (waiting c) (S (completed c)) (only c)
    (if is_only then S (completedOnly c) else completedOnly c) (name c).

(** The heap of frames.  Frames are allocated at the end and never freed: a
    popped frame stays reachable from the snapshots of the tests registered
    under it. *)
Abbreviation frames := (list StackItem).

(** Apply [f] to every frame a list of references points to, in order. *)
Definition update_all (f : StackItem -> StackItem) (rs : list ref) (h : frames)
  : frames :=
  foldl (fun acc r => alter f r acc) h rs.

(** ** The log *)

Inductive log_entry : Type :=
| LCallAll (p : phase) (frame : ref)
    (** the composer reaches a [callAll] of the given hook list of a frame *)
| LHook (p : phase) (frame : ref) (label : string)
    (** one hook callback is invoked *)
| LBody (label : string)
    (** a test's own function is invoked *).

Global Instance log_entry_eq_dec : EqDecision log_entry.
Proof. solve_decision. Defined.

(** ** [callAll] (testing.ts) *)

(** [fns.map((fn) => fn())]: the callbacks are invoked in order; a synchronous
    throw leaves the map at once.  Returns the callbacks invoked and the
    value thrown synchronously, if any. *)
Fixpoint map_invoke (fns : list hook_fn) : list hook_fn * option thrown :=
  match fns with
  | [] => ([], None)
  | f :: rest =>
      match hook_settle f with
      | Throws v => ([f], Some v)
      | _ => let '(called, r) := map_invoke rest in (f :: called, r)
      end
  end.

(** [Promise.all]: rejects with the first rejection.  Hook promises settle in
    the order the hooks were invoked. *)
Fixpoint promise_all (ps : list hook_fn) : option thrown :=
  match ps with
  | [] => None
  | f :: rest =>
      match hook_settle f with
      | Rejects v => Some v
      | _ => promise_all rest
      end
  end.

(** [await callAll(fns)]: the callbacks invoked, and the value the await
    throws, if any. *)
Definition callAll (fns : list hook_fn) : list hook_fn * option thrown :=
  match map_invoke fns with
  | (called, Some v) => (called, Some v)
  | (called, None) => (called, promise_all called)
  end.

(** A [callAll] at a call site of the composer, with its log. *)
Definition callAll_at (p : phase) (r : ref) (fns : list hook_fn)
  : list log_entry * option thrown :=
  let '(called, e) := callAll fns in
  (LCallAll p r :: map (fun f => LHook p r (hook_label f)) called, e).

(** ** [wrapHooks] (testing.ts) *)

(** The setup loop: outer to inner, [beforeAll] when the frame has completed
    no test yet, then [beforeEach].  A throwing await leaves the loop, and
    the wrapped function with it. *)
Fixpoint setup (h : frames) (hooks : list ref)
  : list log_entry * option thrown :=
  match hooks with
  | [] => ([], None)
  | r :: rest =>
      match h !! r with
      | None => setup h rest
      | Some c =>
          let '(l1, e1) :=
            if Nat.eqb (completed c) 0 then callAll_at BeforeAll r (beforeAll c)
            else ([], None) in
          match e1 with
          | Some v => (l1, Some v)
          | None =>
              let '(l2, e2) := callAll_at BeforeEach r (beforeEach c) in
              match e2 with
              | Some v => (l1 ++ l2, Some v)
              | None =>
                  let '(l3, e3) := setup h rest in
                  (l1 ++ l2 ++ l3, e3)
              end
          end
      end
  end.

(** [waiting === completed || (only > 0 && only === completedOnly)] *)
Definition afterAll_due (c : StackItem) : bool :=
  Nat.eqb (waiting c) (completed c)
  || (Nat.ltb 0 (only c) && Nat.eqb (only c) (completedOnly c)).

(** The teardown loop over the reversed snapshot: [afterEach], then
    [afterAll] when it is due. *)
Fixpoint teardown (h : frames) (revHooks : list ref)
  : list log_entry * option thrown :=
  match revHooks with
  | [] => ([], None)
  | r :: rest =>
      match h !! r with
      | None => teardown h rest
      | Some c =>
          let '(l1, e1) := callAll_at AfterEach r (afterEach c) in
          match e1 with
          | Some v => (l1, Some v)
          | None =>
              let '(l2, e2) :=
                if afterAll_due c then callAll_at AfterAll r (afterAll c)
                else ([], None) in
              match e2 with
              | Some v => (l1 ++ l2, Some v)
              | None =>
                  let '(l3, e3) := teardown h rest in
                  (l1 ++ l2 ++ l3, e3)
              end
          end
      end
  end.

(** [try { await fn() } catch (err) { error = err }] *)
Definition caught (s : settle) : option thrown :=
  match s with
  | Fulfils => None
  | Throws v | Rejects v => Some v
  end.

(** [if (error) throw error]: a falsy thrown value is dropped. *)
Definition rethrow (error : option thrown) : option thrown :=
  match error with
  | Some v => if truthy v then Some v else None
  | None => None
  end.

(** The part of the wrapped function after [await fn()] has settled:
    completion bookkeeping on every frame of the snapshot, teardown, and the
    rethrow of the test's error.  Returns the new heap, what was logged and
    how the wrapped function settles. *)
Definition finish (hooks : list ref) (is_only : bool) (s : settle) (h : frames)
  : frames * list log_entry * option thrown :=
  let h' := update_all (incr_completed is_only) hooks h in
  let '(l, e) := teardown h' (rev hooks) in
  match e with
  | Some v => (h', l, Some v)
  | None => (h', l, rethrow (caught s))
  end.

(** The wrapped function run to completion, without a timer racing it. *)
Definition wrappedFn (fn : test_fn) (is_only : bool) (hooks : list ref)
    (h : frames) : frames * list log_entry * option thrown :=
  match setup h hooks with
  | (l, Some v) => (h, l, Some v)
  | (l, None) =>
      let '(h', l', e) := finish hooks is_only (fn_settle fn) h in
      (h', l ++ LBody (fn_label fn) :: l', e)
  end.

(** ** Registered tests (model.ts: [TestDefinition] after [wrapHooks]) *)

(** An entry of the registry: the definition with its defaults filled in and
    its [fn] replaced by the wrapped function, which is the closure over the
    original function, the [only] flag and the snapshot of frame
    references. *)
Record WrappedTest : Type := mkWrapped {
  t_fn : test_fn;
  t_name : string;
  t_ignore : bool;
  t_only : bool;
  t_timeout : Z;
  t_hooks : list ref;
}.

(** ** Outcomes and events (model.ts) *)

Inductive status : Type := ignored_ | passed_ | failed_.

Record TestEnd : Type := mkTestEnd {
  te_name : string;
  te_duration : Z;
  te_status : option status;
  te_error : option thrown;
}.

Record SuiteEnd : Type := mkSuiteEnd {
  usedOnly : bool;
  duration : Z;
  results : list TestEnd;
  filtered : Z;
  ignored : Z;
  passed : Z;
  failed : Z;
  timeout : option Z;
}.

Inductive TestEvent : Type :=
| EvStart (tests : list WrappedTest)
| EvTestStart (t : WrappedTest)
| EvTestEnd (e : TestEnd)
| EvEnd (e : SuiteEnd).

(** [endMessage.error != null] *)
Definition carries_error (e : TestEnd) : bool :=
  match te_error e with
  | Some v => not_null v
  | None => false
  end.

(** ** The machine the tests run on *)

(** A wrapped function that lost the race against its timer keeps running:
    once its test function settles, at [due], it still does its bookkeeping
    and teardown. *)
Record pending_fn : Type := mkPending {
  due : Z;
  p_hooks : list ref;
  p_only : bool;
  p_settle : settle;
}.

Record Machine : Type := mkMachine {
  heap : frames;
  log : list log_entry;
  now : Z;
  background : list pending_fn;
}.

Definition set_heap (h : frames) (m : Machine) : Machine :=
  mkMachine h (log m) (now m) (background m).

Definition add_log (l : list log_entry) (m : Machine) : Machine :=
  mkMachine (heap m) (log m ++ l) (now m) (background m).

(** Queue a continuation, keeping the queue ordered by due time (timers of
    equal due time fire in the order they were set). *)
Fixpoint enqueue (p : pending_fn) (bg : list pending_fn) : list pending_fn :=
  match bg with
  | [] => [p]
  | q :: rest => if due p <? due q then p :: q :: rest else q :: enqueue p rest
  end.

(** Run the queued continuations that are due by time [t]. *)
Fixpoint flush (t : Z) (bg : list pending_fn) (h : frames)
  : list pending_fn * frames * list log_entry :=
  match bg with
  | [] => ([], h, [])
  | p :: rest =>
      if due p <=? t then
        let '(h1, l1, _) := finish (p_hooks p) (p_only p) (p_settle p) h in
        let '(bg2, h2, l2) := flush t rest h1 in
        (bg2, h2, l1 ++ l2)
      else
        let '(bg2, h2, l2) := flush t rest h in
        (p :: bg2, h2, l2)
  end.

(** Let the clock reach [t]. *)
Definition advance (t : Z) (m : Machine) : Machine :=
  let '(bg, h, l) := flush t (background m) (heap m) in
  mkMachine h (log m ++ l) t bg.

(** ** [timeout] (utils.ts) and one test of the runner *)

(** The largest delay a timer takes: [2 ** 31 - 1] milliseconds. *)
Definition TIMEOUT_MAX : Z := 2147483647.

(** The delay [setTimeout] of Node.js gives a timer: a delay that is not
    between 1 and [TIMEOUT_MAX] is set to 1, so that a timer fires no
    earlier than one millisecond after it was set, and a timer whose delay
    does not fit a 32-bit integer fires after one millisecond. *)
Definition timer_delay (ms : Z) : Z :=
  if (1 <=? ms) && (ms <=? TIMEOUT_MAX) then ms else 1.

(** [await timeout(test.fn(), test.timeout)]: the wrapped function is
    started, and races a timer of [test.timeout] milliseconds.  Returns the
    machine at the moment the await resumes, and the value it throws, if
    any.  A wrapped function whose setup throws rejects at once.  When the
    timer fires first the await throws a [TimeoutError] and the rest of the
    wrapped function is left to run in the background.

    The wrapped function suspends at the first [await] of its setup loop,
    before it calls the test's function, so the timer of [timeout] is set
    before any timer the test's function sets.  Timers due at the same time
    fire in the order they were set: a test function that settles exactly
    when the timer is due loses the race.  A test function that takes no
    time settles before any timer fires. *)
Definition run_timeout (t : WrappedTest) (m : Machine)
  : Machine * option thrown :=
  let start := now m in
  match setup (heap m) (t_hooks t) with
  | (l, Some v) => (add_log l m, Some v)
  | (l, None) =>
      let m1 := add_log (l ++ [LBody (fn_label (t_fn t))]) m in
      if timer_delay (t_timeout t) <=? fn_elapsed (t_fn t) then
        let m2 := advance (start + timer_delay (t_timeout t)) m1 in
        let p := mkPending (start + fn_elapsed (t_fn t)) (t_hooks t) (t_only t)
                   (fn_settle (t_fn t)) in
        (mkMachine (heap m2) (log m2) (now m2) (enqueue p (background m2)),
         Some (TimeoutError (t_timeout t)))
      else
        let m2 := advance (start + Z.max 0 (fn_elapsed (t_fn t))) m1 in
        let '(h', l', e) :=
          finish (t_hooks t) (t_only t) (fn_settle (t_fn t)) (heap m2) in
        (add_log l' (set_heap h' m2), e)
  end.

(** ** [TestRunner] (runner.ts) *)

Record Stats : Type := mkStats {
  s_filtered : Z;
  s_ignored : Z;
  s_passed : Z;
  s_failed : Z;
}.

Record TestRunner : Type := mkRunner {
  r_usedOnly : bool;
  stats : Stats;
  failFast : bool;
  testsToRun : list WrappedTest;
}.

(** The constructor. *)
Definition new_TestRunner (tests : list WrappedTest)
    (filterFn : WrappedTest -> bool) (ff : bool) : TestRunner :=
  let onlyTests := List.filter t_only tests in
  let used := Nat.ltb 0 (length onlyTests) in
  let unfilteredTests := if used then onlyTests else tests in
  let toRun := List.filter filterFn unfilteredTests in
  {| r_usedOnly := used;
     stats := mkStats (Z.of_nat (length unfilteredTests)
                       - Z.of_nat (length toRun)) 0 0 0;
     failFast := ff;
     testsToRun := toRun |}.

(** The body of the loop for one test, between the [testStart] and the
    [testEnd] event: the outcome, the updated counters and the machine. *)
Definition run_one (t : WrappedTest) (st : Stats) (m : Machine)
  : TestEnd * Stats * Machine :=
  if t_ignore t then
    (mkTestEnd (t_name t) 0 (Some ignored_) None,
     mkStats (s_filtered st) (s_ignored st + 1) (s_passed st) (s_failed st),
     m)
  else
    let start := now m in
    let end_ := start in
    match run_timeout t m with
    | (m1, None) =>
        let end_ := now m1 in
        (mkTestEnd (t_name t) (end_ - start) (Some passed_) None,
         mkStats (s_filtered st) (s_ignored st) (s_passed st + 1) (s_failed st),
         m1)
    | (m1, Some err) =>
        (mkTestEnd (t_name t) (end_ - start) (Some failed_) (Some err),
         mkStats (s_filtered st) (s_ignored st) (s_passed st) (s_failed st + 1),
         m1)
    end.

(** The async generator.  A [yield] hands the event to the consumer of the
    stream; the consumer answers whether it goes on iterating ([true]) or
    leaves its [for await] loop ([false]), which ends the generator where it
    stands. *)
Section Generator.

Context {A : Type}.
Variable consume : TestEvent -> Machine -> A -> A * bool.

Fixpoint loop (ff : bool) (tests : list WrappedTest) (st : Stats)
    (res : list TestEnd) (m : Machine) (a : A)
  : Stats * list TestEnd * Machine * A * bool :=
  match tests with
  | [] => (st, res, m, a, true)
  | t :: rest =>
      let '(a1, go1) := consume (EvTestStart t) m a in
      if go1 then
        let '(endMessage, st1, m1) := run_one t st m in
        let res1 := res ++ [endMessage] in
        let '(a2, go2) := consume (EvTestEnd endMessage) m1 a1 in
        if go2 then
          if ff && carries_error endMessage then (st1, res1, m1, a2, true)
          else loop ff rest st1 res1 m1 a2
        else (st1, res1, m1, a2, false)
      else (st, res, m, a1, false)
  end.

Definition iterate (rn : TestRunner) (m : Machine) (a : A) : Machine * A :=
  let '(a0, go0) := consume (EvStart (testsToRun rn)) m a in
  if go0 then
    let suiteStart := now m in
    let '(st, res, m1, a1, go1) :=
      loop (failFast rn) (testsToRun rn) (stats rn) [] m a0 in
    if go1 then
      let d := now m1 - suiteStart in
      let e := mkSuiteEnd (r_usedOnly rn) d res (s_filtered st)
                 (s_ignored st) (s_passed st) (s_failed st) None in
      (m1, fst (consume (EvEnd e) m1 a1))
    else (m1, a1)
  else (m, a0).

End Generator.

(** The whole stream, for a consumer that drains it. *)
Definition drain (e : TestEvent) (_ : Machine) (acc : list TestEvent)
  : list TestEvent * bool := (acc ++ [e], true).

Definition events (rn : TestRunner) (m : Machine) : list TestEvent :=
  snd (iterate drain rn m []).

(** ** Run options (model.ts: [RunOptions]) and the filter (testing.ts) *)

(** A filter or skip option: a [RegExp] object, given by its source, or a
    string. *)
Inductive pattern : Type :=
| PRegExp (source : string)
| PString (s : string).

(** The reporting options ([disableLog], [logger], [onMessage]) only observe
    the events and are left out; the events delivered to them are part of
    what [run] reports. *)
Record RunOptions : Type := mkOptions {
  o_reset : option bool;
  o_timeout : option Z;
  o_exit : option bool;
  o_failFast : option bool;
  o_filter : option pattern;
  o_skip : option pattern;
}.

Definition no_options : RunOptions :=
  mkOptions None None None None None None.

Definition defaultRunOptions : RunOptions :=
  mkOptions None (Some 5000) (Some true) (Some false) None None.

Definition or_else {A : Type} (a b : option A) : option A :=
  match a with Some _ => a | None => b end.

(** [{ ...base, ...over }] *)
Definition merge (base over : RunOptions) : RunOptions :=
  mkOptions (or_else (o_reset over) (o_reset base))
    (or_else (o_timeout over) (o_timeout base))
    (or_else (o_exit over) (o_exit base))
    (or_else (o_failFast over) (o_failFast base))
    (or_else (o_filter over) (o_filter base))
    (or_else (o_skip over) (o_skip base)).

Section Filter.

(** [new RegExp(source).test(subject)], the host's regular expression
    engine. *)
Variable regexp_test : string -> string -> bool.

(** [createFilterFn(filter, skip)] *)
Definition createFilterFn (filter skip : option pattern) (def : WrappedTest)
  : bool :=
  let passes := true in
  let passes :=
    match filter with
    | Some (PRegExp src) => passes && regexp_test src (t_name def)
    | Some (PString f) =>
        if Js.truthy_string f then
          if Js.startsWith f "/" && Js.endsWith f "/" then
            let filterAsRegex := Js.slice_inner f in
            passes && regexp_test filterAsRegex (t_name def)
          else passes && Js.includes (t_name def) f
        else passes
    | None => passes
    end in
  let passes :=
    match skip with
    | Some (PRegExp src) => passes && negb (regexp_test src (t_name def))
    | Some (PString s) =>
        if Js.truthy_string s then passes && negb (Js.includes (t_name def) s)
        else passes
    | None => passes
    end in
  passes.

End Filter.

(** ** The suite (testing.ts: [_Suite]) *)

(** The object [deferred()] returns.  [pending] is a property initialised
    from the local variable of the same name; the [finally] callback assigns
    the local variable, which lives in the promise's cell here. *)
Record Deferred : Type := mkDeferred {
  pending : bool;
  promise : nat;
}.

Record PromiseCell : Type := mkCell {
  settled : option SuiteEnd;
  local_pending : bool;
}.

Record Suite : Type := mkSuite {
  s_name : string;
  options : RunOptions;
  stack : list ref;
  registry : list WrappedTest;
  cache : Deferred;
  end_ : nat;
  promises : list PromiseCell;
}.

Definition St : Type := Suite * Machine.

(** [deferred()]: a fresh promise cell and the object describing it. *)
Definition deferred (cells : list PromiseCell) : Deferred * list PromiseCell :=
  let pending_var := true in
  (mkDeferred pending_var (length cells), cells ++ [mkCell None pending_var]).

(** [d.resolve(v)]: settles the promise unless it is settled already; the
    [finally] callback then clears the local variable. *)
Definition resolve (d : Deferred) (v : SuiteEnd) (cells : list PromiseCell)
  : list PromiseCell :=
  alter (fun c => match settled c with
                  | Some _ => c
                  | None => mkCell (Some v) false
                  end) (promise d) cells.

(** The constructor of [_Suite]. *)
Definition new_Suite (n : string) (opts : RunOptions) (m : Machine) : St :=
  let '(d, cells) := deferred [] in
  (mkSuite n (merge defaultRunOptions opts) [length (heap m)] [] d (promise d)
     cells,
   set_heap (heap m ++ [newContext n]) m).

Definition empty_machine : Machine := mkMachine [] [] 0 [].

(** Suite methods run in a state and exception monad: a method that throws
    leaves the state as it was when it threw. *)
Inductive result (A : Type) : Type :=
| Ok (a : A) (st : St)
| Thrown (v : thrown) (st : St).
Arguments Ok {A} a st.
Arguments Thrown {A} v st.

Definition M (A : Type) : Type := St -> result A.

Global Instance M_ret : MRet M := fun A a st => Ok a st.

Global Instance M_bind : MBind M :=
  fun A B k c st => match c st with
                    | Ok a st' => k a st'
                    | Thrown v st' => Thrown v st'
                    end.

Definition state_of {A : Type} (r : result A) : St :=
  match r with Ok _ st | Thrown _ st => st end.

(** [this.top()] *)
Definition top (s : Suite) : option ref := last (stack s).

(** [this.top().<phase>.push(fn)]: the four hook registrations. *)
Definition add_hook (p : phase) (fn : hook_fn) : M unit :=
  fun '(s, m) =>
    match top s with
    | Some r => Ok tt (s, set_heap (alter (push_hook p fn) r (heap m)) m)
    | None => Thrown (TypeError "top() is undefined") (s, m)
    end.

Definition set_stack (st : list ref) (s : Suite) : Suite :=
  mkSuite (s_name s) (options s) st (registry s) (cache s) (end_ s)
    (promises s).

Definition set_registry (reg : list WrappedTest) (s : Suite) : Suite :=
  mkSuite (s_name s) (options s) (stack s) reg (cache s) (end_ s)
    (promises s).

(** [this.#stack.push({ ...newContext(), name })] *)
Definition push_frame (n : string) : M unit :=
  fun '(s, m) =>
    Ok tt (set_stack (stack s ++ [length (heap m)]) s,
           set_heap (heap m ++ [newContext n]) m).

(** [this.#stack.pop()] *)
Definition pop_frame : M unit :=
  fun '(s, m) => Ok tt (set_stack (removelast (stack s)) s, m).

(** [group(name, fn)] *)
Definition group (n : string) (fn : M unit) : M unit :=
  push_frame n ;; fn ;; pop_frame.

(** What the caller passes to [test]. *)
Record TestDefinition : Type := mkTest {
  fn : option test_fn;
  d_name : string;
  ignore : option bool;
  d_only : option bool;
  d_timeout : option Z;
}.

(** [wrapHooks(testDef, hooks)] *)
Definition wrapHooks (f : test_fn) (n : string) (ig on : bool) (ms : Z)
    (hooks : list ref) : WrappedTest :=
  mkWrapped f n ig on ms hooks.

Definition frame_name (h : frames) (r : ref) : string :=
  match h !! r with Some c => name c | None => "" end.

(** [test(t)] *)
Definition test (t : TestDefinition) : M unit :=
  fun '(s, m) =>
    match fn t with
    | None => Thrown (TypeError "Missing test function") (s, m)
    | Some f =>
        if negb (Js.truthy_string (d_name t)) then
          Thrown (TypeError "The test name can't be empty") (s, m)
        else
          let ig := default false (ignore t) in
          let on := default false (d_only t) in
          let ms := default 2000 (d_timeout t) in
          let h1 := if negb ig then update_all incr_waiting (stack s) (heap m)
                    else heap m in
          let h2 := if on then update_all incr_only (stack s) h1 else h1 in
          let names := map (frame_name h2) (stack s) ++ [d_name t] in
          let copy := stack s in
          Ok tt (set_registry
                   (registry s ++ [wrapHooks f (Js.join " > " names) ig on ms copy])
                   s,
                 set_heap h2 m)
    end.

(** [test(name, fn)] *)
Definition test_named (n : string) (f : option test_fn) : M unit :=
  test (mkTest f n None None None).

(** [reset()] *)
Definition reset : M unit :=
  fun '(s, m) =>
    let '(d, cells) := deferred (promises s) in
    Ok tt (mkSuite (s_name s) (options s) [length (heap m)] [] d (end_ s) cells,
           set_heap (heap m ++ [newContext (s_name s)]) m).

Definition emptyEndMsg : SuiteEnd :=
  mkSuiteEnd false 0 [] 0 0 0 0 None.

Definition with_timeout (t : Z) (e : SuiteEnd) : SuiteEnd :=
  mkSuiteEnd (usedOnly e) (duration e) (results e) (filtered e) (ignored e)
    (passed e) (failed e) (Some t).

(** How a call of [run] ends for its caller. *)
Inductive run_result : Type :=
| Resolved (e : SuiteEnd)
| Unsettled
| Exits (code : Z).

(** The variables of [run] that its [for await] loop updates, with the
    events that reached the reporters. *)
Record Drained : Type := mkDrained {
  endMsg : option SuiteEnd;
  timedOut : bool;
  delivered : list TestEvent;
}.

(** The body of the [for await] loop.  [deadline] is when the suite timer
    fires, if one was set. *)
Definition on_message (deadline : option Z) (message : TestEvent)
    (m : Machine) (a : Drained) : Drained * bool :=
  let fired := match deadline with
               | Some d => d <=? now m
               | None => false
               end in
  if fired then (mkDrained (endMsg a) true (delivered a), false)
  else
    (mkDrained (match message with
                | EvEnd e => Some e
                | _ => endMsg a
                end) false (delivered a ++ [message]), true).

Section Run.

Variable regexp_test : string -> string -> bool.

(** [run(opts)] *)
Definition run (opts : RunOptions) (st : St)
  : run_result * list TestEvent * St :=
  let '(s, m) := st in
  if negb (pending (cache s)) then
    (match promises s !! end_ s with
     | Some c => match settled c with
                 | Some v => Resolved v
                 | None => Unsettled
                 end
     | None => Unsettled
     end, [], st)
  else
    let o := merge (options s) opts in
    let filterFn := createFilterFn regexp_test (o_filter o) (o_skip o) in
    let deadline :=
      match o_timeout o with
      | Some t => if t =? 0 then None else Some (now m + timer_delay t)
      | None => None
      end in
    let runner :=
      new_TestRunner (registry s) filterFn (default false (o_failFast o)) in
    let '(m1, a) :=
      iterate (on_message deadline) runner m (mkDrained None false []) in
    let endMsg1 :=
      if timedOut a then
        Some (with_timeout (default 0 (o_timeout o))
                (default emptyEndMsg (endMsg a)))
      else endMsg a in
    let final := default emptyEndMsg endMsg1 in
    let s1 :=
      mkSuite (s_name s) (options s) (stack s) (registry s) (cache s)
        (end_ s) (resolve (cache s) final (promises s)) in
    let exits :=
      match endMsg1 with
      | Some e => ((0 <? failed e) || usedOnly e) && default false (o_exit o)
      | None => false
      end in
    if exits then (Exits 1, delivered a, (s1, m1))
    else
      let st2 := if default false (o_reset o)
                 then state_of (reset (s1, m1)) else (s1, m1) in
      (Resolved final, delivered a, st2).

End Run.

(** ** Auxiliary definitions for the statements *)

(** The tests the generator iterates, each with its outcome, and the counters
    and machine it ends with: the loop of the generator as seen by a consumer
    that never leaves. *)
Fixpoint outcomes (ff : bool) (tests : list WrappedTest) (st : Stats)
    (m : Machine) : list (WrappedTest * TestEnd) * Stats * Machine :=
  match tests with
  | [] => ([], st, m)
  | t :: rest =>
      let '(e, st1, m1) := run_one t st m in
      if ff && carries_error e then ([(t, e)], st1, m1)
      else
        let '(l, st2, m2) := outcomes ff rest st1 m1 in
        ((t, e) :: l, st2, m2)
  end.

(** The two events of an iterated test. *)
Definition test_events (l : list (WrappedTest * TestEnd)) : list TestEvent :=
  flat_map (fun p => [EvTestStart (fst p); EvTestEnd (snd p)]) l.

Definition has_status (s : status) (e : TestEnd) : bool :=
  match te_status e, s with
  | Some ignored_, ignored_ | Some passed_, passed_ | Some failed_, failed_ =>
      true
  | _, _ => false
  end.

Definition count_status (s : status) (l : list TestEnd) : Z :=
  Z.of_nat (length (List.filter (has_status s) l)).

(** The reading of the filter rule in which filter and skip are matched by
    the same rules: a regular expression, a string between slashes taken as
    a regular expression, or a substring. *)
Section FilterRule.

Variable regexp_test : string -> string -> bool.

Definition matches (p : pattern) (n : string) : bool :=
  match p with
  | PRegExp src => regexp_test src n
  | PString s =>
      if Js.startsWith s "/" && Js.endsWith s "/"
      then regexp_test (Js.slice_inner s) n
      else Js.includes n s
  end.

(** An empty string counts as an option that is not set. *)
Definition is_set (p : option pattern) : option pattern :=
  match p with
  | Some (PString s) => if Js.truthy_string s then p else None
  | _ => p
  end.

Definition rule_passes (filter skip : option pattern) (n : string) : bool :=
  match is_set filter with None => true | Some p => matches p n end
  && match is_set skip with None => true | Some p => negb (matches p n) end.

(** A skip string that [rule_passes] would read as a regular expression. *)
Definition slashed (p : option pattern) : bool :=
  match p with
  | Some (PString s) =>
      Js.truthy_string s && Js.startsWith s "/" && Js.endsWith s "/"
  | _ => false
  end.

End FilterRule.

(** A regular expression engine for sources without metacharacters, where
    matching is substring search; used to evaluate examples. *)
Definition literal_test (source subject : string) : bool :=
  Js.includes subject source.

(** *** Registration steps and reachable states *)

(** One call of the registration interface.  [group(name, fn)] is an enter
    step, the steps of [fn], and a leave step; a leave step therefore never
    pops the root frame. *)
Inductive reg_step : St -> St -> Prop :=
| step_test t st st' : test t st = Ok tt st' -> reg_step st st'
| step_hook p f st st' : add_hook p f st = Ok tt st' -> reg_step st st'
| step_enter n st st' : push_frame n st = Ok tt st' -> reg_step st st'
| step_leave st st' :
    (1 < length (stack (fst st)))%nat ->
    pop_frame st = Ok tt st' -> reg_step st st'.

(** The states a freshly constructed suite reaches by registration alone. *)
Definition registered (st : St) : Prop :=
  exists n opts, rtc reg_step (new_Suite n opts empty_machine) st.

(** The registry entries a step appended. *)
Definition added (st st' : St) : list WrappedTest :=
  drop (length (registry (fst st))) (registry (fst st')).

(** The states reached by registrations, resets, executions of registered
    tests and the passing of time.  The second index lists the registered
    tests whose wrapped function the runner has not invoked since they were
    registered: an execution step takes its test from that list, so no test
    is executed twice.  [ok] restricts the tests that are registered. *)
Inductive reach (ok : WrappedTest -> Prop) : St -> list WrappedTest -> Prop :=
| reach_new n opts : reach ok (new_Suite n opts empty_machine) []
| reach_reg st st' todo :
    reach ok st todo -> reg_step st st' -> Forall ok (added st st') ->
    reach ok st' (todo ++ added st st')
| reach_reset st st' todo :
    reach ok st todo -> reset st = Ok tt st' -> reach ok st' []
| reach_exec s m t l1 l2 stats :
    reach ok (s, m) (l1 ++ t :: l2) ->
    reach ok (s, snd (run_one t stats m)) (l1 ++ l2)
| reach_tick s m t todo :
    reach ok (s, m) todo -> now m <= t -> reach ok (s, advance t m) todo.

(** *** Counting *)

Definition under (r : ref) (hooks : list ref) : bool := bool_decide (r ∈ hooks).

(** The tests of a list that are not ignored and have frame [r] in their
    snapshot, all of them or the only-marked ones. *)
Definition owing (only_marked : bool) (r : ref) (tests : list WrappedTest)
  : nat :=
  length (List.filter
            (fun t => negb (t_ignore t) && under r (t_hooks t)
                      && (if only_marked then t_only t else true)) tests).

(** The same for the wrapped functions still running in the background. *)
Definition owing_bg (only_marked : bool) (r : ref) (bg : list pending_fn)
  : nat :=
  length (List.filter
            (fun p => under r (p_hooks p)
                      && (if only_marked then p_only p else true)) bg).

(** Occurrences of an entry in a log. *)
Definition occurrences (e : log_entry) (l : list log_entry) : nat :=
  length (List.filter (fun x => bool_decide (x = e)) l).

(** Every hook callback of every frame returns normally. *)
Definition calm_frame (c : StackItem) : Prop :=
  Forall (fun f => hook_settle f = Fulfils)
    (beforeAll c ++ beforeEach c ++ afterEach c ++ afterAll c).

Definition calm (h : frames) : Prop := Forall calm_frame h.

(** The test's function settles before its timer is due. *)
Definition in_time (t : WrappedTest) : Prop :=
  fn_elapsed (t_fn t) < timer_delay (t_timeout t).

Definition hook_list (p : phase) (c : StackItem) : list hook_fn :=
  match p with
  | BeforeAll => beforeAll c
  | BeforeEach => beforeEach c
  | AfterEach => afterEach c
  | AfterAll => afterAll c
  end.

(** *** Example inputs *)

Definition passing (l : string) : test_fn := TestFn l 0 Fulfils.
Definition failing (l : string) : test_fn :=
  TestFn l 0 (Throws (ErrorObj "assertion failed")).

(** Tests registered in the order A, B, C, with B failing, run with
    fail-fast. *)
Definition abc_tests : list WrappedTest :=
  [mkWrapped (passing "A") "s > A" false false 2000 [];
   mkWrapped (failing "B") "s > B" false false 2000 [];
   mkWrapped (passing "C") "s > C" false false 2000 []].

Definition abc_runner : TestRunner :=
  new_TestRunner abc_tests (fun _ => true) true.

Definition outcome_A : TestEnd := mkTestEnd "s > A" 0 (Some passed_) None.
Definition outcome_B : TestEnd :=
  mkTestEnd "s > B" 0 (Some failed_) (Some (ErrorObj "assertion failed")).

(** A test with a timeout of 10ms whose function settles after 20ms. *)
Definition slow_test : WrappedTest :=
  mkWrapped (TestFn "slow" 20 Fulfils) "s > slow" false false 10 [].

(** Two only-marked tests among four, and a filter on the name. *)
Definition focus_tests : list WrappedTest :=
  [mkWrapped (passing "a") "s > alpha" false true 2000 [];
   mkWrapped (passing "b") "s > beta" false false 2000 [];
   mkWrapped (passing "c") "s > gamma" false true 2000 [];
   mkWrapped (failing "d") "s > delta" false false 2000 []].

(** A test named "subtests > skips", as the suite "subtests" registers its
    test "skips". *)
Definition skips_test : WrappedTest :=
  mkWrapped (failing "skips") "subtests > skips" false false 2000 [].

Definition quiet : RunOptions :=
  mkOptions None None (Some false) None None None.


(** A suite with a [beforeAll] hook and one passing test. *)
Definition once_suite : St :=
  state_of
    ((add_hook BeforeAll (HookFn "ba" Fulfils) ;;
      test_named "t" (Some (passing "t")))
       (new_Suite "s" quiet empty_machine)).


(** The tests of a list that are marked only and have frame [r] in their
    snapshot. *)
Definition marked (r : ref) (tests : list WrappedTest) : nat :=
  length (List.filter (fun t => t_only t && under r (t_hooks t)) tests).

(** A snapshot whose references are distinct and point into a heap of [n]
    frames. *)
Definition valid_hooks (n : nat) (hooks : list ref) : Prop :=
  NoDup hooks /\ forall r, r ∈ hooks -> (r < n)%nat.

(** The references of a suite are in order. *)
Definition wf (st : St) : Prop :=
  valid_hooks (length (heap (snd st))) (stack (fst st))
  /\ Forall (fun t => valid_hooks (length (heap (snd st))) (t_hooks t))
       (registry (fst st)).

(** Nothing has run yet: the log is empty, no frame has completed a test,
    and the registration counters of a frame count the registered tests
    under it. *)
Definition fresh (st : St) : Prop :=
  log (snd st) = [] /\ background (snd st) = []
  /\ forall r c, heap (snd st) !! r = Some c ->
       completed c = 0%nat /\ completedOnly c = 0%nat
       /\ waiting c = owing false r (registry (fst st))
       /\ only c = marked r (registry (fst st)).

(** Two frames with the same hook lists. *)
Definition same_hooks (c c' : StackItem) : Prop :=
  beforeAll c' = beforeAll c /\ beforeEach c' = beforeEach c
  /\ afterEach c' = afterEach c /\ afterAll c' = afterAll c.

(** What a [callAll] logs when none of its callbacks throws. *)
Definition callAll_log (p : phase) (r : ref) (fns : list hook_fn)
  : list log_entry :=
  LCallAll p r :: map (fun f => LHook p r (hook_label f)) fns.

(** What the setup loop logs for one frame, and for a snapshot, when no hook
    throws. *)
Definition setup_frame_log (h : frames) (r : ref) : list log_entry :=
  match h !! r with
  | None => []
  | Some c =>
      (if Nat.eqb (completed c) 0 then callAll_log BeforeAll r (beforeAll c)
       else [])
      ++ callAll_log BeforeEach r (beforeEach c)
  end.

Definition setup_log (h : frames) (hooks : list ref) : list log_entry :=
  flat_map (setup_frame_log h) hooks.

(** The same for the teardown loop. *)
Definition teardown_frame_log (h : frames) (r : ref) : list log_entry :=
  match h !! r with
  | None => []
  | Some c =>
      callAll_log AfterEach r (afterEach c)
      ++ (if afterAll_due c then callAll_log AfterAll r (afterAll c) else [])
  end.

Definition teardown_log (h : frames) (revHooks : list ref) : list log_entry :=
  flat_map (teardown_frame_log h) revHooks.

(** The call site a log entry belongs to. *)
Definition site (e : log_entry) : option (phase * ref) :=
  match e with
  | LCallAll p r | LHook p r _ => Some (p, r)
  | LBody _ => None
  end.


Definition late_suite0 : St := new_Suite "s" quiet empty_machine.

(** A group with a [beforeAll] and an [afterAll] hook and two tests, one of
    which a skip option excludes. *)
Definition skipping_suite : St :=
  state_of
    (group "g"
       (add_hook BeforeAll (HookFn "ba" Fulfils) ;;
        add_hook AfterAll (HookFn "aa" Fulfils) ;;
        test_named "alpha" (Some (passing "alpha")) ;;
        test_named "beta skip" (Some (passing "beta")))
       (new_Suite "s" quiet empty_machine)).

(** The same group registered step by step, run without a skip option. *)
Definition group_suite : St :=
  state_of
    ((push_frame "g" ;;
      add_hook BeforeAll (HookFn "ba" Fulfils) ;;
      add_hook AfterAll (HookFn "aa" Fulfils) ;;
      test_named "alpha" (Some (passing "alpha")) ;;
      test_named "beta" (Some (failing "beta")) ;;
      pop_frame)
       (new_Suite "s" quiet empty_machine)).

(** Every frame can still pay for the completions it owes: [d] and [d'] are
    the numbers of completions, of all tests and of only-marked tests, that
    are still to come for a frame. *)
Definition bounded (h : frames) (d d' : ref -> nat) : Prop :=
  forall r c, h !! r = Some c ->
    (completed c + d r <= waiting c)%nat
    /\ (completedOnly c + d' r <= only c)%nat.

(** The invariant of the reachable states. *)
Definition sound (st : St) (todo : list WrappedTest) : Prop :=
  valid_hooks (length (heap (snd st))) (stack (fst st))
  /\ Forall (fun t => valid_hooks (length (heap (snd st))) (t_hooks t)) todo
  /\ Forall (fun p => valid_hooks (length (heap (snd st))) (p_hooks p))
       (background (snd st))
  /\ bounded (heap (snd st))
       (fun r => owing false r todo
                 + owing_bg false r (background (snd st)))%nat
       (fun r => owing true r todo
                 + owing_bg true r (background (snd st)))%nat.

(** The frames of [h'] are those of [h] with the same registration
    counters. *)
Definition same_quota (h h' : frames) : Prop :=
  length h' = length h
  /\ forall r c', h' !! r = Some c' ->
       exists c, h !! r = Some c
         /\ waiting c' = waiting c /\ only c' = only c.

Definition capped (h : frames) : Prop :=
  forall r c, h !! r = Some c -> (only c <= waiting c)%nat.

(** No registered test is both ignored and marked only. *)
Definition not_ignored_only (t : WrappedTest) : Prop :=
  t_ignore t && t_only t = false.

(** A suite with one test that is both ignored and marked only. *)
Definition ignored_only_suite : St :=
  state_of
    (test (mkTest (Some (passing "t")) "t" (Some true) (Some true) None)
       (new_Suite "s" quiet empty_machine)).

(** A suite with one test, before and after the test is executed. *)
Definition single_suite : St :=
  state_of (test_named "t" (Some (passing "t"))
              (new_Suite "s" quiet empty_machine)).

Definition single_test : WrappedTest :=
  mkWrapped (passing "t") "s > t" false false 2000 [0%nat].

Definition single_suite_done : St :=
  (fst single_suite,
   snd (run_one single_test (mkStats 0 0 0 0) (snd single_suite))).




(** *** Registration scripts *)

(** What the caller of a suite writes: tests, hooks and groups whose
    callback is again such a script. *)
Unset Elimination Schemes.
Inductive decl : Type :=
| DTest (t : TestDefinition)
| DHook (p : phase) (f : hook_fn)
| DGroup (n : string) (body : list decl).
Set Elimination Schemes.

(** The calls a script makes on the suite. *)
Fixpoint declare (d : decl) : M unit :=
  match d with
  | DTest t => test t
  | DHook p f => add_hook p f
  | DGroup n body =>
      group n (foldr (fun d k => declare d ;; k) (mret tt) body)
  end.

Definition declare_all (ds : list decl) : M unit :=
  foldr (fun d k => declare d ;; k) (mret tt) ds.

(** Induction on scripts, with the induction hypothesis for every
    declaration of the body of a group. *)
Section DeclInd.
Variable P : decl -> Prop.
Hypothesis Htest : forall t, P (DTest t).
Hypothesis Hhook : forall p f, P (DHook p f).
Hypothesis Hgroup : forall n body, Forall P body -> P (DGroup n body).

Fixpoint decl_nested_ind (d : decl) : P d :=
  match d with
  | DTest t => Htest t
  | DHook p f => Hhook p f
  | DGroup n body =>
      Hgroup n body
        ((fix go (l : list decl) : Forall P l :=
            match l with
            | [] => @List.Forall_nil _ P
            | x :: l' => @List.Forall_cons _ P x l' (decl_nested_ind x) (go l')
            end) body)
  end.
End DeclInd.

(** The invariant of a first run in which no test is marked only and no hook
    throws, for the frames of the heap [h0] the run started with: [rest] are
    the tests still to be iterated, and [k] counts, for every frame, the
    tests registered under it that are not ignored and that the run leaves
    out. *)
Definition once_inv (k : ref -> nat) (h0 h : frames) (l : list log_entry)
    (rest : list WrappedTest) : Prop :=
  forall r c0, h0 !! r = Some c0 ->
    exists c, h !! r = Some c
      /\ same_hooks c0 c
      /\ waiting c = waiting c0
      /\ only c = 0%nat
      /\ (completed c + owing false r rest + k r = waiting c)%nat
      /\ (forall e, site e = Some (BeforeAll, r) ->
            occurrences e l
            = if Nat.eqb (completed c) 0 then 0%nat
              else occurrences e (callAll_log BeforeAll r (beforeAll c0)))
      /\ (forall e, site e = Some (AfterAll, r) ->
            occurrences e l
            = if Nat.ltb 0 (completed c) && Nat.eqb (completed c) (waiting c)
              then occurrences e (callAll_log AfterAll r (afterAll c0))
              else 0%nat).

(** The tests the generator of a runner iterates on a machine. *)
Definition iterated (rn : TestRunner) (m : Machine) : list WrappedTest :=
  map fst (fst (fst (outcomes (failFast rn) (testsToRun rn) (stats rn) m))).

(** ** Colours (colors.ts) *)

Module Colors.

(** The escape character [\x1b]. *)
Definition esc : string := String "027"%char EmptyString.

(** A colour code.  [regexp] is the global regular expression
    [new RegExp(`\\x1b\\[${close}m`, "g")]: it matches the characters of
    [close] one by one, and is kept as that literal. *)
Record Code : Type := mkCode {
  open : string;
  close : string;
  regexp : string;
}.

(** [code(open, close)] *)
Definition code (opn : list N) (cls : N) : Code :=
  {| open := esc +:+ "[" +:+ Js.join ";" (map pretty opn) +:+ "m";
     close := esc +:+ "[" +:+ pretty cls +:+ "m";
     regexp := esc +:+ "[" +:+ pretty cls +:+ "m" |}.

(** [str.replace(re, by)] for a global regular expression that matches the
    non-empty literal [pat], and a replacement without [$] patterns: the
    matches are taken from left to right and do not overlap.  [skip] counts
    the characters of the current match that are still to be dropped. *)
Fixpoint replace_from (pat by_ : string) (skip : nat) (str : string) : string :=
  match str with
  | EmptyString => EmptyString
  | String c rest =>
      match skip with
      | S k => replace_from pat by_ k rest
      | O =>
          if String.prefix pat str
          then by_ +:+ replace_from pat by_ (String.length pat - 1) rest
          else String c (replace_from pat by_ 0 rest)
      end
  end.

Definition replace (str pat by_ : string) : string :=
  replace_from pat by_ 0 str.

(** [run(str, code)] *)
Definition run (str : string) (c : Code) : string :=
  open c +:+ replace str (regexp c) (open c) +:+ close c.

Definition green (str : string) : string := run str (code [32%N] 39).
Definition red (str : string) : string := run str (code [31%N] 39).
Definition yellow (str : string) : string := run str (code [33%N] 39).
Definition white (str : string) : string := run str (code [37%N] 39).
Definition gray (str : string) : string := run str (code [90%N] 39).
Definition bold (str : string) : string := run str (code [1%N] 22).
Definition italic (str : string) : string := run str (code [3%N] 23).

End Colors.

(** ** The reporter (utils.ts: [formatDuration], [print]) *)

Definition nl : string := String "010"%char EmptyString.
Definition dquote : string := String "034"%char EmptyString.

(** [formatDuration(time)] *)
Definition formatDuration (time : Z) : string :=
  let timeStr := "(" +:+ pretty time +:+ "ms)" in
  Colors.gray (Colors.italic timeStr).

Section Print.

(** [String(error.stack)], which the host provides. *)
Variable stack_of : thrown -> string.

(** The lines of one entry of the list of failures. *)
Definition failure_lines (f : TestEnd) : list string :=
  match te_error f with
  | Some error => if truthy error then [te_name f; stack_of error; ""] else []
  | None => []
  end.

(** [print(message, log)]: the strings passed to [log], in order. *)
Definition print (message : TestEvent) : list string :=
  let redFailed := Colors.red "failed" in
  let greenOk := Colors.green "ok" in
  let yellowIgnored := Colors.yellow "ignored" in
  match message with
  | EvStart tests =>
      ["running " +:+ pretty (length tests) +:+ " tests"]
  | EvTestStart _ => []
  | EvTestEnd e =>
      match te_status e with
      | Some passed_ =>
          ["test " +:+ te_name e +:+ " ... " +:+ greenOk +:+ " "
           +:+ formatDuration (te_duration e)]
      | Some failed_ =>
          ["test " +:+ te_name e +:+ " ... " +:+ redFailed +:+ " "
           +:+ formatDuration (te_duration e)]
      | Some ignored_ =>
          ["test " +:+ te_name e +:+ " ... " +:+ yellowIgnored +:+ " "
           +:+ formatDuration (te_duration e)]
      | None => []
      end
  | EvEnd e =>
      let failures := List.filter carries_error (results e) in
      let listed :=
        if (0 <? length failures)%nat
        then (nl +:+ "failures:" +:+ nl) :: flat_map failure_lines failures
        else [] in
      let summary :=
        nl +:+ "test result: "
        +:+ (if failed e =? 0 then greenOk else redFailed) +:+ ". "
        +:+ pretty (passed e) +:+ " passed; "
        +:+ pretty (failed e) +:+ " failed; "
        +:+ pretty (ignored e) +:+ " ignored; "
        +:+ pretty (filtered e) +:+ " filtered out "
        +:+ formatDuration (duration e) +:+ nl in
      let verdict :=
        summary
        :: (if usedOnly e && (failed e =? 0)
            then [redFailed +:+ " because the " +:+ dquote +:+ "only"
                  +:+ dquote +:+ " option was used" +:+ nl]
            else []) in
      listed
      ++ match timeout e with
         | Some t =>
             if t =? 0 then verdict
             else [nl +:+ redFailed +:+ " due to timeout after " +:+ pretty t
                   +:+ "ms" +:+ nl]
         | None => verdict
         end
  end.

End Print.

(** ** The logger (utils.ts: [logger]) *)

Section Logger.

(** The functions that can be installed as [console.log]. *)
Context {F : Type}.

(** [function () {}] *)
Variable silent : F.

(** [globalThis.console.log], the variable [oldConsoleLog] of the closure,
    and the [log] property of the logger, which is read once, when the
    logger is created. *)
Record Console : Type := mkConsole {
  console_log : F;
  oldConsoleLog : option F;
  logger_log : F;
}.

Definition new_logger (current : F) : Console :=
  mkConsole current None current.

(** [logger.enable()] *)
Definition enable (c : Console) : Console :=
  match oldConsoleLog c with
  | None => c
  | Some old => mkConsole old (oldConsoleLog c) (logger_log c)
  end.

(** [logger.disable()] *)
Definition disable (c : Console) : Console :=
  mkConsole silent (Some (console_log c)) (logger_log c).

End Logger.

(** ** The constructors of a suite (testing.ts: [Suite], [suite]) *)

Record SuiteOptions : Type := mkSuiteOptions {
  so_name : option string;
  autoRun : option bool;
  so_run : RunOptions;
}.

(** The argument of the constructor: a name or options. *)
Inductive name_or_options : Type :=
| ByName (n : string)
| ByOptions (o : SuiteOptions).

(** How the construction of a suite ends: with the suite, and whether the
    timer of its automatic run was set; with a value thrown before a suite
    was constructed; or with a value thrown by the initialization function,
    after the suite was constructed. *)
Inductive created : Type :=
| Created (st : St) (scheduled : bool)
| Refused (v : thrown)
| Aborted (v : thrown) (st : St) (scheduled : bool).

(** [new Suite(opts)] *)
Definition Suite_constructor (opts : name_or_options) (m : Machine)
  : St * bool :=
  let opts := match opts with
              | ByName n => mkSuiteOptions (Some n) None no_options
              | ByOptions o => o
              end in
  let auto := default true (autoRun opts) in
  (new_Suite (default "[anonymous]" (so_name opts)) (so_run opts) m, auto).


Record CreateOptions : Type := mkCreateOptions {
  co_fn : option (M unit);
  co_options : SuiteOptions;
}.

Inductive name_or_create : Type :=
| SName (s : string)
| SCreate (o : CreateOptions).

(** [suite(s, fn)] *)
Definition suite (s : name_or_create) (fn : option (M unit)) (m : Machine)
  : created :=
  let checked :=
    match s with
    | SName n =>
        match fn with
        | None => inl (TypeError "Missing test function")
        | Some f =>
            if negb (Js.truthy_string n)
            then inl (TypeError "The test name can't be empty")
            else inr (mkCreateOptions (Some f)
                        (mkSuiteOptions (Some n) None no_options))
        end
    | SCreate o =>
        match co_fn o with
        | None => inl (TypeError "Missing test function")
        | Some _ =>
            if negb (match so_name (co_options o) with
                     | Some n => Js.truthy_string n
                     | None => false
                     end)
            then inl (TypeError "The test name can't be empty")
            else inr o
        end
    end in
  match checked with
  | inl v => Refused v
  | inr suiteDef =>
      let '(st, auto) := Suite_constructor (ByOptions (co_options suiteDef)) m in
      match co_fn suiteDef with
      | Some f =>
          match f st with
          | Ok _ st' => Created st' auto
          | Thrown v st' => Aborted v st' auto
          end
      | None => Created st auto
      end
  end.

(** ** Collecting results (testing.ts: [collect]) *)

(** What a module gives: a suite result under [default], or a suite result
    itself. *)
Inductive SuiteModule : Type :=
| Exported (default_ : SuiteEnd)
| Direct (e : SuiteEnd).

(** An argument of [collect], as the promise made of it settles. *)
Inductive collected_arg : Type :=
| Gives (p : SuiteModule)
| Fails (v : thrown).

(** [p.default ? p.default : p] *)
Definition unwrap (p : SuiteModule) : SuiteEnd :=
  match p with
  | Exported d => d
  | Direct e => e
  end.

(** [await Promise.all(promises)]: the results in the order of the
    arguments, or nothing when a promise rejects. *)
Fixpoint all_results (mods : list collected_arg) : option (list SuiteEnd) :=
  match mods with
  | [] => Some []
  | Gives p :: rest =>
      match all_results rest with
      | Some l => Some (unwrap p :: l)
      | None => None
      end
  | Fails _ :: _ => None
  end.

(** The body of the loop over the results. *)
Definition add_result (end_0 value : SuiteEnd) : SuiteEnd :=
  mkSuiteEnd (usedOnly end_0 && usedOnly value)
    (duration end_0 + duration value)
    (results end_0 ++ results value)
    (filtered end_0 + filtered value)
    (ignored end_0 + ignored value)
    (passed end_0 + passed value)
    (failed end_0 + failed value)
    (timeout end_0).

Section Collect.

Variable stack_of : thrown -> string.

(** [collect(...mods)]: the result and the lines written with
    [console.log], or nothing when the call rejects. *)
Definition collect (mods : list collected_arg)
  : option (SuiteEnd * list string) :=
  match all_results mods with
  | None => None
  | Some rs =>
      let end_0 := foldl add_result emptyEndMsg rs in
      Some (end_0,
            ("collected " +:+ pretty (length rs) +:+ " suites")
            :: print stack_of (EvEnd end_0))
  end.

End Collect.

(** ** Auxiliary definitions for the further properties *)

(** *** Sums over results *)

(** The sum of a field over a list of suite results. *)
Definition total (f : SuiteEnd -> Z) (l : list SuiteEnd) : Z :=
  foldr (fun e acc => f e + acc) 0 l.

(** The counters of a suite result agree with its list of outcomes. *)
Definition consistent (e : SuiteEnd) : Prop :=
  ignored e = count_status ignored_ (results e)
  /\ passed e = count_status passed_ (results e)
  /\ failed e = count_status failed_ (results e).

(** The result of a run that used only, and the result of a run that the
    suite timer cut short. *)
Definition used_only_end : SuiteEnd :=
  mkSuiteEnd true 3 [mkTestEnd "a > t" 3 (Some passed_) None] 1 0 1 0 None.

Definition timed_out_end : SuiteEnd :=
  mkSuiteEnd false 0 [] 0 0 0 0 (Some 10).

(** *** Colours *)

(** The colours that are closed by code 39: red, green, yellow, white and
    gray. *)
Definition foreground : list N := [31; 32; 33; 37; 90]%N.

(** *** Runs *)

(** The event is the end event of a stream. *)
Definition is_end (ev : TestEvent) : bool :=
  match ev with EvEnd _ => true | _ => false end.

(** A suite with a suite timer of 10ms and one test that takes 20ms and
    then fails. *)
Definition overdue_suite : St :=
  state_of
    (test_named "t" (Some (TestFn "t" 20 (Throws (ErrorObj "late"))))
       (new_Suite "s" (mkOptions None (Some 10) None None None None)
          empty_machine)).

(** A suite with the default options, so that [exit] is on, and one failing
    test. *)
Definition exiting_suite : St :=
  state_of (test_named "t" (Some (failing "t"))
              (new_Suite "s" no_options empty_machine)).

(** The suite with one passing test, after its first run. *)
Definition once_suite_done : St := snd (run literal_test no_options once_suite).

(** The options [{ skip: "t" }]. *)
Definition skip_t : RunOptions :=
  mkOptions None None None None None (Some (PString "t")).

(** The root frame and the names of the registered tests of the suite
    named [n]. *)
Definition named (n : string) (st : St) : Prop :=
  (exists rest, stack (fst st) = 0%nat :: rest)
  /\ (exists c, heap (snd st) !! 0%nat = Some c /\ name c = n)
  /\ Forall (fun w => Js.startsWith (t_name w) (n +:+ " > ") = true)
       (registry (fst st)).

(** *** Hook callbacks *)

(** The callback throws before it returns. *)
Definition throws_sync (f : hook_fn) : bool :=
  match hook_settle f with Throws _ => true | _ => false end.

(** The value the promise of the callback rejects with. *)
Definition rejection (f : hook_fn) : option thrown :=
  match hook_settle f with Rejects v => Some v | _ => None end.

(** The frames whose hook list of phase [p] the composer reached, in the
    order it reached them. *)
Definition call_order (p : phase) (l : list log_entry) : list ref :=
  flat_map (fun e => match e with
                     | LCallAll q r => if bool_decide (q = p) then [r] else []
                     | _ => []
                     end) l.

(** Three hooks: the first rejects, the second throws, the third is never
    reached. *)
Definition three_hooks : list hook_fn :=
  [HookFn "a" (Rejects (ErrorObj "async")); HookFn "b" (Throws (ErrorObj "sync"));
   HookFn "c" Fulfils].

(** *** Outcomes *)

(** The sum of the durations of a list of outcomes. *)
Definition sum_durations (l : list TestEnd) : Z :=
  foldr (fun e acc => te_duration e + acc) 0 l.

Definition not_ignored (t : WrappedTest) : bool := negb (t_ignore t).

(** *** Resets *)

(** The references of a suite point at frames allocated at index [n0] or
    later, and the frames before [n0] are those of [h0]. *)
Definition detached (n0 : nat) (h0 : frames) (st : St) : Prop :=
  (n0 <= length (heap (snd st)))%nat
  /\ Forall (fun r => (n0 <= r)%nat) (stack (fst st))
  /\ Forall (fun w => Forall (fun r => (n0 <= r)%nat) (t_hooks w))
       (registry (fst st))
  /\ forall r, (r < n0)%nat -> heap (snd st) !! r = h0 !! r.

(** The suite with a [beforeAll] hook and a test, reset, with a test
    registered after the reset. *)
Definition reset_suite : St := state_of (reset once_suite).
Definition reset_suite1 : St :=
  state_of (test_named "u" (Some (passing "u")) reset_suite).

(** The options [{ reset: true }]. *)
Definition resetting : RunOptions :=
  mkOptions (Some true) None None None None None.

(** *** Runs with tests marked only *)



(** *** Fail-fast *)

(** The options [{ failFast: true }]. *)
Definition fail_fast : RunOptions :=
  mkOptions None None None (Some true) None None.

(** Tests registered in the order A, B, C, where B stands alone in a group
    whose [beforeEach] hook returns [Promise.reject()], a promise rejected
    with [undefined]. *)
Definition nullish_suite : St :=
  state_of
    ((test_named "A" (Some (passing "A")) ;;
      group "g"
        (add_hook BeforeEach (HookFn "be" (Rejects Nullish)) ;;
         test_named "B" (Some (passing "B"))) ;;
      test_named "C" (Some (passing "C")))
       (new_Suite "s" quiet empty_machine)).

(** * Properties *)

(** ** Timers *)

(** A timer never fires in the millisecond it was set. *)
Lemma timer_delay_pos ms : 1 <= timer_delay ms.
Proof.
  unfold timer_delay.
  destruct (Z.leb_spec 1 ms); destruct (Z.leb_spec ms TIMEOUT_MAX); simpl; lia.
Qed.

(** A delay in the range of the timers is kept. *)
Lemma timer_delay_in_range ms :
  1 <= ms <= TIMEOUT_MAX -> timer_delay ms = ms.
Proof.
  intros [H1 H2]. unfold timer_delay.
  apply Z.leb_le in H1, H2. by rewrite H1, H2.
Qed.

(** A test function that settles in the millisecond in which the timer of
    the test is due loses the race, and a timeout of [2 ** 31] milliseconds
    fails a test that takes 20ms. *)
Example tie_is_lost :
  snd (run_timeout
         (mkWrapped (TestFn "t" 10 Fulfils) "s > t" false false 10 [])
         empty_machine)
  = Some (TimeoutError 10).
Proof. reflexivity. Qed.

Example overflowing_timeout_fires_at_once :
  let '(m, e) :=
    run_timeout
      (mkWrapped (TestFn "t" 20 Fulfils) "s > t" false false 2147483648 [])
      empty_machine in
  e = Some (TimeoutError 2147483648) /\ now m = 1.
Proof. split; reflexivity. Qed.

(** ** The stream of the runner *)

Lemma loop_drain ff tests : forall st res m acc,
  loop drain ff tests st res m acc =
  let '(l, st', m') := outcomes ff tests st m in
  (st', res ++ map snd l, m', acc ++ test_events l, true).
Proof.
  induction tests as [|t rest IH]; intros st res m acc; simpl.
  - by rewrite !app_nil_r.
  - destruct (run_one t st m) as [[e st1] m1]; simpl.
    destruct (ff && carries_error e); simpl.
    + by rewrite <- app_assoc.
    + rewrite IH. destruct (outcomes ff rest st1 m1) as [[l st2] m2]; simpl.
      by rewrite <- !app_assoc.
Qed.

Lemma events_shape rn m :
  events rn m =
  let '(l, st, m1) := outcomes (failFast rn) (testsToRun rn) (stats rn) m in
  EvStart (testsToRun rn) :: test_events l
  ++ [EvEnd (mkSuiteEnd (r_usedOnly rn) (now m1 - now m) (map snd l)
               (s_filtered st) (s_ignored st) (s_passed st) (s_failed st)
               None)].
Proof.
  unfold events, iterate; simpl. rewrite loop_drain.
  destruct (outcomes _ _ _ _) as [[l st] m1]; simpl. done.
Qed.

Lemma run_one_status t st m :
  let '(e, st1, _) := run_one t st m in
  te_name e = t_name t
  /\ s_filtered st1 = s_filtered st
  /\ s_ignored st1 = s_ignored st + count_status ignored_ [e]
  /\ s_passed st1 = s_passed st + count_status passed_ [e]
  /\ s_failed st1 = s_failed st + count_status failed_ [e]
  /\ count_status ignored_ [e] + count_status passed_ [e]
     + count_status failed_ [e] = 1.
Proof.
  unfold run_one. destruct (t_ignore t); simpl.
  - unfold count_status; simpl. repeat split; lia.
  - destruct (run_timeout t m) as [m1 [err|]]; unfold count_status; simpl;
      repeat split; lia.
Qed.

Lemma count_status_cons s e l :
  count_status s (e :: l) = count_status s [e] + count_status s l.
Proof.
  unfold count_status; simpl. destruct (has_status s e); simpl; lia.
Qed.

Lemma outcomes_counts ff tests : forall st m l st' m',
  outcomes ff tests st m = (l, st', m') ->
  s_filtered st' = s_filtered st
  /\ s_ignored st' = s_ignored st + count_status ignored_ (map snd l)
  /\ s_passed st' = s_passed st + count_status passed_ (map snd l)
  /\ s_failed st' = s_failed st + count_status failed_ (map snd l)
  /\ count_status ignored_ (map snd l) + count_status passed_ (map snd l)
     + count_status failed_ (map snd l) = Z.of_nat (length l).
Proof.
  induction tests as [|t rest IH]; intros st m l st' m'; cbn [outcomes].
  - intros [= <- <- <-]. unfold count_status; cbn. repeat split; lia.
  - pose proof (run_one_status t st m) as H1.
    destruct (run_one t st m) as [[e st1] m1].
    destruct H1 as (_ & Hf & Hi & Hp & Hx & Hs).
    destruct (ff && carries_error e).
    + intros [= <- <- <-]; cbn [map snd length]. repeat split; lia.
    + destruct (outcomes ff rest st1 m1) as [[l2 st2] m2] eqn:E.
      intros [= <- <- <-]. apply IH in E as (Hf2 & Hi2 & Hp2 & Hx2 & Hs2).
      cbn [map snd length].
      rewrite (count_status_cons ignored_ e (map snd l2)),
        (count_status_cons passed_ e (map snd l2)),
        (count_status_cons failed_ e (map snd l2)).
      repeat split; lia.
Qed.

Lemma outcomes_prefix ff tests : forall st m l st' m',
  outcomes ff tests st m = (l, st', m') ->
  map fst l `prefix_of` tests
  /\ Forall (fun p => te_name (snd p) = t_name (fst p)) l
  /\ ((length l < length tests)%nat ->
      ff = true /\ exists p, last l = Some p /\ carries_error (snd p) = true).
Proof.
  induction tests as [|t rest IH]; intros st m l st' m'; simpl.
  - intros [= <- <- <-]; simpl. split; [done|]. split; [constructor|lia].
  - pose proof (run_one_status t st m) as H1.
    destruct (run_one t st m) as [[e st1] m1]. destruct H1 as (Hn & _).
    destruct (ff && carries_error e) eqn:Hb.
    + intros [= <- <- <-]; simpl. apply andb_true_iff in Hb as [-> Hc].
      split; [by apply prefix_cons, prefix_nil|].
      split; [by repeat constructor|]. intros _. split; [done|]. by exists (t, e).
    + destruct (outcomes ff rest st1 m1) as [[l2 st2] m2] eqn:E.
      intros [= <- <- <-]. apply IH in E as (Hp & Hall & Hlast); simpl.
      split; [by apply prefix_cons|]. split; [by constructor|].
      intros Hlt. destruct Hlast as (-> & p & Hl & Hc); [lia|].
      split; [done|]. exists p. split; [|done].
      destruct l2; [done|]. done.
Qed.

Lemma outcomes_fail_fast tests : forall st m l st' m',
  outcomes true tests st m = (l, st', m') ->
  forall pre e post,
    test_events l = pre ++ EvTestEnd e :: post ->
    carries_error e = true -> post = [].
Proof.
  induction tests as [|t rest IH]; intros st m l st' m'; simpl.
  - intros [= <- <- <-] pre e post; simpl. by destruct pre.
  - destruct (run_one t st m) as [[e0 st1] m1].
    destruct (carries_error e0) eqn:Hc.
    + intros [= <- <- <-] pre e post; simpl.
      destruct pre as [|x [|y pre]]; simpl; intros [=]; subst; try done.
      by destruct pre.
    + destruct (outcomes true rest st1 m1) as [[l2 st2] m2] eqn:E.
      intros [= <- <- <-] pre e post; simpl.
      destruct pre as [|x [|y pre]]; simpl; intros [=] He; subst.
      * congruence.
      * eapply IH; eauto.
Qed.

Lemma snoc_eq_middle {A} (l1 l2 post : list A) (a b : A) :
  l1 ++ [a] = l2 ++ b :: post ->
  (post = [] /\ a = b /\ l1 = l2)
  \/ exists post', post = post' ++ [a] /\ l1 = l2 ++ b :: post'.
Proof.
  destruct post as [|x post _] using rev_ind.
  - intros H. apply app_inj_tail in H as [-> ->]. by left.
  - intros H. right. exists post.
    rewrite app_comm_cons, app_assoc in H.
    apply app_inj_tail in H as [-> ->]. done.
Qed.

(** ** The constructor of the runner *)

Lemma filter_length_split {A} (f : A -> bool) (l : list A) :
  length l = (length (List.filter f l)
              + length (List.filter (fun x => negb (f x)) l))%nat.
Proof.
  induction l as [|x l IH]; simpl; [done|].
  destruct (f x); simpl; lia.
Qed.

Lemma test_events_start l t :
  EvTestStart t ∈ test_events l -> t ∈ map fst l.
Proof.
  induction l as [|[t0 e0] l IH]; simpl.
  - by intros ?%elem_of_nil.
  - rewrite !elem_of_cons. intros [[= ->]|[[=]|H]]; auto.
Qed.

(** C7. When some registered test is marked only, the runner takes exactly
    the only-marked tests as eligible, runs those of them that pass the
    filter, starts no other test, and its end event reports [usedOnly] and a
    [filtered] count equal to the number of eligible tests minus the number
    of eligible tests passing the filter: tests that are not marked only are
    not counted as filtered. *)
Theorem only_focus tests filterFn ff m :
  (exists t, t ∈ tests /\ t_only t = true) ->
  let rn := new_TestRunner tests filterFn ff in
  let eligible := List.filter t_only tests in
  r_usedOnly rn = true
  /\ testsToRun rn = List.filter filterFn eligible
  /\ (forall t, EvTestStart t ∈ events rn m -> t_only t = true)
  /\ exists e,
       last (events rn m) = Some (EvEnd e)
       /\ usedOnly e = true
       /\ filtered e = Z.of_nat (length eligible)
                       - Z.of_nat (length (List.filter filterFn eligible))
       /\ filtered e
          = Z.of_nat (length (List.filter (fun t => negb (filterFn t))
                                eligible)).
Proof.
  intros (t & Hin & Hon) rn eligible.
  assert (Hused : r_usedOnly rn = true).
  { unfold rn, new_TestRunner; simpl. apply Nat.ltb_lt.
    assert (t ∈ List.filter t_only tests) as Ht.
    { apply list_elem_of_In, filter_In. split; [by apply list_elem_of_In|done]. }
    destruct (List.filter t_only tests); [by apply elem_of_nil in Ht|simpl; lia]. }
  assert (Hrun : testsToRun rn = List.filter filterFn eligible).
  { unfold rn, new_TestRunner in *; simpl in *. by rewrite Hused. }
  assert (Hfil : s_filtered (stats rn)
                 = Z.of_nat (length eligible)
                   - Z.of_nat (length (List.filter filterFn eligible))).
  { unfold rn, new_TestRunner in *; simpl in *. by rewrite Hused. }
  split; [done|]. split; [done|].
  rewrite events_shape.
  destruct (outcomes _ _ _ _) as [[l st] m1] eqn:E.
  pose proof (outcomes_counts _ _ _ _ _ _ _ E) as (Hf & _).
  pose proof (outcomes_prefix _ _ _ _ _ _ _ E) as (Hp & _).
  split.
  - intros t' Ht'. rewrite elem_of_cons in Ht'. destruct Ht' as [[=]|Ht'].
    apply elem_of_app in Ht' as [Ht'|Ht'].
    + apply test_events_start in Ht'.
      destruct Hp as [k Hk]. assert (t' ∈ testsToRun rn) as Hr.
      { rewrite Hk. apply elem_of_app. by left. }
      rewrite Hrun in Hr. apply list_elem_of_In, filter_In in Hr as [Hr _].
      by apply filter_In in Hr as [_ Hr].
    + apply list_elem_of_singleton in Ht'. done.
  - eexists. split.
    + rewrite app_comm_cons. apply last_snoc.
    + simpl. split; [done|]. rewrite Hf, Hfil. split; [done|].
      rewrite (filter_length_split filterFn eligible) at 1. lia.
Qed.

Lemma only_focus_witness :
  (exists t, t ∈ focus_tests /\ t_only t = true)
  /\ testsToRun (new_TestRunner focus_tests
                   (fun t => Js.includes (t_name t) "alpha") false)
     = List.filter (fun t => Js.includes (t_name t) "alpha")
         (List.filter t_only focus_tests).
Proof.
  assert (H : exists t, t ∈ focus_tests /\ t_only t = true).
  { eexists. split; [apply list_elem_of_here|reflexivity]. }
  split; [exact H|].
  exact (proj1 (proj2 (only_focus focus_tests
                         (fun t => Js.includes (t_name t) "alpha") false
                         empty_machine H))).
Defined.

(** ** The counters of the runner *)

(** C8. The end event of every run of the runner carries counters with
    [passed + failed + ignored] equal to the number of tests the generator
    iterated; each of the three counters is the number of outcomes with that
    status, the iterated tests are a prefix of the tests to run, and the
    prefix is proper only when fail-fast stopped at an outcome carrying an
    error. *)
Theorem aggregate_counts tests filterFn ff m :
  exists l e,
    events (new_TestRunner tests filterFn ff) m
    = EvStart (testsToRun (new_TestRunner tests filterFn ff))
      :: test_events l ++ [EvEnd e]
    /\ map fst l `prefix_of` testsToRun (new_TestRunner tests filterFn ff)
    /\ results e = map snd l
    /\ ignored e = count_status ignored_ (results e)
    /\ passed e = count_status passed_ (results e)
    /\ failed e = count_status failed_ (results e)
    /\ passed e + failed e + ignored e = Z.of_nat (length l)
    /\ (map fst l = testsToRun (new_TestRunner tests filterFn ff)
        \/ (ff = true
            /\ exists p, last l = Some p /\ carries_error (snd p) = true)).
Proof.
  rewrite events_shape.
  destruct (outcomes _ _ _ _) as [[l st] m1] eqn:E.
  pose proof (outcomes_counts _ _ _ _ _ _ _ E) as (Hf & Hi & Hp & Hx & Hs).
  pose proof (outcomes_prefix _ _ _ _ _ _ _ E) as (Hpre & _ & Hlast).
  simpl in Hi, Hp, Hx.
  exists l. eexists. split; [reflexivity|]. simpl.
  split; [done|]. split; [done|].
  split; [lia|]. split; [lia|]. split; [lia|]. split; [lia|].
  destruct (decide (length l < length (List.filter filterFn
              (if (0 <? length (List.filter t_only tests))%nat
               then List.filter t_only tests else tests)))%nat) as [Hlt|Hge].
  - right. by apply Hlast.
  - left. destruct Hpre as [k Hk]. simpl in *. rewrite Hk in Hge |- *.
    rewrite length_app, length_map in Hge.
    destruct k; [by rewrite app_nil_r|simpl in Hge; lia].
Qed.

(** ** Fail-fast *)

(** With fail-fast enabled, once a test-end event carries an error that is
    neither [null] nor [undefined], the stream has nothing left but its
    single end event: no later test is started. *)
Theorem fail_fast_stops rn m pre e post :
  failFast rn = true ->
  events rn m = pre ++ EvTestEnd e :: post ->
  carries_error e = true ->
  exists se, post = [EvEnd se].
Proof.
  intros Hff Hev Hc. rewrite events_shape, Hff in Hev.
  destruct (outcomes _ _ _ _) as [[l st] m1] eqn:E.
  destruct pre as [|x pre]; [done|]. injection Hev as _ Hev.
  apply snoc_eq_middle in Hev as [(_ & [=] & _)|(post' & -> & Hev)].
  eapply outcomes_fail_fast in Hev; eauto. subst post'. eauto.
Qed.

Lemma fail_fast_stops_witness :
  failFast abc_runner = true
  /\ carries_error outcome_B = true
  /\ exists se,
       events abc_runner empty_machine
       = [EvStart abc_tests;
          EvTestStart (mkWrapped (passing "A") "s > A" false false 2000 []);
          EvTestEnd outcome_A;
          EvTestStart (mkWrapped (failing "B") "s > B" false false 2000 []);
          EvTestEnd outcome_B;
          EvEnd se].
Proof.
  split; [reflexivity|]. split; [reflexivity|].
  destruct (fail_fast_stops abc_runner empty_machine
              [EvStart abc_tests;
               EvTestStart (mkWrapped (passing "A") "s > A" false false 2000 []);
               EvTestEnd outcome_A;
               EvTestStart (mkWrapped (failing "B") "s > B" false false 2000 [])]
              outcome_B
              [EvEnd (mkSuiteEnd false 0 [outcome_A; outcome_B] 0 0 1 1 None)]
              eq_refl eq_refl eq_refl) as [se Hse].
  exists se. rewrite <- Hse. reflexivity.
Defined.

(** C9. Tests are registered in the order A, B, C and run with fail-fast.
    B fails: the [beforeEach] hook of its group rejects with [undefined],
    so B is recorded as failed and counted as failed, with [undefined] as
    its error.  The run does not stop there: the guard of the generator
    tests [error != null] and not the status, so C is started after the
    failure of B, its function runs, and the result reports two tests
    passed and one failed. *)
Theorem fail_fast_misses_a_nullish_failure :
  let '(r, evs, st) := run literal_test fail_fast nullish_suite in
  let end_A := mkTestEnd "s > A" 0 (Some passed_) None in
  let end_B := mkTestEnd "s > g > B" 0 (Some failed_) (Some Nullish) in
  let end_C := mkTestEnd "s > C" 0 (Some passed_) None in
  let final := mkSuiteEnd false 0 [end_A; end_B; end_C] 0 0 2 1 None in
  o_failFast (merge (options (fst nullish_suite)) fail_fast) = Some true
  /\ r = Resolved final
  /\ carries_error end_B = false
  /\ (exists head test_C,
        t_name test_C = "s > C"
        /\ evs = head ++ [EvTestEnd end_B; EvTestStart test_C; EvTestEnd end_C;
                          EvEnd final])
  /\ log (snd st)
     = [LCallAll BeforeAll 0; LCallAll BeforeEach 0; LBody "A";
        LCallAll AfterEach 0;
        LCallAll BeforeEach 0; LCallAll BeforeAll 1; LCallAll BeforeEach 1;
        LHook BeforeEach 1 "be";
        LCallAll BeforeEach 0; LBody "C"; LCallAll AfterEach 0].
Proof.
  vm_compute. split; [reflexivity|]. split; [reflexivity|].
  split; [reflexivity|]. split; [|reflexivity].
  eexists [_; _; _; _], _. split; [|reflexivity]. reflexivity.
Qed.

(** ** The filter *)

(** The filter function follows the rule whenever the skip option is not a
    string between slashes. *)
Lemma createFilterFn_rule re filter skip t :
  slashed skip = false ->
  createFilterFn re filter skip t = rule_passes re filter skip (t_name t).
Proof.
  unfold createFilterFn, rule_passes, is_set, matches, slashed.
  intros Hs.
  destruct filter as [[src|f]|], skip as [[src'|s]|]; simpl in *;
    repeat match goal with
           | |- context [Js.truthy_string ?x] =>
               destruct (Js.truthy_string x) eqn:?; simpl in *
           | |- context [Js.startsWith ?x ?y && Js.endsWith ?x ?y] =>
               destruct (Js.startsWith x y && Js.endsWith x y) eqn:?;
               simpl in *
           end; rewrite ?andb_true_r; try done; try congruence.
Qed.

(** A skip given as a string is only ever searched for as a substring. *)
Lemma createFilterFn_skip_string re s t :
  createFilterFn re None (Some (PString s)) t
  = negb (Js.truthy_string s && Js.includes (t_name t) s).
Proof.
  unfold createFilterFn. by destruct (Js.truthy_string s).
Qed.

(** C6. A skip given as the string "/skips/" does not exclude the test named
    "subtests > skips": the filter function lets the test run, although the
    same string given as a filter is read as the regular expression [skips]
    and matches that name, so that the rule excludes the test. *)
Theorem skip_between_slashes_is_not_a_regexp :
  createFilterFn literal_test None (Some (PString "/skips/")) skips_test = true
  /\ createFilterFn literal_test (Some (PString "/skips/")) None skips_test
     = true
  /\ matches literal_test (PString "/skips/") (t_name skips_test) = true
  /\ rule_passes literal_test None (Some (PString "/skips/"))
       (t_name skips_test) = false.
Proof. repeat split; reflexivity. Qed.

(** ** Durations *)


(** C2. A test with a timeout of 10ms whose function settles after 20ms is
    recorded as failed with a timeout error, and the clock has advanced by
    10ms when the outcome is recorded, but the recorded duration is 0. *)
Theorem timed_out_test_has_zero_duration :
  let '(e, st, m1) := run_one slow_test (mkStats 0 0 0 0) empty_machine in
  te_status e = Some failed_
  /\ te_error e = Some (TimeoutError 10)
  /\ s_failed st = 1
  /\ now m1 - now empty_machine = 10
  /\ te_duration e = 0.
Proof. repeat split; reflexivity. Qed.

(** ** Errors in setup hooks *)






(** ** The heap of frames *)

Lemma update_all_length f rs : forall h,
  length (update_all f rs h) = length h.
Proof.
  unfold update_all. induction rs as [|a rs IH]; intros h; cbn [foldl]; [done|].
  rewrite IH. apply length_alter.
Qed.

Lemma update_all_notin f rs r : forall h,
  r ∉ rs -> update_all f rs h !! r = h !! r.
Proof.
  unfold update_all. induction rs as [|a rs IH]; intros h Hr; cbn [foldl];
    [done|].
  apply not_elem_of_cons in Hr as [Hne Hr].
  rewrite IH by done. by apply list_lookup_alter_ne.
Qed.

Lemma update_all_in f rs r : forall h,
  NoDup rs -> r ∈ rs -> update_all f rs h !! r = f <$> h !! r.
Proof.
  induction rs as [|a rs IH]; intros h Hnd Hr; [by apply elem_of_nil in Hr|].
  apply NoDup_cons in Hnd as [Ha Hnd].
  change (update_all f (a :: rs) h) with (update_all f rs (alter f a h)).
  destruct (decide (r = a)) as [->|Hne].
  - rewrite update_all_notin by done. apply list_lookup_alter_eq.
  - apply elem_of_cons in Hr as [?|Hr]; [done|].
    rewrite IH by done. by rewrite list_lookup_alter_ne by congruence.
Qed.

Lemma update_all_lookup f rs r h :
  NoDup rs ->
  update_all f rs h !! r = if under r rs then f <$> h !! r else h !! r.
Proof.
  intros Hnd. unfold under. case_bool_decide.
  - by apply update_all_in.
  - by apply update_all_notin.
Qed.

(** ** Registration steps *)

Lemma valid_hooks_mono n n' hooks :
  (n <= n')%nat -> valid_hooks n hooks -> valid_hooks n' hooks.
Proof.
  intros Hle [Hnd Hlt]. split; [done|]. intros r Hr. specialize (Hlt r Hr). lia.
Qed.

Lemma owing_app b r l1 l2 :
  owing b r (l1 ++ l2) = (owing b r l1 + owing b r l2)%nat.
Proof. unfold owing. by rewrite List.filter_app, length_app. Qed.

Lemma marked_app r l1 l2 :
  marked r (l1 ++ l2) = (marked r l1 + marked r l2)%nat.
Proof. unfold marked. by rewrite List.filter_app, length_app. Qed.

Lemma owing_outside b r tests :
  Forall (fun t => r ∉ t_hooks t) tests -> owing b r tests = 0%nat.
Proof.
  unfold owing. induction 1 as [|t l Ht _ IH]; simpl; [done|].
  unfold under at 1. rewrite bool_decide_eq_false_2 by done.
  by rewrite andb_false_r.
Qed.

Lemma marked_outside r tests :
  Forall (fun t => r ∉ t_hooks t) tests -> marked r tests = 0%nat.
Proof.
  unfold marked. induction 1 as [|t l Ht _ IH]; simpl; [done|].
  unfold under at 1. rewrite bool_decide_eq_false_2 by done.
  by rewrite andb_false_r.
Qed.

Lemma valid_hooks_outside n tests r :
  (n <= r)%nat ->
  Forall (fun t => valid_hooks n (t_hooks t)) tests ->
  Forall (fun t => r ∉ t_hooks t) tests.
Proof.
  intros Hle H. eapply Forall_impl; [exact H|].
  intros t [_ Hlt] Hr. specialize (Hlt r Hr). lia.
Qed.

Lemma test_inv t s m st' :
  test t (s, m) = Ok tt st' ->
  exists f n,
    let ig := default false (ignore t) in
    let on := default false (d_only t) in
    let h1 := if negb ig then update_all incr_waiting (stack s) (heap m)
              else heap m in
    let h2 := if on then update_all incr_only (stack s) h1 else h1 in
    st' = (set_registry
             (registry s
              ++ [mkWrapped f n ig on (default 2000 (d_timeout t)) (stack s)]) s,
           set_heap h2 m).
Proof.
  unfold test. destruct (fn t) as [f|]; [|done].
  destruct (negb _); [done|]. intros [= <-]. by eexists _, _.
Qed.

Lemma removelast_sublist {A} (l : list A) : removelast l `sublist_of` l.
Proof.
  induction l as [|x [|y l] IH]; simpl in *.
  - done.
  - by apply sublist_cons.
  - by apply sublist_skip.
Qed.

Lemma added_same st st' :
  registry (fst st') = registry (fst st) -> added st st' = [].
Proof. unfold added. intros ->. by apply drop_all. Qed.

Local Ltac counters := unfold owing, marked; simpl; repeat split; lia.

(** What one registration step does to the suite and to the heap. *)
Lemma reg_step_effect st st' :
  reg_step st st' ->
  valid_hooks (length (heap (snd st))) (stack (fst st)) ->
  log (snd st') = log (snd st)
  /\ background (snd st') = background (snd st)
  /\ cache (fst st') = cache (fst st)
  /\ registry (fst st') = registry (fst st) ++ added st st'
  /\ Forall (fun t => valid_hooks (length (heap (snd st))) (t_hooks t))
       (added st st')
  /\ valid_hooks (length (heap (snd st'))) (stack (fst st'))
  /\ (length (heap (snd st)) <= length (heap (snd st')))%nat
  /\ forall r c', heap (snd st') !! r = Some c' ->
       (exists c, heap (snd st) !! r = Some c
          /\ completed c' = completed c
          /\ completedOnly c' = completedOnly c
          /\ waiting c' = (waiting c + owing false r (added st st'))%nat
          /\ only c' = (only c + marked r (added st st'))%nat)
       \/ (heap (snd st) !! r = None
           /\ completed c' = 0%nat /\ completedOnly c' = 0%nat
           /\ waiting c' = 0%nat /\ only c' = 0%nat).
Proof.
  destruct st as [s m]. intros Hstep [Hnd Hlt]. simpl in Hnd, Hlt.
  inversion Hstep as [t ? ? Ht|p f ? ? Hh|n ? ? Hp|? ? Hlen Hp]; subst.
  - (* test *)
    apply test_inv in Ht as (f & n & ->). cbn zeta.
    set (ig := default false (ignore t)). set (on := default false (d_only t)).
    set (w := mkWrapped f n ig on _ _).
    assert (Hadd : added (s, m) (set_registry (registry s ++ [w]) s,
                     set_heap (if on then update_all incr_only (stack s)
                                 (if negb ig
                                  then update_all incr_waiting (stack s) (heap m)
                                  else heap m)
                               else if negb ig
                                    then update_all incr_waiting (stack s) (heap m)
                                    else heap m) m) = [w]).
    { unfold added; simpl. by rewrite drop_app_length. }
    rewrite Hadd. simpl.
    assert (Hl : length (if on then update_all incr_only (stack s)
                                 (if negb ig
                                  then update_all incr_waiting (stack s) (heap m)
                                  else heap m)
                               else if negb ig
                                    then update_all incr_waiting (stack s) (heap m)
                                    else heap m) = length (heap m)).
    { destruct on, ig; simpl; by rewrite ?update_all_length. }
    rewrite Hl.
    repeat split; try done.
    + by repeat constructor.
    + intros r c' Hc'. left.
      unfold owing, marked; simpl. fold ig on.
      destruct on, ig; simpl in Hc' |- *;
        rewrite ?update_all_lookup in Hc' by done;
        destruct (under r (stack s)); simpl in *;
        destruct (heap m !! r) as [c|] eqn:Hc; simplify_eq/=;
        eexists; (split; [done|]); counters.
  - (* a hook *)
    unfold add_hook in Hh. destruct (top s) as [r0|]; [|done].
    injection Hh as <-. rewrite added_same by done. simpl.
    rewrite length_alter, app_nil_r.
    repeat split; try done.
    intros r c' Hc'. left.
    destruct (decide (r0 = r)) as [->|Hne].
    + rewrite list_lookup_alter_eq in Hc'.
      destruct (heap m !! r) as [c|]; simplify_eq/=.
      eexists; split; [done|]. destruct p; counters.
    + rewrite list_lookup_alter_ne in Hc' by done.
      eexists; split; [done|]. counters.
  - (* entering a group *)
    injection Hp as <-. rewrite added_same by done. simpl.
    rewrite length_app, app_nil_r; simpl.
    repeat split; try done.
    + apply NoDup_app. split; [done|]. split; [|apply NoDup_singleton].
      intros r Hr ->%list_elem_of_singleton. specialize (Hlt _ Hr). lia.
    + intros r [Hr| ->%list_elem_of_singleton]%elem_of_app;
        [specialize (Hlt _ Hr)|]; lia.
    + lia.
    + intros r c' Hc'.
      destruct (heap m !! r) as [c|] eqn:Hc.
      * left. rewrite (lookup_app_l_Some _ _ _ _ Hc) in Hc'. simplify_eq.
        eexists; split; [done|]. counters.
      * right. apply lookup_ge_None in Hc.
        rewrite lookup_app_r in Hc' by done.
        destruct (r - length (heap m))%nat; simplify_eq/=. done.
  - (* leaving a group *)
    injection Hp as <-. rewrite added_same by done. simpl.
    rewrite app_nil_r.
    repeat split; try done.
    + eapply sublist_NoDup; [done|apply removelast_sublist].
    + intros r Hr. apply Hlt.
      eapply elem_of_sublist; [done|apply removelast_sublist].
    + intros r c' Hc'. left. eexists; split; [done|]. counters.
Qed.

Lemma new_Suite_wf n opts : wf (new_Suite n opts empty_machine).
Proof.
  split; simpl; [|constructor]. split; [apply NoDup_singleton|].
  intros r ->%list_elem_of_singleton. lia.
Qed.

Lemma new_Suite_fresh n opts : fresh (new_Suite n opts empty_machine).
Proof.
  split; [done|]. split; [done|]. intros [|r] c; simpl; [|done].
  by intros [= <-].
Qed.

Lemma reg_step_wf st st' : wf st -> reg_step st st' -> wf st'.
Proof.
  intros [Hs Hr] Hstep.
  destruct (reg_step_effect _ _ Hstep Hs)
    as (_ & _ & _ & Hreg & Hadd & Hs' & Hle & _).
  split; [done|]. rewrite Hreg. apply Forall_app.
  split; (eapply Forall_impl; [eassumption|]);
    intros t; by apply valid_hooks_mono.
Qed.

Lemma reg_step_fresh st st' : wf st -> fresh st -> reg_step st st' -> fresh st'.
Proof.
  intros [Hs Hr] (Hlog & Hbg & Hc) Hstep.
  destruct (reg_step_effect _ _ Hstep Hs)
    as (Hlog' & Hbg' & _ & Hreg & Hadd & Hs' & Hle & Hheap).
  split; [congruence|]. split; [congruence|].
  intros r c' Hc'. rewrite Hreg, owing_app, marked_app.
  destruct (Hheap r c' Hc') as [(c & Hcr & H1 & H2 & H3 & H4)|(Hn & H1 & H2 & H3 & H4)].
  - destruct (Hc r c Hcr) as (? & ? & ? & ?). repeat split; lia.
  - apply lookup_ge_None in Hn.
    assert (Hout : Forall (fun t => r ∉ t_hooks t)
                     (registry (fst st) ++ added st st')).
    { apply Forall_app. split; by eapply valid_hooks_outside. }
    rewrite <- owing_app, <- marked_app.
    rewrite owing_outside, marked_outside by done. repeat split; lia.
Qed.

Lemma registered_inv st : registered st -> wf st /\ fresh st.
Proof.
  intros (n & opts & Hrtc). revert st Hrtc. apply rtc_ind_r.
  - split; [apply new_Suite_wf|apply new_Suite_fresh].
  - intros y z _ Hstep [Hwf Hfresh].
    split; [by eapply reg_step_wf|by eapply reg_step_fresh].
Qed.

(** ** Hooks that return normally *)

Lemma map_invoke_calm fns :
  Forall (fun f => hook_settle f = Fulfils) fns -> map_invoke fns = (fns, None).
Proof.
  induction 1 as [|f fns Hf _ IH]; simpl; [done|]. by rewrite Hf, IH.
Qed.

Lemma promise_all_calm fns :
  Forall (fun f => hook_settle f = Fulfils) fns -> promise_all fns = None.
Proof.
  induction 1 as [|f fns Hf _ IH]; simpl; [done|]. by rewrite Hf.
Qed.

Lemma callAll_at_calm p r fns :
  Forall (fun f => hook_settle f = Fulfils) fns ->
  callAll_at p r fns = (callAll_log p r fns, None).
Proof.
  intros H. unfold callAll_at, callAll.
  by rewrite map_invoke_calm, promise_all_calm.
Qed.

Lemma calm_frame_lists c :
  calm_frame c ->
  forall p, Forall (fun f => hook_settle f = Fulfils) (hook_list p c).
Proof.
  unfold calm_frame. rewrite !Forall_app. intros (? & ? & ? & ?) []; done.
Qed.

Lemma setup_calm h hooks :
  calm h -> setup h hooks = (setup_log h hooks, None).
Proof.
  intros Hcalm. unfold setup_log.
  induction hooks as [|r rest IH]; simpl; [done|].
  unfold setup_frame_log at 1. destruct (h !! r) as [c|] eqn:Hc; [|done].
  pose proof (calm_frame_lists c (Forall_lookup_1 _ _ _ _ Hcalm Hc)) as Hl.
  rewrite (callAll_at_calm BeforeEach) by apply (Hl BeforeEach).
  destruct (completed c =? 0)%nat.
  - rewrite (callAll_at_calm BeforeAll) by apply (Hl BeforeAll).
    rewrite IH. by rewrite <- !app_assoc.
  - rewrite IH. done.
Qed.

Lemma teardown_calm h hooks :
  calm h -> teardown h hooks = (teardown_log h hooks, None).
Proof.
  intros Hcalm. unfold teardown_log.
  induction hooks as [|r rest IH]; simpl; [done|].
  unfold teardown_frame_log at 1. destruct (h !! r) as [c|] eqn:Hc; [|done].
  pose proof (calm_frame_lists c (Forall_lookup_1 _ _ _ _ Hcalm Hc)) as Hl.
  rewrite (callAll_at_calm AfterEach) by apply (Hl AfterEach).
  destruct (afterAll_due c).
  - rewrite (callAll_at_calm AfterAll) by apply (Hl AfterAll).
    rewrite IH. by rewrite <- !app_assoc.
  - rewrite IH. by rewrite app_nil_r.
Qed.

Lemma update_all_Forall (P : StackItem -> Prop) f hooks : forall h,
  (forall c, P c -> P (f c)) -> Forall P h -> Forall P (update_all f hooks h).
Proof.
  unfold update_all. induction hooks as [|r rest IH]; intros h Hf Hh;
    cbn [foldl]; [done|].
  apply IH; [done|]. apply Forall_alter; auto.
Qed.

Lemma update_all_calm on hooks h :
  calm h -> calm (update_all (incr_completed on) hooks h).
Proof. apply update_all_Forall. by intros []. Qed.

Lemma finish_calm hooks on s h :
  calm h ->
  finish hooks on s h
  = (update_all (incr_completed on) hooks h,
     teardown_log (update_all (incr_completed on) hooks h) (rev hooks),
     rethrow (caught s)).
Proof.
  intros Hcalm. unfold finish.
  by rewrite teardown_calm by by apply update_all_calm.
Qed.

Lemma wrappedFn_calm f on hooks h :
  calm h ->
  wrappedFn f on hooks h
  = (update_all (incr_completed on) hooks h,
     setup_log h hooks
     ++ LBody (fn_label f)
        :: teardown_log (update_all (incr_completed on) hooks h) (rev hooks),
     rethrow (caught (fn_settle f))).
Proof.
  intros Hcalm. unfold wrappedFn.
  by rewrite setup_calm, finish_calm.
Qed.



(** ** Counting log entries *)

Lemma occurrences_app e l1 l2 :
  occurrences e (l1 ++ l2) = (occurrences e l1 + occurrences e l2)%nat.
Proof. unfold occurrences. by rewrite List.filter_app, length_app. Qed.

Lemma occurrences_cons e x l :
  occurrences e (x :: l)
  = ((if bool_decide (x = e) then 1 else 0) + occurrences e l)%nat.
Proof. unfold occurrences; simpl. by destruct (bool_decide (x = e)). Qed.

Lemma occurrences_none e l :
  Forall (fun x => x <> e) l -> occurrences e l = 0%nat.
Proof.
  induction 1 as [|x l Hx _ IH]; [done|].
  rewrite occurrences_cons, IH. by rewrite bool_decide_eq_false_2.
Qed.

Lemma callAll_log_site p r fns :
  Forall (fun x => site x = Some (p, r)) (callAll_log p r fns).
Proof.
  unfold callAll_log. constructor; [done|].
  apply Forall_forall. intros x Hx.
  apply list_elem_of_In, in_map_iff in Hx as (f & <- & _). done.
Qed.

Lemma occurrences_other_site e p r fns :
  site e <> Some (p, r) -> occurrences e (callAll_log p r fns) = 0%nat.
Proof.
  intros He. apply occurrences_none.
  eapply Forall_impl; [apply callAll_log_site|].
  intros x Hx ->. done.
Qed.

Lemma occurrences_marker p r fns :
  occurrences (LCallAll p r) (callAll_log p r fns) = 1%nat.
Proof.
  unfold callAll_log. rewrite occurrences_cons, bool_decide_eq_true_2 by done.
  rewrite occurrences_none; [done|].
  apply Forall_forall. intros x Hx.
  apply list_elem_of_In, in_map_iff in Hx as (f & <- & _). done.
Qed.

Lemma under_cons r a hooks :
  under r (a :: hooks) = bool_decide (r = a) || under r hooks.
Proof.
  unfold under. rewrite <- bool_decide_or. apply bool_decide_ext, elem_of_cons.
Qed.

Lemma occurrences_flat_map e (g : ref -> list log_entry) hooks r :
  NoDup hooks ->
  (forall r', r' <> r -> occurrences e (g r') = 0%nat) ->
  occurrences e (flat_map g hooks)
  = if under r hooks then occurrences e (g r) else 0%nat.
Proof.
  intros Hnd Hg.
  induction Hnd as [|a hooks Ha Hnd IH]; [done|].
  cbn [flat_map]. rewrite occurrences_app, IH, under_cons.
  destruct (decide (r = a)) as [->|Hne].
  - rewrite bool_decide_eq_true_2 by done.
    unfold under. rewrite bool_decide_eq_false_2 by done. simpl. lia.
  - rewrite bool_decide_eq_false_2 by done.
    rewrite Hg by congruence. done.
Qed.

Lemma occurrences_setup_log e p r h hooks c :
  site e = Some (p, r) ->
  NoDup hooks ->
  h !! r = Some c ->
  occurrences e (setup_log h hooks)
  = match p with
    | BeforeAll =>
        if under r hooks && Nat.eqb (completed c) 0
        then occurrences e (callAll_log BeforeAll r (beforeAll c)) else 0%nat
    | BeforeEach =>
        if under r hooks
        then occurrences e (callAll_log BeforeEach r (beforeEach c)) else 0%nat
    | _ => 0%nat
    end.
Proof.
  intros He Hnd Hc. unfold setup_log.
  rewrite (occurrences_flat_map e _ hooks r Hnd).
  - unfold setup_frame_log. rewrite Hc, occurrences_app.
    destruct (under r hooks); [|by destruct p].
    destruct p; simpl.
    + rewrite (occurrences_other_site e BeforeEach) by (rewrite He; congruence).
      destruct (completed c =? 0)%nat; simpl; lia.
    + destruct (completed c =? 0)%nat; simpl; [|done].
      by rewrite (occurrences_other_site e BeforeAll)
        by (rewrite He; congruence).
    + rewrite (occurrences_other_site e BeforeEach) by (rewrite He; congruence).
      destruct (completed c =? 0)%nat; simpl; [|done].
      by rewrite (occurrences_other_site e BeforeAll)
        by (rewrite He; congruence).
    + rewrite (occurrences_other_site e BeforeEach) by (rewrite He; congruence).
      destruct (completed c =? 0)%nat; simpl; [|done].
      by rewrite (occurrences_other_site e BeforeAll)
        by (rewrite He; congruence).
  - intros r' Hne. unfold setup_frame_log.
    destruct (h !! r') as [c'|]; [|done].
    rewrite occurrences_app.
    rewrite (occurrences_other_site e BeforeEach) by (rewrite He; congruence).
    destruct (completed c' =? 0)%nat; simpl; [|done].
    by rewrite (occurrences_other_site e BeforeAll) by (rewrite He; congruence).
Qed.

Lemma occurrences_teardown_log e p r h hooks c :
  site e = Some (p, r) ->
  NoDup hooks ->
  h !! r = Some c ->
  occurrences e (teardown_log h hooks)
  = match p with
    | AfterAll =>
        if under r hooks && afterAll_due c
        then occurrences e (callAll_log AfterAll r (afterAll c)) else 0%nat
    | AfterEach =>
        if under r hooks
        then occurrences e (callAll_log AfterEach r (afterEach c)) else 0%nat
    | _ => 0%nat
    end.
Proof.
  intros He Hnd Hc. unfold teardown_log.
  rewrite (occurrences_flat_map e _ hooks r Hnd).
  - unfold teardown_frame_log. rewrite Hc, occurrences_app.
    destruct (under r hooks); [|by destruct p].
    destruct p; simpl.
    + rewrite (occurrences_other_site e AfterEach) by (rewrite He; congruence).
      destruct (afterAll_due c); simpl; [|done].
      by rewrite (occurrences_other_site e AfterAll)
        by (rewrite He; congruence).
    + rewrite (occurrences_other_site e AfterEach) by (rewrite He; congruence).
      destruct (afterAll_due c); simpl; [|done].
      by rewrite (occurrences_other_site e AfterAll)
        by (rewrite He; congruence).
    + destruct (afterAll_due c); simpl; [|change (occurrences e []) with 0%nat; lia].
      rewrite (occurrences_other_site e AfterAll)
        by (rewrite He; congruence). lia.
    + rewrite (occurrences_other_site e AfterEach) by (rewrite He; congruence).
      destruct (afterAll_due c); simpl; [lia|done].
  - intros r' Hne. unfold teardown_frame_log.
    destruct (h !! r') as [c'|]; [|done].
    rewrite occurrences_app.
    rewrite (occurrences_other_site e AfterEach) by (rewrite He; congruence).
    destruct (afterAll_due c'); simpl; [|done].
    by rewrite (occurrences_other_site e AfterAll) by (rewrite He; congruence).
Qed.

(** ** Tests that finish in time, with hooks that return normally *)

Lemma NoDup_rev (l : list ref) : NoDup l -> NoDup (rev l).
Proof.
  rewrite rev_alt. change (rev_append l []) with (reverse l).
  by rewrite reverse_Permutation.
Qed.

Lemma under_rev r (l : list ref) : under r (rev l) = under r l.
Proof.
  unfold under. apply bool_decide_ext.
  rewrite !list_elem_of_In. symmetry. apply in_rev.
Qed.

Lemma run_timeout_calm t m :
  calm (heap m) -> background m = [] -> in_time t ->
  run_timeout t m
  = (mkMachine
       (update_all (incr_completed (t_only t)) (t_hooks t) (heap m))
       (log m
        ++ setup_log (heap m) (t_hooks t)
        ++ LBody (fn_label (t_fn t))
           :: teardown_log
                (update_all (incr_completed (t_only t)) (t_hooks t) (heap m))
                (rev (t_hooks t)))
       (now m + Z.max 0 (fn_elapsed (t_fn t))) [],
     rethrow (caught (fn_settle (t_fn t)))).
Proof.
  intros Hcalm Hbg Hin. unfold run_timeout.
  rewrite setup_calm by done.
  unfold in_time in Hin. apply Z.leb_gt in Hin. rewrite Hin.
  unfold advance, add_log; simpl. rewrite Hbg; simpl.
  rewrite finish_calm by done. unfold add_log, set_heap; simpl.
  rewrite app_nil_r, <- !app_assoc. done.
Qed.

Lemma owing_cons b r t rest :
  owing b r (t :: rest)
  = ((if negb (t_ignore t) && under r (t_hooks t)
         && (if b then t_only t else true) then 1 else 0)
     + owing b r rest)%nat.
Proof.
  unfold owing; simpl.
  by destruct (negb (t_ignore t) && under r (t_hooks t)
               && (if b then t_only t else true)).
Qed.

Lemma iterate_drain_machine rn m :
  fst (iterate drain rn m [])
  = snd (outcomes (failFast rn) (testsToRun rn) (stats rn) m).
Proof.
  unfold iterate; simpl. rewrite loop_drain.
  by destruct (outcomes _ _ _ _) as [[l st] m1].
Qed.

Lemma filter_all {A} (f : A -> bool) (l : list A) :
  Forall (fun x => f x = true) l -> List.filter f l = l.
Proof. induction 1 as [|x l Hx _ IH]; simpl; [done|]. by rewrite Hx, IH. Qed.

Lemma filter_none {A} (f : A -> bool) (l : list A) :
  Forall (fun x => f x = false) l -> List.filter f l = [].
Proof. induction 1 as [|x l Hx _ IH]; simpl; [done|]. by rewrite Hx. Qed.

Lemma group_suite_registered : registered group_suite.
Proof.
  exists "s", quiet.
  eapply rtc_l; [by apply (step_enter "g")|].
  eapply rtc_l; [by apply (step_hook BeforeAll (HookFn "ba" Fulfils))|].
  eapply rtc_l; [by apply (step_hook AfterAll (HookFn "aa" Fulfils))|].
  eapply rtc_l;
    [by apply (step_test (mkTest (Some (passing "alpha")) "alpha"
                            None None None))|].
  eapply rtc_l;
    [by apply (step_test (mkTest (Some (failing "beta")) "beta"
                            None None None))|].
  eapply rtc_l; [apply step_leave; [simpl; lia|reflexivity]|].
  apply rtc_refl.
Defined.

(** ** The counters of the frames *)

Lemma bounded_weaken h d1 d1' d2 d2' :
  (forall r, (d2 r <= d1 r)%nat) -> (forall r, (d2' r <= d1' r)%nat) ->
  bounded h d1 d1' -> bounded h d2 d2'.
Proof.
  intros H1 H2 Hb r c Hc. destruct (Hb r c Hc).
  specialize (H1 r). specialize (H2 r). lia.
Qed.

Lemma finish_heap hooks on s h :
  fst (fst (finish hooks on s h)) = update_all (incr_completed on) hooks h.
Proof.
  unfold finish. destruct (teardown _ _) as [l [v|]]; done.
Qed.

Lemma bounded_finish hooks on h d d' :
  NoDup hooks ->
  bounded h (fun r => d r + (if under r hooks then 1 else 0))%nat
    (fun r => d' r + (if under r hooks && on then 1 else 0))%nat ->
  bounded (update_all (incr_completed on) hooks h) d d'.
Proof.
  intros Hnd Hb r c' Hc'. rewrite update_all_lookup in Hc' by done.
  destruct (under r hooks) eqn:Hu.
  - destruct (h !! r) as [c|] eqn:Hc; [|done]. injection Hc' as <-.
    destruct (Hb r c Hc) as [H1 H2]. rewrite Hu in H1, H2.
    destruct on; simpl in *; lia.
  - destruct (Hb r c' Hc') as [H1 H2]. rewrite Hu in H1, H2. simpl in *. lia.
Qed.

Lemma same_quota_refl h : same_quota h h.
Proof. split; [done|]. intros r c Hc. by exists c. Qed.

Lemma same_quota_trans h1 h2 h3 :
  same_quota h1 h2 -> same_quota h2 h3 -> same_quota h1 h3.
Proof.
  intros [Hl1 H1] [Hl2 H2]. split; [congruence|].
  intros r c3 Hc3. destruct (H2 r c3 Hc3) as (c2 & Hc2 & ? & ?).
  destruct (H1 r c2 Hc2) as (c1 & Hc1 & ? & ?).
  exists c1. repeat split; congruence.
Qed.

Lemma same_quota_update on hooks : forall h,
  same_quota h (update_all (incr_completed on) hooks h).
Proof.
  unfold update_all. induction hooks as [|a hooks IH]; intros h; cbn [foldl].
  - apply same_quota_refl.
  - eapply same_quota_trans; [|apply IH].
    split; [apply length_alter|]. intros r c' Hc'.
    destruct (decide (a = r)) as [->|Hne].
    + rewrite list_lookup_alter_eq in Hc'.
      destruct (h !! r) as [c|]; [|done]. injection Hc' as <-. by exists c.
    + rewrite list_lookup_alter_ne in Hc' by done. by exists c'.
Qed.

Lemma owing_bg_cons b r p bg :
  owing_bg b r (p :: bg)
  = ((if under r (p_hooks p) && (if b then p_only p else true) then 1 else 0)
     + owing_bg b r bg)%nat.
Proof.
  unfold owing_bg; simpl.
  by destruct (under r (p_hooks p) && (if b then p_only p else true)).
Qed.

Lemma owing_bg_enqueue b r p bg :
  owing_bg b r (enqueue p bg) = owing_bg b r (p :: bg).
Proof.
  induction bg as [|q bg IH]; simpl; [done|].
  destruct (due p <? due q); [done|].
  rewrite !owing_bg_cons in *. rewrite IH. lia.
Qed.

Lemma Forall_enqueue (P : pending_fn -> Prop) p bg :
  P p -> Forall P bg -> Forall P (enqueue p bg).
Proof.
  intros Hp. induction 1 as [|q bg Hq Hbg IH]; simpl.
  - by constructor.
  - destruct (due p <? due q); repeat constructor; done.
Qed.

Lemma owing_bg_outside b r bg :
  Forall (fun p => r ∉ p_hooks p) bg -> owing_bg b r bg = 0%nat.
Proof.
  induction 1 as [|p bg Hp _ IH]; [done|].
  rewrite owing_bg_cons, IH. unfold under.
  by rewrite bool_decide_eq_false_2.
Qed.

(** What letting the clock advance does to the heap and to the queue. *)
Lemma flush_spec t bg : forall h,
  let '(bg', h', _) := flush t bg h in
  same_quota h h'
  /\ (forall P : pending_fn -> Prop, Forall P bg -> Forall P bg')
  /\ (forall d d',
        Forall (fun p => NoDup (p_hooks p)) bg ->
        bounded h (fun r => d r + owing_bg false r bg)%nat
          (fun r => d' r + owing_bg true r bg)%nat ->
        bounded h' (fun r => d r + owing_bg false r bg')%nat
          (fun r => d' r + owing_bg true r bg')%nat).
Proof.
  induction bg as [|p rest IH]; intros h; cbn [flush].
  - split; [apply same_quota_refl|]. split; done.
  - destruct (due p <=? t).
    + pose proof (finish_heap (p_hooks p) (p_only p) (p_settle p) h) as Hh.
      destruct (finish (p_hooks p) (p_only p) (p_settle p) h)
        as [[h1 l1] e1]. simpl in Hh. subst h1.
      specialize (IH (update_all (incr_completed (p_only p)) (p_hooks p) h)).
      destruct (flush t rest _) as [[bg2 h2] l2].
      destruct IH as (Hq & HP & Hb).
      split; [eapply same_quota_trans; [apply same_quota_update|done]|].
      split; [intros P HF; apply Forall_cons in HF as [_ HF]; auto|].
      intros d d' Hnd Hbd. apply Forall_cons in Hnd as [Hp Hnd].
      apply Hb; [done|]. apply bounded_finish; [done|].
      eapply bounded_weaken; [| |exact Hbd]; intros r; cbn beta;
        rewrite owing_bg_cons; simpl; rewrite ?andb_true_r; lia.
    + specialize (IH h). destruct (flush t rest h) as [[bg2 h2] l2].
      destruct IH as (Hq & HP & Hb).
      split; [done|].
      split; [intros P HF; apply Forall_cons in HF as [? HF];
              constructor; auto|].
      intros d d' Hnd Hbd. apply Forall_cons in Hnd as [Hp Hnd].
      specialize (Hb (fun r => d r + (if under r (p_hooks p) then 1 else 0))%nat
                    (fun r => d' r + (if under r (p_hooks p) && p_only p
                                      then 1 else 0))%nat Hnd).
      eapply bounded_weaken; [| |apply Hb].
      * intros r; cbn beta. rewrite owing_bg_cons; simpl.
        rewrite ?andb_true_r. lia.
      * intros r; cbn beta. rewrite owing_bg_cons; simpl. lia.
      * eapply bounded_weaken; [| |exact Hbd]; intros r; cbn beta;
          rewrite owing_bg_cons; simpl; rewrite ?andb_true_r; lia.
Qed.

Lemma advance_spec t m :
  same_quota (heap m) (heap (advance t m))
  /\ (forall P : pending_fn -> Prop,
        Forall P (background m) -> Forall P (background (advance t m)))
  /\ (forall d d',
        Forall (fun p => NoDup (p_hooks p)) (background m) ->
        bounded (heap m) (fun r => d r + owing_bg false r (background m))%nat
          (fun r => d' r + owing_bg true r (background m))%nat ->
        bounded (heap (advance t m))
          (fun r => d r + owing_bg false r (background (advance t m)))%nat
          (fun r => d' r + owing_bg true r (background (advance t m)))%nat).
Proof.
  unfold advance. pose proof (flush_spec t (background m) (heap m)) as H.
  by destruct (flush t (background m) (heap m)) as [[bg h] l].
Qed.

(** What the execution of one test does to the heap and to the queue. *)
Lemma run_timeout_spec t m :
  same_quota (heap m) (heap (fst (run_timeout t m)))
  /\ (forall Q : list ref -> Prop,
        Q (t_hooks t) ->
        Forall (fun p => Q (p_hooks p)) (background m) ->
        Forall (fun p => Q (p_hooks p)) (background (fst (run_timeout t m))))
  /\ (forall d d',
        NoDup (t_hooks t) ->
        Forall (fun p => NoDup (p_hooks p)) (background m) ->
        bounded (heap m)
          (fun r => d r + (if under r (t_hooks t) then 1 else 0)
                    + owing_bg false r (background m))%nat
          (fun r => d' r + (if under r (t_hooks t) && t_only t then 1 else 0)
                    + owing_bg true r (background m))%nat ->
        bounded (heap (fst (run_timeout t m)))
          (fun r => d r + owing_bg false r (background (fst (run_timeout t m))))%nat
          (fun r => d' r + owing_bg true r (background (fst (run_timeout t m))))%nat).
Proof.
  unfold run_timeout. destruct (setup (heap m) (t_hooks t)) as [l [v|]].
  - simpl. split; [apply same_quota_refl|]. split; [done|].
    intros d d' _ _ Hb.
    eapply bounded_weaken; [| |exact Hb]; intros r; simpl; lia.
  - set (m1 := add_log _ m).
    destruct (timer_delay (t_timeout t) <=? fn_elapsed (t_fn t)).
    + destruct (advance_spec (now m + timer_delay (t_timeout t)) m1)
        as (Hq & HP & Hb).
      simpl. split; [done|].
      split; [intros Q Hq1 HF; apply Forall_enqueue; [done|by apply HP]|].
      intros d d' Hnd HF Hbd.
      specialize (Hb (fun r => d r + (if under r (t_hooks t) then 1 else 0))%nat
                    (fun r => d' r + (if under r (t_hooks t) && t_only t
                                      then 1 else 0))%nat HF Hbd).
      eapply bounded_weaken; [| |exact Hb]; intros r; cbn beta;
        rewrite owing_bg_enqueue, owing_bg_cons; simpl;
        rewrite ?andb_true_r; lia.
    + destruct (advance_spec (now m + Z.max 0 (fn_elapsed (t_fn t))) m1)
        as (Hq & HP & Hb).
      set (m2 := advance _ m1) in *.
      pose proof (finish_heap (t_hooks t) (t_only t) (fn_settle (t_fn t))
                    (heap m2)) as Hh.
      destruct (finish _ _ _ (heap m2)) as [[h' l'] e]. simpl in Hh. subst h'.
      simpl.
      split; [eapply same_quota_trans; [exact Hq|apply same_quota_update]|].
      split; [intros Q _ HF; by apply HP|].
      intros d d' Hnd HF Hbd.
      specialize (Hb (fun r => d r + (if under r (t_hooks t) then 1 else 0))%nat
                    (fun r => d' r + (if under r (t_hooks t) && t_only t
                                      then 1 else 0))%nat HF Hbd).
      apply bounded_finish; [done|].
      eapply bounded_weaken; [| |exact Hb]; intros r; cbn beta; lia.
Qed.

Lemma run_one_spec t st m :
  same_quota (heap m) (heap (snd (run_one t st m)))
  /\ (forall Q : list ref -> Prop,
        Q (t_hooks t) ->
        Forall (fun p => Q (p_hooks p)) (background m) ->
        Forall (fun p => Q (p_hooks p)) (background (snd (run_one t st m))))
  /\ (forall d d',
        NoDup (t_hooks t) ->
        Forall (fun p => NoDup (p_hooks p)) (background m) ->
        bounded (heap m)
          (fun r => d r
                    + (if negb (t_ignore t) && under r (t_hooks t)
                       then 1 else 0)
                    + owing_bg false r (background m))%nat
          (fun r => d' r
                    + (if negb (t_ignore t) && under r (t_hooks t) && t_only t
                       then 1 else 0)
                    + owing_bg true r (background m))%nat ->
        bounded (heap (snd (run_one t st m)))
          (fun r => d r + owing_bg false r (background (snd (run_one t st m))))%nat
          (fun r => d' r + owing_bg true r (background (snd (run_one t st m))))%nat).
Proof.
  unfold run_one. destruct (t_ignore t); simpl.
  - split; [apply same_quota_refl|]. split; [done|].
    intros d d' _ _ Hb.
    eapply bounded_weaken; [| |exact Hb]; intros r; cbn beta; lia.
  - pose proof (run_timeout_spec t m) as H.
    destruct (run_timeout t m) as [m1 [err|]]; exact H.
Qed.

Lemma sound_new n opts : sound (new_Suite n opts empty_machine) [].
Proof.
  split; [|split; [constructor|split; [constructor|]]].
  - split; [apply NoDup_singleton|].
    intros r ->%list_elem_of_singleton. simpl. lia.
  - intros [|r] c; simpl; [|done]. intros [= <-]. simpl. done.
Qed.

Lemma owing_true_le_marked r tests : (owing true r tests <= marked r tests)%nat.
Proof.
  induction tests as [|t tests IH]; [done|].
  rewrite owing_cons. change (t :: tests) with ([t] ++ tests).
  rewrite marked_app. unfold marked at 1; simpl.
  destruct (t_ignore t), (under r (t_hooks t)), (t_only t); simpl; lia.
Qed.

Lemma sound_reg st st' todo :
  sound st todo -> reg_step st st' -> sound st' (todo ++ added st st').
Proof.
  intros (Hs & Ht & Hbg & Hb) Hstep.
  destruct (reg_step_effect _ _ Hstep Hs)
    as (_ & Hbg' & _ & _ & Hadd & Hs' & Hle & Hheap).
  split; [done|]. split; [|split].
  - apply Forall_app.
    split; (eapply Forall_impl; [eassumption|]);
      intros t; by apply valid_hooks_mono.
  - rewrite Hbg'. eapply Forall_impl; [exact Hbg|].
    intros p; by apply valid_hooks_mono.
  - rewrite Hbg'. intros r c' Hc'. rewrite !owing_app.
    destruct (Hheap r c' Hc')
      as [(c & Hc & H1 & H2 & H3 & H4)|(Hn & H1 & H2 & H3 & H4)].
    + destruct (Hb r c Hc) as [Hb1 Hb2].
      pose proof (owing_true_le_marked r (added st st')). lia.
    + apply lookup_ge_None in Hn.
      rewrite !owing_outside by by eapply valid_hooks_outside.
      rewrite !owing_bg_outside; [lia| |].
      all: eapply Forall_impl; [exact Hbg|];
        intros p [_ Hlt] Hr; specialize (Hlt r Hr); lia.
Qed.

Lemma sound_reset st st' todo :
  sound st todo -> reset st = Ok tt st' -> sound st' [].
Proof.
  destruct st as [s m]. intros (Hs & Ht & Hbg & Hb) [= <-]. simpl in *.
  split; [|split; [constructor|split]]; simpl.
  - split; [apply NoDup_singleton|].
    intros r ->%list_elem_of_singleton. rewrite length_app; simpl. lia.
  - eapply Forall_impl; [exact Hbg|]. intros p.
    apply valid_hooks_mono. rewrite length_app; simpl; lia.
  - intros r c Hc. change (owing false r []) with 0%nat.
    change (owing true r []) with 0%nat.
    destruct (heap m !! r) as [c0|] eqn:Hc0.
    + rewrite (lookup_app_l_Some _ _ _ _ Hc0) in Hc. injection Hc as <-.
      destruct (Hb r c0 Hc0). lia.
    + apply lookup_ge_None in Hc0. rewrite lookup_app_r in Hc by done.
      rewrite !owing_bg_outside.
      * destruct (r - length (heap m))%nat; simplify_eq/=. lia.
      * eapply Forall_impl; [exact Hbg|].
        intros p [_ Hlt] Hr; specialize (Hlt r Hr); lia.
      * eapply Forall_impl; [exact Hbg|].
        intros p [_ Hlt] Hr; specialize (Hlt r Hr); lia.
Qed.

Lemma sound_exec s m t l1 l2 stats :
  sound (s, m) (l1 ++ t :: l2) ->
  sound (s, snd (run_one t stats m)) (l1 ++ l2).
Proof.
  intros (Hs & Ht & Hbg & Hb). simpl in *.
  destruct (run_one_spec t stats m) as ([Hlen Hq] & HP & Hbd).
  apply Forall_app in Ht as [Ht1 Ht2]. apply Forall_cons in Ht2 as [Htt Ht2].
  split; [|split; [|split]]; simpl; rewrite ?Hlen.
  - done.
  - by apply Forall_app.
  - by apply (HP (valid_hooks (length (heap m)))).
  - apply (Hbd (fun r => owing false r (l1 ++ l2))
             (fun r => owing true r (l1 ++ l2))).
    + by destruct Htt.
    + eapply Forall_impl; [exact Hbg|]. by intros p [? _].
    + eapply bounded_weaken; [| |exact Hb]; intros r; cbn beta;
        rewrite !owing_app, owing_cons; simpl; rewrite ?andb_true_r; lia.
Qed.

Lemma sound_tick s m t todo :
  sound (s, m) todo -> sound (s, advance t m) todo.
Proof.
  intros (Hs & Ht & Hbg & Hb). simpl in *.
  destruct (advance_spec t m) as ([Hlen Hq] & HP & Hbd).
  split; [|split; [|split]]; simpl; rewrite ?Hlen; try done.
  - by apply HP.
  - apply (Hbd (fun r => owing false r todo) (fun r => owing true r todo));
      [|done].
    eapply Forall_impl; [exact Hbg|]. by intros p [? _].
Qed.

Lemma reach_sound ok st todo : reach ok st todo -> sound st todo.
Proof.
  induction 1 as [n opts|st st' todo _ IH Hstep _|st st' todo _ IH Hr
                  |s m t l1 l2 stats _ IH|s m t todo _ IH _].
  - apply sound_new.
  - by apply sound_reg.
  - by eapply sound_reset.
  - by apply sound_exec.
  - by apply sound_tick.
Qed.

Lemma capped_same_quota h h' : same_quota h h' -> capped h -> capped h'.
Proof.
  intros [_ Hq] Hc r c' Hc'. destruct (Hq r c' Hc') as (c & Hcr & -> & ->).
  by apply (Hc r).
Qed.

Lemma marked_le_owing r tests :
  Forall not_ignored_only tests -> (marked r tests <= owing false r tests)%nat.
Proof.
  induction 1 as [|t tests Ht _ IH]; [done|].
  rewrite owing_cons. change (t :: tests) with ([t] ++ tests).
  rewrite marked_app. unfold marked at 1; simpl.
  unfold not_ignored_only in Ht.
  destruct (t_ignore t), (under r (t_hooks t)), (t_only t); simpl in *;
    try done; lia.
Qed.

Lemma reach_capped ok st todo :
  (forall t, ok t -> not_ignored_only t) ->
  reach ok st todo -> capped (heap (snd st)).
Proof.
  intros Hok.
  induction 1 as [n opts|st st' todo Hreach IH Hstep Hadd|st st' todo _ IH Hr
                  |s m t l1 l2 stats _ IH|s m t todo _ IH _].
  - intros [|r] c; simpl; [|done]. by intros [= <-].
  - destruct (reach_sound _ _ _ Hreach) as (Hs & _).
    destruct (reg_step_effect _ _ Hstep Hs)
      as (_ & _ & _ & _ & _ & _ & _ & Hheap).
    intros r c' Hc'.
    destruct (Hheap r c' Hc')
      as [(c & Hc & H1 & H2 & H3 & H4)|(Hn & H1 & H2 & H3 & H4)]; [|lia].
    specialize (IH r c Hc).
    assert (Forall not_ignored_only (added st st')) as Hnio.
    { eapply Forall_impl; [exact Hadd|]. exact Hok. }
    pose proof (marked_le_owing r _ Hnio). lia.
  - destruct st as [s m]. injection Hr as <-. simpl in *.
    intros r c Hc. destruct (heap m !! r) as [c0|] eqn:Hc0.
    + rewrite (lookup_app_l_Some _ _ _ _ Hc0) in Hc. injection Hc as <-.
      by apply (IH r).
    + apply lookup_ge_None in Hc0. rewrite lookup_app_r in Hc by done.
      destruct (r - length (heap m))%nat; simplify_eq/=. lia.
  - simpl in *. eapply capped_same_quota; [|exact IH].
    apply run_one_spec.
  - simpl in *. eapply capped_same_quota; [|exact IH].
    apply advance_spec.
Qed.

(** C5, as the code has it.  In every state reached by registrations,
    resets, executions of registered tests in which no test is executed
    twice, and the passing of time, every frame has [completed <= waiting]
    and [completedOnly <= only]; and when no registered test is both
    ignored and marked only, every frame has [only <= waiting] as well. *)
Theorem counters_invariant ok st todo r c :
  reach ok st todo ->
  heap (snd st) !! r = Some c ->
  (completed c <= waiting c)%nat
  /\ (completedOnly c <= only c)%nat
  /\ ((forall t, ok t -> not_ignored_only t) -> (only c <= waiting c)%nat).
Proof.
  intros Hreach Hc.
  destruct (reach_sound _ _ _ Hreach) as (_ & _ & _ & Hb).
  destruct (Hb r c Hc) as [H1 H2].
  split; [lia|]. split; [lia|].
  intros Hok. by apply (reach_capped ok st todo Hok Hreach r).
Qed.

Lemma single_suite_done_reach : reach not_ignored_only single_suite_done [].
Proof.
  apply (reach_exec not_ignored_only (fst single_suite) (snd single_suite)
           single_test [] [] (mkStats 0 0 0 0)).
  apply (reach_reg not_ignored_only (new_Suite "s" quiet empty_machine)
           single_suite []).
  - apply reach_new.
  - by apply (step_test (mkTest (Some (passing "t")) "t" None None None)).
  - by repeat constructor.
Defined.

Lemma counters_invariant_witness :
  reach not_ignored_only single_suite_done []
  /\ heap (snd single_suite_done) !! 0%nat
     = Some (mkStackItem [] [] [] [] 1 1 0 0 "s")
  /\ (1 <= 1)%nat /\ (0 <= 0)%nat.
Proof.
  split; [exact single_suite_done_reach|]. split; [reflexivity|].
  destruct (counters_invariant not_ignored_only single_suite_done [] 0%nat
              (mkStackItem [] [] [] [] 1 1 0 0 "s")
              single_suite_done_reach eq_refl) as (H1 & H2 & _).
  split; [exact H1|exact H2].
Defined.

(** C5, a failing instance.  Registering a test that is both ignored and
    marked only leaves the root frame with [only = 1] and [waiting = 0]:
    the state is reachable and violates [only <= waiting]. *)
Lemma ignored_only_test_exceeds_waiting :
  ~ (forall st todo r c,
       reach (fun _ => True) st todo ->
       heap (snd st) !! r = Some c ->
       (completed c <= waiting c)%nat
       /\ (completedOnly c <= only c)%nat
       /\ (only c <= waiting c)%nat).
Proof.
  intros H.
  assert (Hreach : reach (fun _ => True) ignored_only_suite
                     ([] ++ added (new_Suite "s" quiet empty_machine)
                                ignored_only_suite)).
  { apply reach_reg.
    - apply reach_new.
    - by apply (step_test (mkTest (Some (passing "t")) "t" (Some true)
                             (Some true) None)).
    - by repeat constructor. }
  destruct (H _ _ 0%nat (mkStackItem [] [] [] [] 0 0 1 0 "s") Hreach eq_refl)
    as (_ & _ & Hle).
  simpl in Hle. lia.
Qed.

(** ** Hook lists only grow *)






(** ** Scripts register step by step *)

Lemma declare_all_steps ds :
  Forall (fun d => forall st st',
            stack (fst st) <> [] -> declare d st = Ok tt st' ->
            rtc reg_step st st' /\ stack (fst st') = stack (fst st)) ds ->
  forall st st',
    stack (fst st) <> [] -> declare_all ds st = Ok tt st' ->
    rtc reg_step st st' /\ stack (fst st') = stack (fst st).
Proof.
  induction 1 as [|d ds Hd _ IH]; intros st st' Hne Hrun.
  - injection Hrun as <-. split; [apply rtc_refl|done].
  - cbn [declare_all foldr] in Hrun. unfold mbind, M_bind in Hrun.
    destruct (declare d st) as [[] st1|] eqn:E; [|done].
    destruct (Hd st st1 Hne E) as [Hs1 He1].
    destruct (IH st1 st') as [Hs2 He2]; [congruence|exact Hrun|].
    split; [by etrans|congruence].
Qed.

(** A script takes the suite through registration steps, and leaves the
    stack as it found it. *)
Lemma declare_steps d : forall st st',
  stack (fst st) <> [] -> declare d st = Ok tt st' ->
  rtc reg_step st st' /\ stack (fst st') = stack (fst st).
Proof.
  induction d as [t|p f|n body IH] using decl_nested_ind; intros st st' Hne Hrun.
  - simpl in Hrun. split; [by apply rtc_once, (step_test t)|].
    destruct st as [s m]. by apply test_inv in Hrun as (f & n & ->).
  - simpl in Hrun. split; [by apply rtc_once, (step_hook p f)|].
    destruct st as [s m]. unfold add_hook in Hrun.
    destruct (top s); [|done]. by injection Hrun as <-.
  - cbn [declare] in Hrun.
    change (foldr _ _ body) with (declare_all body) in Hrun.
    unfold group, mbind, M_bind in Hrun.
    destruct st as [s m]. cbn [push_frame] in Hrun.
    set (st1 := (set_stack (stack s ++ [length (heap m)]) s,
                 set_heap (heap m ++ [newContext n]) m)) in *.
    destruct (declare_all body st1) as [[] st2|] eqn:E; [|done].
    destruct (declare_all_steps body IH st1 st2) as [Hs He].
    { simpl. by destruct (stack s). }
    { exact E. }
    destruct st2 as [s2 m2]. injection Hrun as <-. simpl in *.
    split.
    + eapply rtc_l; [by apply (step_enter n)|].
      etrans; [exact Hs|]. apply rtc_once, step_leave; [|done].
      simpl. rewrite He, length_app; simpl.
      destruct (stack s); [done|simpl; lia].
    + rewrite He. apply removelast_last.
Qed.

(** The states the scripts of a fresh suite produce are registered
    states. *)
Lemma declare_registered n opts ds st :
  declare_all ds (new_Suite n opts empty_machine) = Ok tt st ->
  registered st.
Proof.
  intros Hrun. exists n, opts.
  eapply declare_all_steps; [|done|exact Hrun].
  apply Forall_forall. intros d _. apply declare_steps.
Qed.

(** ** Hooks that run once *)

Lemma once_inv_skip k h0 h l t rest :
  t_ignore t = true -> once_inv k h0 h l (t :: rest) -> once_inv k h0 h l rest.
Proof.
  intros Hi Hinv r c0 Hc0.
  destruct (Hinv r c0 Hc0) as (c & Hc & Hsame & Hw & Ho & Hsum & HBA & HAA).
  exists c. do 4 (split; [done|]). split; [|done].
  rewrite owing_cons, Hi in Hsum. exact Hsum.
Qed.

Lemma once_inv_drop k h0 h l rest :
  once_inv k h0 h l rest ->
  once_inv (fun r => k r + owing false r rest)%nat h0 h l [].
Proof.
  intros Hinv r c0 Hc0.
  destruct (Hinv r c0 Hc0) as (c & Hc & Hsame & Hw & Ho & Hsum & HBA & HAA).
  exists c. do 4 (split; [done|]). split; [|done].
  change (owing false r []) with 0%nat. lia.
Qed.

Lemma once_inv_step k h0 h l t rest :
  t_ignore t = false -> t_only t = false -> NoDup (t_hooks t) ->
  once_inv k h0 h l (t :: rest) ->
  once_inv k h0
    (update_all (incr_completed (t_only t)) (t_hooks t) h)
    (l ++ setup_log h (t_hooks t)
       ++ LBody (fn_label (t_fn t))
          :: teardown_log (update_all (incr_completed (t_only t)) (t_hooks t) h)
               (rev (t_hooks t)))
    rest.
Proof.
  intros Hi Hon Hnd Hinv r c0 Hc0.
  destruct (Hinv r c0 Hc0) as (c & Hc & Hsame & Hw & Ho & Hsum & HBA & HAA).
  destruct Hsame as (Hs1 & Hs2 & Hs3 & Hs4).
  assert (Hc' : update_all (incr_completed (t_only t)) (t_hooks t) h !! r
                = Some (if under r (t_hooks t)
                        then incr_completed (t_only t) c else c)).
  { rewrite update_all_lookup, Hc by done. by destruct (under r (t_hooks t)). }
  assert (Hsum' : (completed c
                   + ((if under r (t_hooks t) then 1 else 0)
                      + owing false r rest) + k r = waiting c)%nat).
  { rewrite <- Hsum, owing_cons, Hi; simpl.
    destruct (under r (t_hooks t)); simpl; lia. }
  eexists. split; [exact Hc'|].
  assert (Hocc : forall e p, site e = Some (p, r) ->
            occurrences e
              (l ++ setup_log h (t_hooks t)
                 ++ LBody (fn_label (t_fn t))
                    :: teardown_log
                         (update_all (incr_completed (t_only t)) (t_hooks t) h)
                         (rev (t_hooks t)))
            = (occurrences e l
               + occurrences e (setup_log h (t_hooks t))
               + occurrences e
                   (teardown_log
                      (update_all (incr_completed (t_only t)) (t_hooks t) h)
                      (rev (t_hooks t))))%nat).
  { intros e p He. rewrite !occurrences_app, occurrences_cons.
    rewrite bool_decide_eq_false_2; [lia|]. intros <-. done. }
  rewrite Hon in *.
  destruct (under r (t_hooks t)) eqn:Hu; simpl.
  - repeat split; try done; try lia.
    + intros e He. rewrite (Hocc e _ He), (HBA e He).
      rewrite (occurrences_setup_log e BeforeAll r h _ c He Hnd Hc).
      rewrite (occurrences_teardown_log e BeforeAll r _ _ _ He
                 (NoDup_rev _ Hnd) Hc').
      rewrite Hu, Hs1; simpl. destruct (completed c =? 0)%nat; lia.
    + intros e He. rewrite (Hocc e _ He), (HAA e He).
      rewrite (occurrences_setup_log e AfterAll r h _ c He Hnd Hc).
      rewrite (occurrences_teardown_log e AfterAll r _ _ _ He
                 (NoDup_rev _ Hnd) Hc').
      rewrite under_rev, Hu. unfold afterAll_due; simpl. rewrite Hs4, Ho; simpl.
      rewrite orb_false_r.
      destruct (completed c =? waiting c)%nat eqn:E1;
        [apply Nat.eqb_eq in E1; lia|].
      rewrite andb_false_r. rewrite Nat.eqb_sym. simpl.
      destruct (S (completed c) =? waiting c)%nat; lia.
  - repeat split; try done; try lia.
    + intros e He. rewrite (Hocc e _ He), (HBA e He).
      rewrite (occurrences_setup_log e BeforeAll r h _ c He Hnd Hc).
      rewrite (occurrences_teardown_log e BeforeAll r _ _ _ He
                 (NoDup_rev _ Hnd) Hc').
      rewrite Hu; simpl. lia.
    + intros e He. rewrite (Hocc e _ He), (HAA e He).
      rewrite (occurrences_setup_log e AfterAll r h _ c He Hnd Hc).
      rewrite (occurrences_teardown_log e AfterAll r _ _ _ He
                 (NoDup_rev _ Hnd) Hc').
      rewrite under_rev, Hu; simpl. lia.
Qed.

(** The invariant at the end of the loop of the generator: the tests the
    loop did not reach count as left out. *)
Lemma once_inv_outcomes k h0 ff tests : forall st m,
  calm (heap m) -> background m = [] ->
  Forall (fun t => t_only t = false /\ in_time t /\ NoDup (t_hooks t)) tests ->
  once_inv k h0 (heap m) (log m) tests ->
  exists dropped,
    tests = map fst (fst (fst (outcomes ff tests st m))) ++ dropped
    /\ once_inv (fun r => k r + owing false r dropped)%nat h0
         (heap (snd (outcomes ff tests st m)))
         (log (snd (outcomes ff tests st m))) [].
Proof.
  induction tests as [|t rest IH]; intros st m Hcalm Hbg Hall Hinv.
  { exists []. split; [done|]. by apply once_inv_drop. }
  apply Forall_cons in Hall as [(Hon & Hin & Hnd) Hall].
  cbn [outcomes]. unfold run_one.
  destruct (t_ignore t) eqn:Hi.
  - unfold carries_error; cbn [te_error]. rewrite andb_false_r.
    destruct (IH (mkStats (s_filtered st) (s_ignored st + 1) (s_passed st)
                    (s_failed st)) m Hcalm Hbg Hall
                (once_inv_skip _ _ _ _ _ _ Hi Hinv)) as (dropped & Heq & Hd).
    destruct (outcomes ff rest _ m) as [[l2 st2] m2].
    exists dropped. simpl in *. split; [by f_equal|done].
  - rewrite run_timeout_calm by done.
    pose proof (once_inv_step _ _ _ _ _ _ Hi Hon Hnd Hinv) as Hstep.
    set (m1 := mkMachine _ _ _ _) in *.
    assert (Hcalm1 : calm (heap m1)) by by apply update_all_calm.
    destruct (rethrow (caught (fn_settle (t_fn t)))) as [err|].
    + destruct (ff && carries_error _).
      * exists rest. split; [done|]. by apply once_inv_drop.
      * destruct (IH (mkStats (s_filtered st) (s_ignored st) (s_passed st)
                        (s_failed st + 1)) m1 Hcalm1 eq_refl Hall Hstep)
          as (dropped & Heq & Hd).
        destruct (outcomes ff rest _ m1) as [[l2 st2] m2].
        exists dropped. simpl in *. split; [by f_equal|done].
    + unfold carries_error; cbn [te_error]. rewrite andb_false_r.
      destruct (IH (mkStats (s_filtered st) (s_ignored st) (s_passed st + 1)
                      (s_failed st)) m1 Hcalm1 eq_refl Hall Hstep)
        as (dropped & Heq & Hd).
      destruct (outcomes ff rest _ m1) as [[l2 st2] m2].
      exists dropped. simpl in *. split; [by f_equal|done].
Qed.

Lemma outcomes_no_fail_fast tests : forall st m,
  map fst (fst (fst (outcomes false tests st m))) = tests.
Proof.
  induction tests as [|t rest IH]; intros st m; cbn [outcomes]; [done|].
  destruct (run_one t st m) as [[e st1] m1]. cbn [andb].
  specialize (IH st1 m1).
  destruct (outcomes false rest st1 m1) as [[l st2] m2]. simpl in *.
  by f_equal.
Qed.

Lemma owing_filter_le b r f tests :
  (owing b r (List.filter f tests) <= owing b r tests)%nat.
Proof.
  induction tests as [|t tests IH]; simpl; [done|].
  destruct (f t); rewrite !owing_cons; lia.
Qed.

Lemma marked_none r tests :
  Forall (fun t => t_only t = false) tests -> marked r tests = 0%nat.
Proof.
  intros H. unfold marked. rewrite filter_none; [done|].
  eapply Forall_impl; [exact H|]. by intros t ->.
Qed.

Lemma Forall_filter_weaken {A} (P : A -> Prop) f (l : list A) :
  Forall P l -> Forall P (List.filter f l).
Proof.
  intros H. apply Forall_forall. intros x Hx.
  apply list_elem_of_In, filter_In in Hx as [Hx _].
  rewrite Forall_forall in H. by apply H, list_elem_of_In.
Qed.

(** The [beforeAll] and [afterAll] hooks in a run without tests marked
    only.  A suite is set up by registration alone and then run for the
    first time, with no test marked only, no hook throwing and every test
    function settling before its timer is due; the filter and fail-fast are
    arbitrary.  For every frame, at whatever depth, let [ran] be the number
    of tests registered under it that are not ignored and that the
    generator iterates.  The log of the run holds exactly one [callAll] of
    the frame's [beforeAll] list if [ran] is positive, and none otherwise;
    it holds exactly one [callAll] of its [afterAll] list if [ran] is
    positive and equal to the waiting counter of the frame, and none
    otherwise; and the entries of each call site are those of that many
    [callAll]s of the respective list.  When the filter passes every test
    and fail-fast is off, [ran] is the waiting counter. *)
Theorem hooks_run_once st filterFn ff r c :
  registered st ->
  calm (heap (snd st)) ->
  Forall (fun t => t_only t = false /\ in_time t) (registry (fst st)) ->
  heap (snd st) !! r = Some c ->
  let rn := new_TestRunner (registry (fst st)) filterFn ff in
  let m' := fst (iterate drain rn (snd st) []) in
  let ran := owing false r (iterated rn (snd st)) in
  occurrences (LCallAll BeforeAll r) (log m')
  = (if Nat.ltb 0 ran then 1 else 0)%nat
  /\ occurrences (LCallAll AfterAll r) (log m')
     = (if Nat.ltb 0 ran && Nat.eqb ran (waiting c) then 1 else 0)%nat
  /\ (forall e, site e = Some (BeforeAll, r) ->
        occurrences e (log m')
        = if Nat.ltb 0 ran
          then occurrences e (callAll_log BeforeAll r (beforeAll c))
          else 0%nat)
  /\ (forall e, site e = Some (AfterAll, r) ->
        occurrences e (log m')
        = if Nat.ltb 0 ran && Nat.eqb ran (waiting c)
          then occurrences e (callAll_log AfterAll r (afterAll c))
          else 0%nat)
  /\ (ff = false /\ Forall (fun t => filterFn t = true) (registry (fst st)) ->
      ran = waiting c).
Proof.
  intros Hreg Hcalm Hall Hc rn m' ran.
  destruct (registered_inv _ Hreg) as [[_ Hhooks] (Hlog & Hbg & Hfresh)].
  assert (Honly : Forall (fun t => t_only t = false) (registry (fst st))).
  { eapply Forall_impl; [exact Hall|]. by intros t (? & _). }
  assert (Hrun : testsToRun rn = List.filter filterFn (registry (fst st))).
  { unfold rn, new_TestRunner; simpl. by rewrite (filter_none t_only). }
  set (k := fun r' => (owing false r' (registry (fst st))
                       - owing false r' (testsToRun rn))%nat).
  assert (Hinit : once_inv k (heap (snd st)) (heap (snd st)) (log (snd st))
                    (testsToRun rn)).
  { intros r' c' Hc'. destruct (Hfresh r' c' Hc') as (H1 & H2 & H3 & H4).
    exists c'. split; [done|]. split; [done|]. split; [done|].
    split; [by rewrite H4, marked_none|]. split.
    - unfold k. rewrite Hrun.
      pose proof (owing_filter_le false r' filterFn (registry (fst st))). lia.
    - rewrite Hlog, H1. split; intros e _; done. }
  assert (Htests : Forall (fun t => t_only t = false /\ in_time t
                                    /\ NoDup (t_hooks t)) (testsToRun rn)).
  { rewrite Hrun. apply Forall_filter_weaken.
    apply Forall_forall. intros t Ht.
    rewrite Forall_forall in Hall, Hhooks.
    destruct (Hall t Ht) as (? & ?). destruct (Hhooks t Ht) as [? _]. done. }
  destruct (once_inv_outcomes k (heap (snd st)) (failFast rn) (testsToRun rn)
              (stats rn) (snd st) Hcalm Hbg Htests Hinit)
    as (dropped & Hsplit & Hend).
  fold (iterated rn (snd st)) in Hsplit.
  unfold m'. rewrite iterate_drain_machine.
  destruct (Hend r c Hc) as (c1 & _ & _ & Hw1 & _ & Hsum & HBA & HAA).
  destruct (Hfresh r c Hc) as (_ & _ & Hwait & _).
  change (owing false r []) with 0%nat in Hsum.
  assert (Hran : completed c1 = ran).
  { assert (Ho : owing false r (testsToRun rn)
                 = (ran + owing false r dropped)%nat).
    { rewrite Hsplit at 1. by rewrite owing_app. }
    assert (Hle : (owing false r (testsToRun rn)
                   <= owing false r (registry (fst st)))%nat).
    { rewrite Hrun. apply owing_filter_le. }
    unfold k in Hsum. cbn beta in Hsum. lia. }
  rewrite Hran in HBA. rewrite Hran, Hw1 in HAA.
  assert (E : (ran =? 0)%nat = negb (0 <? ran)%nat).
  { destruct ran; done. }
  rewrite E in HBA.
  split; [|split; [|split; [|split]]].
  - rewrite HBA by done. destruct (0 <? ran)%nat; simpl; [|done].
    apply occurrences_marker.
  - rewrite HAA by done.
    destruct ((0 <? ran)%nat && (ran =? waiting c)%nat); [|done].
    apply occurrences_marker.
  - intros e He. rewrite (HBA e He). by destruct (0 <? ran)%nat.
  - done.
  - intros [Hff Hpass]. unfold ran, iterated.
    replace (failFast rn) with false by (by unfold rn; simpl).
    rewrite outcomes_no_fail_fast, Hrun, (filter_all filterFn) by done.
    by rewrite Hwait.
Qed.

Lemma hooks_run_once_witness :
  registered group_suite
  /\ calm (heap (snd group_suite))
  /\ occurrences (LCallAll BeforeAll 1)
       (log (fst (iterate drain
                    (new_TestRunner (registry (fst group_suite))
                       (fun _ => true) false)
                    (snd group_suite) []))) = 1%nat
  /\ occurrences (LCallAll AfterAll 1)
       (log (fst (iterate drain
                    (new_TestRunner (registry (fst group_suite))
                       (fun _ => true) false)
                    (snd group_suite) []))) = 1%nat.
Proof.
  assert (Hcalm : calm (heap (snd group_suite))) by repeat constructor.
  assert (Hall : Forall (fun t => t_only t = false /\ in_time t)
                   (registry (fst group_suite))).
  { repeat constructor; unfold in_time; simpl; vm_compute; reflexivity. }
  split; [exact group_suite_registered|]. split; [exact Hcalm|].
  destruct (hooks_run_once group_suite (fun _ => true) false 1%nat
              (mkStackItem [HookFn "ba" Fulfils] [] [] [HookFn "aa" Fulfils]
                 2 0 0 0 "g")
              group_suite_registered Hcalm Hall eq_refl) as (H1 & H2 & _).
  split; [exact H1|exact H2].
Defined.

(** C4.  No test is marked only, and a skip option excludes one of the two
    tests of a group, so that the filter does not exclude all of the tests
    of the group.  The [beforeAll] hook of the group runs once, but its
    [afterAll] hook does not run once: it never runs, not even after the
    last test of the group that the run executes, because the waiting
    counter of the frame counts the excluded test and the completion
    counter never reaches it. *)
Lemma filtered_group_afterAll_never_runs :
  let '(r, _, st) :=
    run literal_test
      (mkOptions None None None None None (Some (PString "skip")))
      skipping_suite in
  r = Resolved (mkSuiteEnd false 0
                  [mkTestEnd "s > g > alpha" 0 (Some passed_) None]
                  1 0 1 0 None)
  /\ (waiting <$> heap (snd st) !! 1%nat) = Some 2%nat
  /\ (completed <$> heap (snd st) !! 1%nat) = Some 1%nat
  /\ occurrences (LCallAll BeforeAll 1) (log (snd st)) = 1%nat
  /\ ~ (occurrences (LCallAll AfterAll 1) (log (snd st)) = 1%nat)
  /\ occurrences (LHook AfterAll 1 "aa") (log (snd st)) = 0%nat.
Proof.
  vm_compute. repeat split; try reflexivity. intros H; inversion H.
Qed.

(** ** Running twice *)

Lemma reg_step_cache st st' :
  reg_step st st' -> cache (fst st') = cache (fst st).
Proof.
  destruct st as [s m].
  inversion 1 as [t ? ? Ht|p f ? ? Hh|n ? ? Hp|? ? Hlen Hp]; subst.
  - by apply test_inv in Ht as (f & n & ->).
  - unfold add_hook in Hh. destruct (top s); [|done]. by injection Hh as <-.
  - by injection Hp as <-.
  - by injection Hp as <-.
Qed.

(** [run] leaves the [pending] property of the cache as it finds it, or
    replaces the cache by a fresh one. *)
Lemma run_keeps_pending re opts s m :
  pending (cache s) = true ->
  pending (cache (fst (snd (run re opts (s, m))))) = true.
Proof.
  intros Hp. unfold run. rewrite Hp; simpl.
  destruct (iterate _ _ _ _) as [m1 a].
  destruct (match (if timedOut a then _ else _) with Some _ => _ | None => _ end);
    [done|].
  destruct (default false _); done.
Qed.

(** In every reachable state the [pending] property of the cache is still
    [true], so that the guard of [run] does not fire, and [run] leaves it
    so. *)
Lemma pending_stays_true ok st todo re opts :
  reach ok st todo ->
  pending (cache (fst st)) = true
  /\ pending (cache (fst (snd (run re opts st)))) = true.
Proof.
  intros Hreach.
  assert (Hp : pending (cache (fst st)) = true).
  { induction Hreach as [n o|st st' todo _ IH Hstep _|st st' todo _ IH Hr
                         |s m t l1 l2 stats _ IH|s m t todo _ IH _];
      try done.
    - by rewrite (reg_step_cache _ _ Hstep).
    - destruct st as [s m]. by injection Hr as <-. }
  split; [done|]. destruct st as [s m]. by apply run_keeps_pending.
Qed.

(** C1. A suite with one passing test is run twice without a reset.  The
    second call does not return the cached result: it runs the test's
    function again, it emits the events of a run again, it pushes the
    completion counter of the root frame past its waiting counter, and, when
    called with other options, it returns another result than the first
    call.  The promise behind [end] keeps the first result. *)
Theorem second_run_runs_the_tests_again :
  let '(r1, _, st1) := run literal_test no_options once_suite in
  let '(r2, ev2, st2) := run literal_test no_options st1 in
  let '(r3, _, st3) :=
    run literal_test (mkOptions None None None None None
                        (Some (PString "t"))) st1 in
  pending (cache (fst st1)) = true
  /\ occurrences (LBody "t") (log (snd st1)) = 1%nat
  /\ occurrences (LBody "t") (log (snd st2)) = 2%nat
  /\ length ev2 = 4%nat
  /\ (completed <$> heap (snd st2) !! 0%nat) = Some 2%nat
  /\ (waiting <$> heap (snd st2) !! 0%nat) = Some 1%nat
  /\ r1 = Resolved (mkSuiteEnd false 0
                      [mkTestEnd "s > t" 0 (Some passed_) None] 0 0 1 0 None)
  /\ r3 = Resolved (mkSuiteEnd false 0 [] 1 0 0 0 None)
  /\ (settled <$> promises (fst st3) !! end_ (fst st3))
     = Some (Some (mkSuiteEnd false 0
                     [mkTestEnd "s > t" 0 (Some passed_) None] 0 0 1 0 None)).
Proof. vm_compute. repeat split; reflexivity. Qed.

(** ** [run] without a suite timer *)

Lemma loop_on_message ff tests : forall st res m a,
  timedOut a = false ->
  loop (on_message None) ff tests st res m a =
  let '(l, st', m') := outcomes ff tests st m in
  (st', res ++ map snd l, m',
   mkDrained (endMsg a) false (delivered a ++ test_events l), true).
Proof.
  induction tests as [|t rest IH]; intros st res m a Ha; simpl.
  - rewrite !app_nil_r. destruct a; simpl in *. by subst.
  - destruct (run_one t st m) as [[e st1] m1]; simpl.
    destruct (ff && carries_error e); simpl.
    + by rewrite <- app_assoc.
    + rewrite IH by done.
      destruct (outcomes ff rest st1 m1) as [[l st2] m2]; simpl.
      by rewrite <- !app_assoc.
Qed.

(** When no suite timer is set, [run] delivers the whole stream of the
    runner to the reporters and ends with the end event of the stream:
    it returns that event's result, or exits. *)
Lemma run_without_suite_timer re opts s m :
  let o := merge (options s) opts in
  let rn := new_TestRunner (registry s)
              (createFilterFn re (o_filter o) (o_skip o))
              (default false (o_failFast o)) in
  pending (cache s) = true ->
  o_timeout o = None \/ o_timeout o = Some 0 ->
  exists e,
    last (events rn m) = Some (EvEnd e)
    /\ snd (fst (run re opts (s, m))) = events rn m
    /\ (fst (fst (run re opts (s, m))) = Resolved e
        \/ fst (fst (run re opts (s, m))) = Exits 1).
Proof.
  intros o rn Hp Ht. unfold run. rewrite Hp. cbn [negb]. fold o. fold rn.
  assert (Hd : match o_timeout o with
               | Some t => if t =? 0 then None else Some (now m + timer_delay t)
               | None => None
               end = None).
  { by destruct Ht as [-> | ->]. }
  rewrite Hd. unfold iterate. cbn [on_message]. cbv beta iota.
  rewrite loop_on_message by done. rewrite events_shape.
  destruct (outcomes _ _ _ _) as [[l st] m1]. cbn.
  eexists. split; [rewrite app_comm_cons; apply last_snoc|].
  match goal with
  | |- context [if ?b then (Exits 1, _, _) else _] => destruct b
  end; cbn; auto.
Qed.

(** ** Collecting results *)

Lemma add_result_foldl rs : forall acc,
  foldl add_result acc rs
  = mkSuiteEnd (usedOnly acc && forallb usedOnly rs)
      (duration acc + total duration rs)
      (results acc ++ concat (map results rs))
      (filtered acc + total filtered rs)
      (ignored acc + total ignored rs)
      (passed acc + total passed rs)
      (failed acc + total failed rs)
      (timeout acc).
Proof.
  induction rs as [|r rs IH]; intros acc; simpl.
  - destruct acc; simpl. by rewrite andb_true_r, app_nil_r, !Z.add_0_r.
  - rewrite IH. unfold add_result; simpl.
    rewrite <- !app_assoc, <- !andb_assoc, <- !Z.add_assoc. done.
Qed.

Lemma all_results_length mods rs :
  all_results mods = Some rs -> length rs = length mods.
Proof.
  revert rs. induction mods as [|[p|v] mods IH]; intros rs; simpl.
  - by intros [= <-].
  - destruct (all_results mods) as [l|]; [|done]. intros [= <-]; simpl.
    by rewrite (IH l).
  - done.
Qed.

Lemma all_results_gives mods :
  all_results (map Gives mods) = Some (map unwrap mods).
Proof. induction mods as [|p mods IH]; simpl; [done|]. by rewrite IH. Qed.

Lemma all_results_fails mods :
  all_results mods = None <-> exists v, Fails v ∈ mods.
Proof.
  induction mods as [|[p|v] mods IH]; simpl.
  - split; [done|]. by intros [v ?%elem_of_nil].
  - destruct (all_results mods) as [l|].
    + split; [done|]. intros [v [?|Hv]%elem_of_cons]; [done|].
      exfalso. assert (Some l = None) by (apply IH; eauto). done.
    + split; [|done]. intros _. destruct (proj1 IH eq_refl) as [v Hv].
      exists v. by apply elem_of_cons; right.
  - split; [|done]. intros _. exists v. apply list_elem_of_here.
Qed.

Lemma count_status_app s l1 l2 :
  count_status s (l1 ++ l2) = count_status s l1 + count_status s l2.
Proof.
  unfold count_status. rewrite List.filter_app, length_app. lia.
Qed.

Lemma consistent_total rs :
  Forall consistent rs ->
  total ignored rs = count_status ignored_ (concat (map results rs))
  /\ total passed rs = count_status passed_ (concat (map results rs))
  /\ total failed rs = count_status failed_ (concat (map results rs)).
Proof.
  induction 1 as [|r rs (Hi & Hp & Hf) _ (IHi & IHp & IHf)]; simpl.
  - done.
  - rewrite !count_status_app. repeat split; lia.
Qed.

(** X1. [collect] adds up: the counters and the duration of its result are
    the sums over the collected results, its list of outcomes is theirs in
    the order of the arguments, whether a result is given directly or as the
    default export of a module; counters that agree with the outcomes of
    every collected result agree with the outcomes of the sum; and the first
    line written says how many results were collected. *)
Theorem collect_adds_up stack_of (mods : list SuiteModule) :
  let rs := map unwrap mods in
  exists e lines,
    collect stack_of (map Gives mods) = Some (e, lines)
    /\ duration e = total duration rs
    /\ results e = concat (map results rs)
    /\ filtered e = total filtered rs
    /\ ignored e = total ignored rs
    /\ passed e = total passed rs
    /\ failed e = total failed rs
    /\ (Forall consistent rs -> consistent e)
    /\ head lines
       = Some ("collected " +:+ pretty (length mods) +:+ " suites").
Proof.
  intros rs. unfold collect. rewrite all_results_gives. fold rs.
  rewrite add_result_foldl. eexists _, _. split; [reflexivity|]. simpl.
  do 6 (split; [done|]). split.
  - intros H. apply consistent_total in H as (Hi & Hp & Hf).
    unfold consistent; simpl. done.
  - unfold rs. by rewrite length_map.
Qed.

(** X2. The result of [collect] never says that only was used, and never
    carries a timeout, whatever the collected results say: [usedOnly] starts
    as false and is only ever and-ed, and [timeout] is not copied. *)
Theorem collect_drops_used_only stack_of mods e lines :
  collect stack_of mods = Some (e, lines) ->
  usedOnly e = false /\ timeout e = None.
Proof.
  unfold collect. destruct (all_results mods) as [rs|]; [|done].
  rewrite add_result_foldl. by intros [= <- _].
Qed.

Lemma collect_drops_used_only_witness :
  Forall (fun p => usedOnly (unwrap p) = true)
    [Direct used_only_end; Exported used_only_end]
  /\ timeout (unwrap (Direct timed_out_end)) = Some 10
  /\ (exists e lines,
        collect (fun _ => "") [Gives (Direct used_only_end);
                               Gives (Exported used_only_end);
                               Gives (Direct timed_out_end)] = Some (e, lines)
        /\ usedOnly e = false /\ timeout e = None /\ passed e = 2).
Proof.
  split; [by repeat constructor|]. split; [reflexivity|].
  eexists _, _. split; [reflexivity|].
  split; [|split; [|reflexivity]];
    eapply (collect_drops_used_only (fun _ => "")
              [Gives (Direct used_only_end); Gives (Exported used_only_end);
               Gives (Direct timed_out_end)]); reflexivity.
Defined.

(** ** The logger *)

Lemma enable_idem {F} (c : @Console F) : enable (enable c) = enable c.
Proof. unfold enable. destruct c as [cl [old|] ll]; simpl; done. Qed.

(** X3. Disabling the logger and enabling it again puts back the function
    that was installed as [console.log]; enabling a logger that was never
    disabled changes nothing; but after two calls of [disable] with no
    [enable] in between, the function that was installed is lost: whatever
    number of calls of [enable] follows, [console.log] stays the empty
    function.  The [log] property of the logger is never affected. *)
Theorem logger_round_trip {F} (silent : F) (c : Console) :
  console_log (enable (disable silent c)) = console_log c
  /\ enable (new_logger (console_log c)) = new_logger (console_log c)
  /\ (forall n,
        console_log (Nat.iter n enable (disable silent (disable silent c)))
        = silent)
  /\ logger_log (enable (disable silent c)) = logger_log c.
Proof.
  split; [done|]. split; [done|]. split; [|done].
  intros n. induction n as [|n IH]; [done|].
  destruct n as [|n]; [done|].
  change (Nat.iter (S (S n)) enable ?x)
    with (enable (enable (Nat.iter n enable x))).
  rewrite enable_idem. exact IH.
Qed.

(** ** Colours *)

Lemma append_cons x (a b : string) : String x a +:+ b = String x (a +:+ b).
Proof. reflexivity. Qed.

Lemma append_nil_l (a : string) : "" +:+ a = a.
Proof. reflexivity. Qed.

Lemma append_assoc (a b c : string) : (a +:+ b) +:+ c = a +:+ (b +:+ c).
Proof.
  induction a as [|x a IH]; [done|]. by rewrite !append_cons, IH.
Qed.

Lemma append_nil_r (a : string) : a +:+ "" = a.
Proof. induction a as [|x a IH]; [done|]. by rewrite append_cons, IH. Qed.

Lemma includes_cons c s pat :
  Js.includes (String c s) pat = false ->
  String.prefix pat (String c s) = false /\ Js.includes s pat = false.
Proof. simpl. intros H. by apply orb_false_iff in H. Qed.

Lemma replace_absent pat by_ str :
  Js.includes str pat = false -> Colors.replace str pat by_ = str.
Proof.
  unfold Colors.replace. induction str as [|c s IH]; [done|].
  intros H. apply includes_cons in H as [Hp Hs].
  cbn [Colors.replace_from]. rewrite Hp. by rewrite IH.
Qed.

(** X4. A colour function wraps a text that does not contain the closing
    code of the colour between the opening and the closing code, and leaves
    the text itself as it is. *)
Theorem colour_wraps opn cls str :
  Js.includes str (Colors.close (Colors.code opn cls)) = false ->
  Colors.run str (Colors.code opn cls)
  = Colors.open (Colors.code opn cls) +:+ str
    +:+ Colors.close (Colors.code opn cls).
Proof.
  intros H. unfold Colors.run.
  change (Colors.regexp (Colors.code opn cls))
    with (Colors.close (Colors.code opn cls)).
  by rewrite replace_absent.
Qed.

Lemma colour_wraps_witness :
  Js.includes "ok" (Colors.close (Colors.code [32%N] 39)) = false
  /\ Colors.green "ok"
     = Colors.esc +:+ "[32m" +:+ "ok" +:+ Colors.esc +:+ "[39m".
Proof.
  split; [reflexivity|].
  exact (colour_wraps [32%N] 39%N "ok" eq_refl).
Defined.

Lemma plain_cons c s :
  Js.includes (String c s) Colors.esc = false ->
  c <> "027"%char /\ Js.includes s Colors.esc = false.
Proof.
  intros H. apply includes_cons in H as [Hp Hs]. split; [|done].
  intros ->. unfold Colors.esc in Hp. cbn [String.prefix] in Hp.
  destruct (ascii_dec "027" "027"); [|done]. by destruct s.
Qed.

Lemma plain_no_match body s :
  Js.includes s Colors.esc = false ->
  Js.includes s (String "027" body) = false.
Proof.
  induction s as [|c s IH]; [done|].
  intros [Hc Hs]%plain_cons. cbn [Js.includes].
  rewrite (IH Hs), orb_false_r. cbn [String.prefix].
  destruct (ascii_dec "027" c) as [<-|]; done.
Qed.

Lemma replace_plain_prefix body by_ s t :
  Js.includes s Colors.esc = false ->
  Colors.replace_from (String "027" body) by_ 0 (s +:+ t)
  = s +:+ Colors.replace_from (String "027" body) by_ 0 t.
Proof.
  induction s as [|c s IH]; [done|].
  intros [Hc Hs]%plain_cons. rewrite !append_cons.
  cbn [Colors.replace_from String.prefix].
  destruct (ascii_dec "027" c) as [<-|]; [done|]. by rewrite IH.
Qed.

Lemma plain_app a b :
  Js.includes a Colors.esc = false -> Js.includes b Colors.esc = false ->
  Js.includes (a +:+ b) Colors.esc = false.
Proof.
  induction a as [|c a IH]; [done|].
  intros [Hc Ha]%plain_cons Hb. rewrite append_cons. cbn [Js.includes].
  rewrite (IH Ha Hb), orb_false_r. unfold Colors.esc. cbn [String.prefix].
  destruct (ascii_dec "027" c) as [<-|]; done.
Qed.

Lemma prefix_refl (s : string) : String.prefix s s = true.
Proof.
  induction s as [|c s IH]; [done|]. cbn [String.prefix].
  destruct (ascii_dec c c); done.
Qed.

Lemma replace_skip_all pat by_ (t : string) :
  Colors.replace_from pat by_ (String.length t) t = "".
Proof. induction t as [|c t IH]; [done|]. exact IH. Qed.

Lemma replace_whole c body by_ :
  Colors.replace_from (String c body) by_ 0 (String c body) = by_.
Proof.
  cbn [Colors.replace_from]. rewrite prefix_refl.
  cbn [String.length]. rewrite Nat.sub_1_r. cbn [Nat.pred].
  by rewrite replace_skip_all, append_nil_r.
Qed.

(** The closing code at the end of a coloured plain text is the only place
    where the closing code occurs. *)
Lemma replace_nested oa ob body str :
  Js.includes oa Colors.esc = false ->
  (forall rest, String.prefix body (oa +:+ rest) = false) ->
  Js.includes str Colors.esc = false ->
  Colors.replace (String "027" oa +:+ str +:+ String "027" body)
    (String "027" body) ob
  = String "027" oa +:+ str +:+ ob.
Proof.
  intros Hoa Hpre Hs. unfold Colors.replace. rewrite !append_cons.
  cbn [Colors.replace_from String.prefix].
  destruct (ascii_dec "027" "027"); [|done]. rewrite Hpre.
  rewrite <- append_assoc, replace_plain_prefix by by apply plain_app.
  by rewrite replace_whole, append_assoc.
Qed.

(** X5. Colours nest: when a plain text (one without escape characters) is
    given one of the foreground colours and the result another, the inner
    closing code is replaced by the opening code of the outer colour, so
    that the outer colour is in force again after the inner text, and the
    result ends with the one closing code. *)
Theorem nested_colour_resumes a b str :
  a ∈ foreground -> b ∈ foreground ->
  Js.includes str Colors.esc = false ->
  Colors.run (Colors.run str (Colors.code [a] 39)) (Colors.code [b] 39)
  = Colors.open (Colors.code [b] 39)
    +:+ Colors.open (Colors.code [a] 39) +:+ str
    +:+ Colors.open (Colors.code [b] 39)
    +:+ Colors.close (Colors.code [b] 39).
Proof.
  intros Ha Hb Hs. unfold Colors.run at 2.
  change (Colors.regexp (Colors.code [a] 39)) with (String "027" "[39m").
  rewrite replace_absent by by apply plain_no_match.
  unfold Colors.run.
  change (Colors.regexp (Colors.code [b] 39)) with (String "027" "[39m").
  change (Colors.close (Colors.code [a] 39)) with (String "027" "[39m").
  change (Colors.close (Colors.code [b] 39)) with (String "027" "[39m").
  unfold foreground in Ha, Hb.
  repeat (apply elem_of_cons in Ha as [->|Ha]); [..|by apply elem_of_nil in Ha].
  all: repeat (apply elem_of_cons in Hb as [->|Hb]); [..|by apply elem_of_nil in Hb].
  all: repeat match goal with
              | |- context [Colors.open ?c] =>
                  let v := eval vm_compute in (Colors.open c) in
                  change (Colors.open c) with v
              end.
  all: rewrite replace_nested by (try done; intros; reflexivity).
  all: by rewrite !append_assoc.
Qed.

Lemma nested_colour_resumes_witness :
  32%N ∈ foreground /\ 31%N ∈ foreground
  /\ Js.includes "ok" Colors.esc = false
  /\ Colors.red (Colors.green "ok")
     = Colors.esc +:+ "[31m" +:+ Colors.esc +:+ "[32m" +:+ "ok"
       +:+ Colors.esc +:+ "[31m" +:+ Colors.esc +:+ "[39m".
Proof.
  assert (H1 : 32%N ∈ foreground) by repeat constructor.
  assert (H2 : 31%N ∈ foreground) by repeat constructor.
  split; [exact H1|]. split; [exact H2|]. split; [reflexivity|].
  exact (nested_colour_resumes 32%N 31%N "ok" H1 H2 eq_refl).
Defined.

(** ** [run] with a suite timer *)

Lemma loop_on_message_any deadline ff tests : forall st res m a,
  timedOut a = false ->
  let '(_, _, _, a', go) := loop (on_message deadline) ff tests st res m a in
  endMsg a' = endMsg a
  /\ timedOut a' = negb go
  /\ (go = false -> deadline <> None)
  /\ exists evs,
       delivered a' = delivered a ++ evs
       /\ Forall (fun ev => is_end ev = false) evs.
Proof.
  induction tests as [|t rest IH]; intros st res m a Ha; cbn [loop].
  - repeat split; [done|done|]. exists []. by rewrite app_nil_r.
  - unfold on_message at 1.
    destruct (match deadline with Some d => d <=? now m | None => false end)
      eqn:Hf1.
    { repeat split; try done.
      - intros _ ->. done.
      - exists []. by rewrite app_nil_r. }
    destruct (run_one t st m) as [[e st1] m1].
    unfold on_message at 1. cbn [endMsg timedOut delivered].
    destruct (match deadline with Some d => d <=? now m1 | None => false end)
      eqn:Hf2.
    { repeat split; try done.
      - intros _ ->. done.
      - exists [EvTestStart t]. by repeat constructor. }
    destruct (ff && carries_error e).
    { repeat split; try done.
      exists [EvTestStart t; EvTestEnd e].
      split; [by rewrite <- app_assoc|by repeat constructor]. }
    specialize (IH st1 (res ++ [e]) m1
                  (mkDrained (endMsg a) false
                     ((delivered a ++ [EvTestStart t]) ++ [EvTestEnd e]))
                  eq_refl).
    destruct (loop _ _ _ _ _ _ _) as [[[[st2 res2] m2] a2] go2].
    destruct IH as (He & Ht & Hd & evs & Hev & Hall). cbn in He, Hev.
    repeat split; try done.
    exists (EvTestStart t :: EvTestEnd e :: evs).
    split; [by rewrite Hev, <- !app_assoc|by repeat constructor].
Qed.

(** How the loop of [run] over the stream ends: the suite timer was found
    to have fired, at a message that was then not delivered, and no end
    event was taken; or the whole stream was delivered, the end event
    last. *)
Lemma iterate_on_message deadline rn m :
  let '(_, a) := iterate (on_message deadline) rn m (mkDrained None false []) in
  (timedOut a = true /\ endMsg a = None /\ deadline <> None
   /\ Forall (fun ev => is_end ev = false) (delivered a))
  \/ (timedOut a = false
      /\ exists e pre,
           endMsg a = Some e /\ delivered a = pre ++ [EvEnd e]
           /\ timeout e = None).
Proof.
  unfold iterate. unfold on_message at 1. cbn [endMsg timedOut delivered].
  destruct (match deadline with Some d => d <=? now m | None => false end)
    eqn:Hf0.
  { left. repeat split; try done. intros ->. done. }
  pose proof (loop_on_message_any deadline (failFast rn) (testsToRun rn)
                (stats rn) [] m (mkDrained None false ([] ++ [EvStart (testsToRun rn)]))
                eq_refl) as H.
  destruct (loop _ _ _ _ _ _ _) as [[[[st res] m1] a1] go1].
  destruct H as (He & Ht & Hd & evs & Hev & Hall). cbn in He, Hev.
  destruct go1; cbn in Ht.
  - unfold on_message. rewrite He, Hev.
    destruct (match deadline with Some d => d <=? now m1 | None => false end)
      eqn:Hf1; cbn.
    + left. repeat split; try done.
      * intros ->. done.
      * by constructor.
    + right. split; [done|]. eexists _, (EvStart (testsToRun rn) :: evs).
      split; [reflexivity|]. split; reflexivity.
  - left. split; [done|]. split; [done|]. split; [by apply Hd|].
    rewrite Hev. by constructor.
Qed.

(** X6. [run] leaves through [exit] only after the whole stream of the
    runner has been delivered: the exit code is 1, the [exit] option is on,
    and the last event delivered is the end event, which reports a failed
    test or that only was used; a run that the suite timer cuts short
    never exits. *)
Theorem run_exits_after_the_end re opts s m c evs st' :
  run re opts (s, m) = (Exits c, evs, st') ->
  c = 1
  /\ o_exit (merge (options s) opts) = Some true
  /\ exists e,
       last evs = Some (EvEnd e) /\ timeout e = None
       /\ (0 < failed e \/ usedOnly e = true).
Proof.
  unfold run. destruct (negb (pending (cache s)));
    [intros [= H1 _ _]; repeat case_match; done|].
  remember (merge (options s) opts) as o eqn:Ho.
  set (deadline := match o_timeout o with
                   | Some t => if t =? 0 then None
                               else Some (now m + timer_delay t)
                   | None => None
                   end).
  set (rn := new_TestRunner _ _ _).
  pose proof (iterate_on_message deadline rn m) as H.
  destruct (iterate _ _ _ _) as [m1 a].
  destruct H as [(Ht & He & _)|(Ht & e & pre & He & Hd & Hte)];
    rewrite Ht, He; cbn.
  - by intros [=].
  - destruct ((0 <? failed e) || usedOnly e) eqn:Hx; cbn; [|by intros [=]].
    destruct (o_exit o) as [[]|] eqn:Hexit; cbn; [|by intros [=]..].
    intros [= <- <- _]. split; [done|]. split; [done|].
    exists e. rewrite Hd, last_snoc. split; [done|]. split; [done|].
    apply orb_true_iff in Hx as [Hx|Hx]; [left; by apply Z.ltb_lt|by right].
Qed.

Lemma run_exits_after_the_end_witness :
  exists evs st',
    run literal_test no_options exiting_suite = (Exits 1, evs, st')
    /\ o_exit (merge (options (fst exiting_suite)) no_options) = Some true
    /\ exists e,
         last evs = Some (EvEnd e) /\ timeout e = None
         /\ (0 < failed e \/ usedOnly e = true).
Proof.
  eexists _, _. split; [vm_compute; reflexivity|].
  exact (proj2 (run_exits_after_the_end literal_test no_options
                  (fst exiting_suite) (snd exiting_suite) 1 _ _ eq_refl)).
Defined.

(** X7. When the suite timer cuts a run short, the result carries the
    timeout of the options, which is not 0, and nothing else: every counter
    is 0 and the list of outcomes is empty, whatever tests have run and
    failed by then.  The end event of the runner is not among the events
    delivered, and what the reporter prints for the result is the one line
    about the timeout. *)
Theorem suite_timeout_reports_nothing re stack_of opts s m e evs st' t :
  pending (cache s) = true ->
  run re opts (s, m) = (Resolved e, evs, st') ->
  timeout e = Some t ->
  t <> 0
  /\ o_timeout (merge (options s) opts) = Some t
  /\ e = with_timeout t emptyEndMsg
  /\ Forall (fun ev => is_end ev = false) evs
  /\ print stack_of (EvEnd e)
     = [nl +:+ Colors.red "failed" +:+ " due to timeout after " +:+ pretty t
        +:+ "ms" +:+ nl].
Proof.
  intros Hp. unfold run. rewrite Hp. cbn [negb].
  remember (merge (options s) opts) as o eqn:Ho.
  set (deadline := match o_timeout o with
                   | Some t => if t =? 0 then None
                               else Some (now m + timer_delay t)
                   | None => None
                   end).
  set (rn := new_TestRunner _ _ _).
  pose proof (iterate_on_message deadline rn m) as H.
  destruct (iterate _ _ _ _) as [m1 a].
  destruct H as [(Ht & He & Hd & Hall)|(Ht & e0 & pre & He & Hd & Hte)];
    rewrite Ht, He; cbn.
  - intros [= <- <- _]. cbn. intros [= Hto].
    unfold deadline in Hd. destruct (o_timeout o) as [t0|]; [|done].
    destruct (t0 =? 0) eqn:Hz; [done|]. cbn in Hto. subst t0.
    apply Z.eqb_neq in Hz.
    split; [done|]. split; [done|]. split; [done|]. split; [done|].
    unfold print. cbn. by rewrite (proj2 (Z.eqb_neq t 0) Hz).
  - destruct (((0 <? failed e0) || usedOnly e0) && default false (o_exit o));
      [by intros [=]|].
    intros [= <- _ _]. congruence.
Qed.

Lemma suite_timeout_reports_nothing_witness :
  pending (cache (fst overdue_suite)) = true
  /\ exists evs st',
       run literal_test no_options overdue_suite
       = (Resolved (with_timeout 10 emptyEndMsg), evs, st')
       /\ Forall (fun ev => is_end ev = false) evs
       /\ log (snd st') = [LCallAll BeforeAll 0; LCallAll BeforeEach 0;
                           LBody "t"; LCallAll AfterEach 0;
                           LCallAll AfterAll 0].
Proof.
  split; [reflexivity|]. eexists _, _. split; [vm_compute; reflexivity|].
  split; [|reflexivity].
  exact (proj1 (proj2 (proj2 (proj2
    (suite_timeout_reports_nothing literal_test (fun _ => "") no_options
       (fst overdue_suite) (snd overdue_suite)
       (with_timeout 10 emptyEndMsg) _ _ 10 eq_refl eq_refl eq_refl))))).
Defined.

(** ** A suite without tests *)

Lemma timer_not_due now_ t : (now_ + timer_delay t <=? now_) = false.
Proof. apply Z.leb_gt. pose proof (timer_delay_pos t). lia. Qed.

Lemma run_without_tests re opts s m :
  pending (cache s) = true ->
  registry s = [] ->
  fst (run re opts (s, m))
  = (Resolved emptyEndMsg, [EvStart []; EvEnd emptyEndMsg])
  /\ log (snd (snd (run re opts (s, m)))) = log m
  /\ now (snd (snd (run re opts (s, m)))) = now m.
Proof.
  intros Hp Hr. unfold run. rewrite Hp, Hr. cbn [negb].
  remember (merge (options s) opts) as o eqn:Ho.
  unfold iterate, new_TestRunner, on_message.
  cbn [List.filter length Nat.ltb Nat.leb testsToRun failFast stats r_usedOnly
       loop s_filtered s_ignored s_passed s_failed timedOut endMsg delivered
       fst snd].
  assert (Hnd : match
                  match o_timeout o with
                  | Some t => if t =? 0 then None
                              else Some (now m + timer_delay t)
                  | None => None
                  end
                with
                | Some d => d <=? now m
                | None => false
                end = false).
  { destruct (o_timeout o) as [t|]; [|done].
    destruct (t =? 0); [done|]. apply timer_not_due. }
  rewrite !Hnd. cbn. rewrite Z.sub_diag.
  change (mkSuiteEnd false 0 [] 0 0 0 0 None) with emptyEndMsg.
  destruct (default false (o_reset o)); done.
Qed.

(** X8. Running a suite in which no test is registered succeeds at once,
    whatever the [reset], [timeout], [exit], [failFast], [filter] and [skip]
    options, when the reporters ([onMessage], the logger) return without
    taking time: the events handed to the reporters are the start event
    with no tests and the end event, the result has every counter at 0, no
    outcome and no timeout, [exit] is not called, no hook and no test
    function is invoked, and the clock stands still. *)
Theorem empty_suite_run re opts s m :
  pending (cache s) = true ->
  registry s = [] ->
  fst (run re opts (s, m))
  = (Resolved emptyEndMsg, [EvStart []; EvEnd emptyEndMsg])
  /\ log (snd (snd (run re opts (s, m)))) = log m
  /\ now (snd (snd (run re opts (s, m)))) = now m.
Proof. apply run_without_tests. Qed.

Lemma empty_suite_run_witness :
  pending (cache (fst late_suite0)) = true
  /\ registry (fst late_suite0) = []
  /\ fst (run literal_test no_options late_suite0)
     = (Resolved emptyEndMsg, [EvStart []; EvEnd emptyEndMsg]).
Proof.
  split; [reflexivity|]. split; [reflexivity|].
  exact (proj1 (empty_suite_run literal_test no_options (fst late_suite0)
                  (snd late_suite0) eq_refl eq_refl)).
Defined.

(** ** The promise behind [end] *)

Lemma resolve_settled d v cells i c w :
  cells !! i = Some c -> settled c = Some w ->
  resolve d v cells !! i = Some c.
Proof.
  intros Hc Hs. unfold resolve.
  destruct (decide (promise d = i)) as [->|Hne].
  - rewrite list_lookup_alter_eq, Hc. cbn. by rewrite Hs.
  - by rewrite list_lookup_alter_ne.
Qed.

(** X9. A promise of the suite is settled once: when a result promise has
    taken a value, no later call of [run], with or without a reset, changes
    it.  In particular [end] keeps the result of the first run that resolved
    it. *)
Theorem end_settles_once re opts s m i c v :
  promises s !! i = Some c -> settled c = Some v ->
  promises (fst (snd (run re opts (s, m)))) !! i = Some c.
Proof.
  intros Hc Hs. unfold run. destruct (negb (pending (cache s))); [done|].
  destruct (iterate _ _ _ _) as [m1 a].
  match goal with
  | |- context [resolve (cache s) ?f (promises s)] =>
      pose proof (resolve_settled (cache s) f _ _ _ _ Hc Hs) as Hr;
      set (final := f) in *
  end.
  match goal with
  | |- context [if ?b then (Exits 1, _, _) else _] => destruct b
  end; [done|].
  destruct (default false _); [|done].
  cbn. by apply lookup_app_l_Some.
Qed.

Lemma end_settles_once_witness :
  exists c v,
    promises (fst once_suite_done) !! 0%nat = Some c
    /\ settled c = Some v
    /\ passed v = 1
    /\ fst (fst (run literal_test skip_t once_suite_done))
       = Resolved (mkSuiteEnd false 0 [] 1 0 0 0 None)
    /\ promises (fst (snd (run literal_test skip_t once_suite_done))) !! 0%nat
       = Some c.
Proof.
  eexists _, _. split; [vm_compute; reflexivity|]. split; [reflexivity|].
  split; [reflexivity|]. split; [vm_compute; reflexivity|].
  exact (end_settles_once literal_test skip_t (fst once_suite_done)
           (snd once_suite_done) 0%nat _ _ eq_refl eq_refl).
Defined.

(** X10. After [reset] the promise [end] of the suite is no longer the one
    that [run] resolves: a run of the reset suite leaves [end] as it was, so
    that [end] of a suite that was reset before it was ever run stays
    pending although the run returns its result. *)
Theorem reset_orphans_end re opts s m st1 :
  (end_ s < length (promises s))%nat ->
  reset (s, m) = Ok tt st1 ->
  end_ (fst (snd (run re opts st1))) = end_ s
  /\ promises (fst (snd (run re opts st1))) !! end_ s = promises s !! end_ s.
Proof.
  intros Hlt [= <-]. unfold run. cbn [deferred pending cache negb promises
                                       end_ s_name options stack registry].
  destruct (iterate _ _ _ _) as [m1 a].
  match goal with
  | |- context [resolve ?d ?f ?cells] =>
      assert (Hr : resolve d f cells !! end_ s = promises s !! end_ s);
      [|set (final := f) in *]
  end.
  { unfold resolve. cbn [promise].
    rewrite list_lookup_alter_ne by lia. by apply lookup_app_l. }
  match goal with
  | |- context [if ?b then (Exits 1, _, _) else _] => destruct b
  end; [done|].
  destruct (default false _); [|done].
  cbn. split; [done|]. rewrite lookup_app_l; [done|].
  apply lookup_lt_is_Some.
  change (is_Some (resolve (mkDeferred true (length (promises s))) final
                     (promises s ++ [mkCell None true]) !! end_ s)).
  rewrite Hr. by apply lookup_lt_is_Some.
Qed.

Lemma reset_orphans_end_witness :
  (end_ (fst late_suite0) < length (promises (fst late_suite0)))%nat
  /\ fst (fst (run literal_test no_options (state_of (reset late_suite0))))
     = Resolved emptyEndMsg
  /\ (settled <$>
        promises (fst (snd (run literal_test no_options
                              (state_of (reset late_suite0)))))
        !! end_ (fst late_suite0)) = Some None.
Proof.
  assert (H : (end_ (fst late_suite0) < length (promises (fst late_suite0)))%nat)
    by (vm_compute; lia).
  split; [exact H|]. split; [vm_compute; reflexivity|].
  refine (eq_trans
            (f_equal (fmap settled)
               (proj2 (reset_orphans_end literal_test no_options
                         (fst late_suite0) (snd late_suite0) _ H eq_refl)))
            _).
  reflexivity.
Defined.

(** ** The stack of groups *)

Lemma declare_all_stack ds :
  Forall (fun d => forall st,
            match declare d st with
            | Ok _ st' => stack (fst st') = stack (fst st)
            | Thrown _ st' => stack (fst st) `prefix_of` stack (fst st')
            end) ds ->
  forall st,
    match declare_all ds st with
    | Ok _ st' => stack (fst st') = stack (fst st)
    | Thrown _ st' => stack (fst st) `prefix_of` stack (fst st')
    end.
Proof.
  induction 1 as [|d ds Hd _ IH]; intros st.
  - done.
  - cbn [declare_all foldr]. unfold mbind, M_bind.
    specialize (Hd st). destruct (declare d st) as [[] st1|v st1]; [|done].
    specialize (IH st1).
    change (foldr _ _ ds) with (declare_all ds).
    destruct (declare_all ds st1) as [[] st2|v st2]; congruence.
Qed.

Lemma declare_stack d : forall st,
  match declare d st with
  | Ok _ st' => stack (fst st') = stack (fst st)
  | Thrown _ st' => stack (fst st) `prefix_of` stack (fst st')
  end.
Proof.
  induction d as [t|p f|n body IH] using decl_nested_ind; intros [s m].
  - cbn [declare]. unfold test. destruct (fn t); [|done].
    destruct (negb _); done.
  - cbn [declare]. unfold add_hook. destruct (top s); done.
  - cbn [declare]. change (foldr _ _ body) with (declare_all body).
    unfold group, mbind, M_bind. cbn [push_frame].
    pose proof (declare_all_stack body IH
                  (set_stack (stack s ++ [length (heap m)]) s,
                   set_heap (heap m ++ [newContext n]) m)) as H.
    destruct (declare_all body _) as [[] [s2 m2]|v st2]; cbn in H |- *.
    + rewrite H. apply removelast_last.
    + etrans; [|exact H]. by apply prefix_app_r.
Qed.

(** X11. A group whose callback returns leaves the stack of scopes as it
    found it, whatever groups the callback opened in turn.  A group whose
    callback throws does not: [group] has no [finally], so the frame of the
    group is still on the stack when the exception leaves [group], followed
    by the frames of the inner groups the exception came through. *)
Theorem group_stack_discipline n body st :
  match declare (DGroup n body) st with
  | Ok _ st' => stack (fst st') = stack (fst st)
  | Thrown _ st' =>
      exists inner,
        stack (fst st') = stack (fst st) ++ length (heap (snd st)) :: inner
  end.
Proof.
  destruct st as [s m]. cbn [declare] in *.
  change (foldr _ _ body) with (declare_all body) in *.
  unfold group, mbind, M_bind in *. cbn [push_frame] in *.
  pose proof (declare_all_stack body
                (proj2 (Forall_forall _ _) (fun d _ => declare_stack d))
                (set_stack (stack s ++ [length (heap m)]) s,
                 set_heap (heap m ++ [newContext n]) m)) as Hb.
  destruct (declare_all body _) as [[] [s2 m2]|v st2].
  { cbn in Hb |- *. rewrite Hb. apply removelast_last. }
  cbn in Hb |- *. destruct Hb as [k Hk]. exists k.
  by rewrite Hk, <- app_assoc.
Qed.

(** ** The names of the registered tests *)

Lemma prefix_app (a b : string) : String.prefix a (a +:+ b) = true.
Proof.
  induction a as [|c a IH]; [by destruct b|].
  rewrite append_cons. cbn [String.prefix]. destruct (ascii_dec c c); done.
Qed.

Lemma prefix_app_inv (a b s : string) :
  String.prefix (a +:+ b) s = true -> String.prefix a s = true.
Proof.
  revert s. induction a as [|c a IH]; intros s; [by destruct s|].
  rewrite append_cons. destruct s as [|c' s]; [done|]. cbn [String.prefix].
  destruct (ascii_dec c c'); [apply IH|done].
Qed.

Lemma includes_prefix (s pat : string) :
  String.prefix pat s = true -> Js.includes s pat = true.
Proof. intros H. destruct s; simpl in *; by rewrite H. Qed.

Lemma join_cons sep x y l :
  Js.join sep (x :: y :: l) = x +:+ sep +:+ Js.join sep (y :: l).
Proof. reflexivity. Qed.

Lemma frame_name_alter f r h r0 :
  (forall c, name (f c) = name c) ->
  frame_name (alter f r h) r0 = frame_name h r0.
Proof.
  intros Hf. unfold frame_name.
  destruct (decide (r = r0)) as [->|Hne].
  - rewrite list_lookup_alter_eq. destruct (h !! r0); simpl; [apply Hf|done].
  - by rewrite list_lookup_alter_ne.
Qed.

Lemma lookup_alter_name f r (h : frames) r0 c :
  (forall c, name (f c) = name c) ->
  h !! r0 = Some c ->
  exists c', alter f r h !! r0 = Some c' /\ name c' = name c.
Proof.
  intros Hf Hc. destruct (decide (r = r0)) as [->|Hne].
  - rewrite list_lookup_alter_eq, Hc. eexists. split; [done|]. apply Hf.
  - rewrite list_lookup_alter_ne by done. eauto.
Qed.

Lemma lookup_update_all_name f rs r0 : forall (h : frames) c,
  (forall c, name (f c) = name c) ->
  h !! r0 = Some c ->
  exists c', update_all f rs h !! r0 = Some c' /\ name c' = name c.
Proof.
  unfold update_all. induction rs as [|r rs IH]; intros h c Hf Hc; cbn [foldl].
  - eauto.
  - destruct (lookup_alter_name f r h r0 c Hf Hc) as (c1 & Hc1 & Hn1).
    destruct (IH _ _ Hf Hc1) as (c2 & Hc2 & Hn2).
    exists c2. split; [done|congruence].
Qed.

Lemma new_Suite_named n opts : named n (new_Suite n opts empty_machine).
Proof.
  split; [by exists []|]. split; [by eexists|]. constructor.
Qed.

Lemma reg_step_named n st st' : named n st -> reg_step st st' -> named n st'.
Proof.
  destruct st as [s m]. intros ([rest Hst] & (c & Hc & Hn) & Hreg) Hstep.
  cbn in Hst, Hc, Hreg. revert Hn.
  inversion Hstep as [t ? ? Ht|p f ? ? Hh|g ? ? Hp|? ? Hlen Hp]; subst;
    intros Hn.
  - (* test *)
    unfold test in Ht. destruct (fn t) as [f|]; [|done].
    destruct (negb _); [done|]. injection Ht as <-. cbn.
    set (h2 := if default false (d_only t) then _ else _).
    assert (Hh2 : exists c', h2 !! 0%nat = Some c' /\ name c' = n).
    { unfold h2.
      assert (exists c1,
                (if negb (default false (ignore t))
                 then update_all incr_waiting (stack s) (heap m)
                 else heap m) !! 0%nat = Some c1 /\ name c1 = n)
        as (c1 & Hc1 & Hn1).
      { destruct (negb _); [|by eauto].
        destruct (lookup_update_all_name incr_waiting (stack s) 0%nat
                    (heap m) c (fun _ => eq_refl) Hc) as (c1 & ? & ?).
        exists c1. split; [done|congruence]. }
      destruct (default false (d_only t)); [|by eauto].
      destruct (lookup_update_all_name incr_only (stack s) 0%nat _ c1
                  (fun _ => eq_refl) Hc1) as (c2 & ? & ?).
      exists c2. split; [done|congruence]. }
    split; [by exists rest|]. split; [done|].
    apply Forall_app. split; [done|]. constructor; [|constructor].
    unfold wrapHooks; cbn. rewrite Hst. cbn [map].
    destruct Hh2 as (c' & Hc' & Hn'). unfold frame_name at 1. rewrite Hc', Hn'.
    unfold Js.startsWith. cbn [app].
    destruct (map (frame_name h2) rest ++ [d_name t]) as [|y l] eqn:E.
    { by destruct (map (frame_name h2) rest). }
    rewrite join_cons, <- append_assoc. apply prefix_app.
  - (* a hook *)
    unfold add_hook in Hh. destruct (top s) as [r0|]; [|done].
    injection Hh as <-. cbn.
    split; [by exists rest|]. split; [|done].
    destruct (lookup_alter_name (push_hook p f) r0 (heap m) 0%nat c)
      as (c' & ? & ?); [by destruct p|done|].
    exists c'. split; [done|congruence].
  - (* entering a group *)
    injection Hp as <-. cbn.
    split; [exists (rest ++ [length (heap m)]); by rewrite Hst|].
    split; [|done]. exists c. split; [|done]. by apply lookup_app_l_Some.
  - (* leaving a group *)
    injection Hp as <-. cbn. cbn in Hlen. rewrite Hst in Hlen |- *.
    split; [|split; [by eauto|done]].
    destruct rest as [|x rest]; [simpl in Hlen; lia|].
    eexists. reflexivity.
Qed.

Lemma reg_steps_named n st st' :
  named n st -> rtc reg_step st st' -> named n st'.
Proof. induction 2; eauto using reg_step_named. Qed.

(** X12. The name of every test registered in a suite begins with the name
    of the suite, followed by the separator: in every state a suite named
    [n] reaches by registration, every entry of the registry is named
    [n > ...].  Hence a skip option equal to the name of the suite, when
    that name is not empty, excludes every test of the suite, and a filter
    option equal to it, when it is not a string between slashes, keeps
    every test. *)
Theorem tests_carry_the_suite_name re n opts st w :
  rtc reg_step (new_Suite n opts empty_machine) st ->
  w ∈ registry (fst st) ->
  Js.startsWith (t_name w) (n +:+ " > ") = true
  /\ (n <> "" -> createFilterFn re None (Some (PString n)) w = false)
  /\ (Js.startsWith n "/" && Js.endsWith n "/" = false ->
      createFilterFn re (Some (PString n)) None w = true).
Proof.
  intros Hrtc Hw.
  pose proof (reg_steps_named n _ _ (new_Suite_named n opts) Hrtc)
    as (_ & _ & Hall).
  rewrite Forall_forall in Hall. specialize (Hall w Hw).
  split; [done|].
  assert (Hinc : Js.includes (t_name w) n = true).
  { apply includes_prefix. by eapply prefix_app_inv. }
  unfold createFilterFn. split.
  - intros Hne. destruct n; [done|]. cbn. by rewrite Hinc.
  - intros Hsl. rewrite Hsl. destruct (Js.truthy_string n); [|done].
    by rewrite Hinc.
Qed.

Lemma tests_carry_the_suite_name_witness :
  rtc reg_step (new_Suite "s" quiet empty_machine) group_suite
  /\ mkWrapped (failing "beta") "s > g > beta" false false 2000 [0; 1]%nat
     ∈ registry (fst group_suite)
  /\ createFilterFn literal_test None (Some (PString "s"))
       (mkWrapped (failing "beta") "s > g > beta" false false 2000 [0; 1]%nat)
     = false.
Proof.
  assert (H1 : rtc reg_step (new_Suite "s" quiet empty_machine) group_suite).
  { eapply rtc_l; [by apply (step_enter "g")|].
    eapply rtc_l; [by apply (step_hook BeforeAll (HookFn "ba" Fulfils))|].
    eapply rtc_l; [by apply (step_hook AfterAll (HookFn "aa" Fulfils))|].
    eapply rtc_l;
      [by apply (step_test (mkTest (Some (passing "alpha")) "alpha"
                              None None None))|].
    eapply rtc_l;
      [by apply (step_test (mkTest (Some (failing "beta")) "beta"
                              None None None))|].
    eapply rtc_l; [apply step_leave; [simpl; lia|reflexivity]|].
    apply rtc_refl. }
  assert (H2 : mkWrapped (failing "beta") "s > g > beta" false false 2000
                 [0; 1]%nat ∈ registry (fst group_suite)).
  { apply list_elem_of_further, list_elem_of_here. }
  split; [exact H1|]. split; [exact H2|].
  refine (proj1 (proj2 (tests_carry_the_suite_name literal_test "s" quiet
                          group_suite _ H1 H2)) _).
  discriminate.
Defined.

(** ** Constructing a suite *)

Lemma declare_all_s_name ds :
  Forall (fun d => forall st,
            s_name (fst (state_of (declare d st))) = s_name (fst st)) ds ->
  forall st, s_name (fst (state_of (declare_all ds st))) = s_name (fst st).
Proof.
  induction 1 as [|d ds Hd _ IH]; intros st; [done|].
  cbn [declare_all foldr]. unfold mbind, M_bind.
  specialize (Hd st). destruct (declare d st) as [[] st1|v st1]; [|done].
  change (foldr _ _ ds) with (declare_all ds). rewrite IH. exact Hd.
Qed.

(** No registration changes the name of the suite, whether it returns or
    throws. *)
Lemma declare_s_name d : forall st,
  s_name (fst (state_of (declare d st))) = s_name (fst st).
Proof.
  induction d as [t|p f|n body IH] using decl_nested_ind; intros [s m].
  - cbn [declare]. unfold test. destruct (fn t); [|done].
    destruct (negb _); done.
  - cbn [declare]. unfold add_hook. destruct (top s); done.
  - cbn [declare]. change (foldr _ _ body) with (declare_all body).
    unfold group, mbind, M_bind. cbn [push_frame].
    pose proof (declare_all_s_name body IH
                  (set_stack (stack s ++ [length (heap m)]) s,
                   set_heap (heap m ++ [newContext n]) m)) as H.
    destruct (declare_all body _) as [[] [s2 m2]|v st2]; exact H.
Qed.

(** X13. [suite(name, fn)] with a script as its initialization function:
    without a function it throws "Missing test function", also when the
    name is empty; with an empty name it throws before a suite exists;
    otherwise the suite is constructed with the timer of its automatic run
    set, also when the script throws; and when the script returns, the state
    of the suite is one reached by registration steps, the stack is back at
    the root frame, and every registered test is named after the suite. *)
Theorem suite_with_script n ds :
  suite (SName n) None empty_machine
  = Refused (TypeError "Missing test function")
  /\ match suite (SName n) (Some (declare_all ds)) empty_machine with
     | Refused v => n = "" /\ v = TypeError "The test name can't be empty"
     | Created st auto =>
         n <> "" /\ auto = true /\ registered st
         /\ s_name (fst st) = n /\ stack (fst st) = [0%nat]
         /\ Forall (fun w => Js.startsWith (t_name w) (n +:+ " > ") = true)
              (registry (fst st))
     | Aborted v st auto => n <> "" /\ auto = true /\ s_name (fst st) = n
     end.
Proof.
  split; [done|]. unfold suite.
  destruct n as [|c n]; [done|]. cbn [Js.truthy_string negb].
  cbn [co_options co_fn Suite_constructor so_name autoRun so_run default
       from_option id].
  set (n' := String c n).
  pose proof (declare_all_stack ds
                (proj2 (Forall_forall _ _) (fun d _ => declare_stack d))
                (new_Suite n' no_options empty_machine)) as Hst.
  pose proof (declare_all_s_name ds
                (proj2 (Forall_forall _ _) (fun d _ => declare_s_name d))
                (new_Suite n' no_options empty_machine)) as Hname.
  destruct (declare_all ds (new_Suite n' no_options empty_machine))
    as [[] st'|v st'] eqn:E.
  - assert (Hrtc : rtc reg_step (new_Suite n' no_options empty_machine) st').
    { eapply declare_all_steps; [|done|exact E].
      apply Forall_forall. intros d _. apply declare_steps. }
    pose proof (reg_steps_named n' _ _ (new_Suite_named n' no_options) Hrtc)
      as (_ & _ & Hall).
    split; [done|]. split; [done|]. split; [by eexists _, _|].
    split; [exact Hname|]. split; [exact Hst|exact Hall].
  - split; [done|]. split; [done|]. exact Hname.
Qed.


(** ** [callAll] *)

Lemma map_invoke_no_throw fns :
  Forall (fun f => throws_sync f = false) fns -> map_invoke fns = (fns, None).
Proof.
  induction 1 as [|f fns Hf _ IH]; cbn [map_invoke]; [done|].
  rewrite IH. unfold throws_sync in Hf. by destruct (hook_settle f).
Qed.

Lemma map_invoke_throw pre f v post :
  Forall (fun f => throws_sync f = false) pre -> hook_settle f = Throws v ->
  map_invoke (pre ++ f :: post) = (pre ++ [f], Some v).
Proof.
  intros Hpre Hf. induction Hpre as [|g pre Hg _ IH]; cbn [map_invoke app].
  - by rewrite Hf.
  - rewrite IH. unfold throws_sync in Hg. by destruct (hook_settle g).
Qed.

Lemma promise_all_first fns : promise_all fns = head (omap rejection fns).
Proof.
  induction fns as [|f fns IH]; [done|]. cbn [promise_all]. rewrite IH.
  change (omap rejection (f :: fns))
    with (match rejection f with
          | Some y => y :: omap rejection fns
          | None => omap rejection fns
          end).
  assert (Hr : rejection f = match hook_settle f with
                             | Rejects v => Some v
                             | _ => None
                             end) by done.
  rewrite Hr. by destruct (hook_settle f).
Qed.

(** X15. [callAll] invokes every callback of the list, in order, also when
    one of them returns a promise that rejects, and then fails with the
    first rejection in the list, if there is one (the promises of the hooks
    settle in the order in which the hooks were invoked).  A callback that
    throws before returning ends the invocations: the callbacks after it
    are not invoked, and [callAll] fails with the value thrown, also when
    the promise of an earlier callback rejects. *)
Theorem callAll_invokes fns :
  (Forall (fun f => throws_sync f = false) fns ->
   callAll fns = (fns, head (omap rejection fns)))
  /\ (forall pre f v post,
        fns = pre ++ f :: post ->
        Forall (fun f => throws_sync f = false) pre ->
        hook_settle f = Throws v ->
        callAll fns = (pre ++ [f], Some v)).
Proof.
  unfold callAll. split.
  - intros H. rewrite map_invoke_no_throw by done. by rewrite promise_all_first.
  - intros pre f v post -> Hpre Hf. by rewrite (map_invoke_throw pre f v post).
Qed.

Lemma callAll_invokes_witness :
  Forall (fun f => throws_sync f = false) [HookFn "a" (Rejects (ErrorObj "async"))]
  /\ hook_settle (HookFn "b" (Throws (ErrorObj "sync")))
     = Throws (ErrorObj "sync")
  /\ callAll three_hooks
     = ([HookFn "a" (Rejects (ErrorObj "async"));
         HookFn "b" (Throws (ErrorObj "sync"))], Some (ErrorObj "sync")).
Proof.
  assert (H : Forall (fun f => throws_sync f = false)
                [HookFn "a" (Rejects (ErrorObj "async"))])
    by (by repeat constructor).
  split; [exact H|]. split; [reflexivity|].
  exact (proj2 (callAll_invokes three_hooks)
           [HookFn "a" (Rejects (ErrorObj "async"))]
           (HookFn "b" (Throws (ErrorObj "sync"))) (ErrorObj "sync")
           [HookFn "c" Fulfils] eq_refl H eq_refl).
Defined.

(** ** The order of the hooks *)

Lemma call_order_app p l1 l2 :
  call_order p (l1 ++ l2) = call_order p l1 ++ call_order p l2.
Proof. unfold call_order. apply flat_map_app. Qed.

Lemma call_order_callAll_log p q r fns :
  call_order p (callAll_log q r fns) = if bool_decide (q = p) then [r] else [].
Proof.
  unfold callAll_log, call_order. cbn [flat_map].
  assert (H : forall l : list hook_fn,
            flat_map (fun e => match e with
                               | LCallAll q r =>
                                   if bool_decide (q = p) then [r] else []
                               | _ => []
                               end)
              (map (fun f => LHook q r (hook_label f)) l) = []).
  { induction l as [|f l IH]; [done|]. exact IH. }
  rewrite H. by rewrite app_nil_r.
Qed.

(** X16. Hooks nest.  When no hook throws, the wrapped function of a test
    invokes, in this order: for every frame of the scope path of the test,
    from the outermost to the innermost, the [beforeAll] hooks of the frame
    if the frame has completed no test yet, and then its [beforeEach]
    hooks; the test's own function; and, once the completion counters of
    the frames of the path have been incremented, for every frame from the
    innermost to the outermost, the [afterEach] hooks of the frame and then
    its [afterAll] hooks if they are due by the counters of the frame.  It
    invokes nothing else, and it throws what the test's function threw if
    that is truthy. *)
Theorem hooks_nest f on hooks h :
  calm h ->
  let h' := update_all (incr_completed on) hooks h in
  let before r :=
    match h !! r with
    | Some c =>
        (if Nat.eqb (completed c) 0
         then callAll_log BeforeAll r (beforeAll c) else [])
        ++ callAll_log BeforeEach r (beforeEach c)
    | None => []
    end in
  let after r :=
    match h' !! r with
    | Some c =>
        callAll_log AfterEach r (afterEach c)
        ++ (if afterAll_due c
            then callAll_log AfterAll r (afterAll c) else [])
    | None => []
    end in
  wrappedFn f on hooks h
  = (h',
     flat_map before hooks
     ++ LBody (fn_label f) :: flat_map after (rev hooks),
     rethrow (caught (fn_settle f))).
Proof. intros Hcalm. cbv zeta. by rewrite wrappedFn_calm. Qed.

Lemma hooks_nest_witness :
  calm (heap (snd group_suite))
  /\ snd (fst (wrappedFn (passing "alpha") false [0; 1]%nat
                 (heap (snd group_suite))))
     = [LCallAll BeforeAll 0; LCallAll BeforeEach 0;
        LCallAll BeforeAll 1; LHook BeforeAll 1 "ba"; LCallAll BeforeEach 1;
        LBody "alpha";
        LCallAll AfterEach 1; LCallAll AfterEach 0].
Proof.
  assert (H1 : calm (heap (snd group_suite))) by repeat constructor.
  split; [exact H1|].
  exact (f_equal (fun x => snd (fst x))
           (hooks_nest (passing "alpha") false [0; 1]%nat
              (heap (snd group_suite)) H1)).
Defined.

(** ** What a test's function throws *)



(** ** Errors in teardown hooks *)

Lemma call_order_hooks p q r (called : list hook_fn) :
  call_order p (LCallAll q r :: map (fun f => LHook q r (hook_label f)) called)
  = if bool_decide (q = p) then [r] else [].
Proof. apply (call_order_callAll_log p q r called). Qed.

(** X18. When the [afterEach] hooks of the innermost frame of a test fail,
    by a hook that throws or by one whose promise rejects, the wrapped
    function fails with the value of the hooks, however the test's own
    function settled: the error of a failing test is replaced, and a test
    that passed is failed.  The teardown ends there: the [afterEach] hooks
    of the outer frames are not called, and no [afterAll] hook is. *)
Theorem teardown_error_wins f on hooks h l0 r c w :
  setup h hooks = (l0, None) ->
  NoDup hooks -> last hooks = Some r -> h !! r = Some c ->
  snd (callAll (afterEach c)) = Some w ->
  exists h' l,
    wrappedFn f on hooks h = (h', l0 ++ LBody (fn_label f) :: l, Some w)
    /\ call_order AfterEach l = [r]
    /\ call_order AfterAll l = [].
Proof.
  intros Hs Hnd Hlast Hc Hw. unfold wrappedFn, finish. rewrite Hs.
  apply last_Some in Hlast as [init ->]. rewrite rev_app_distr. cbn [rev app].
  cbn [teardown].
  rewrite update_all_in, Hc by (done || (apply elem_of_app; right;
                                         apply list_elem_of_here)).
  cbn [fmap option_fmap option_map incr_completed afterEach].
  unfold callAll_at.
  destruct (callAll (afterEach c)) as [called e]. cbn in Hw. subst e.
  eexists _, _. split; [reflexivity|].
  by rewrite !call_order_hooks.
Qed.

Lemma teardown_error_wins_witness :
  exists h' l,
    wrappedFn (failing "t") false [0%nat]
      [mkStackItem [] [] [HookFn "ae" (Rejects (ErrorObj "teardown"))]
         [HookFn "aa" Fulfils] 1 0 0 0 "s"]
    = (h', [LCallAll BeforeAll 0; LCallAll BeforeEach 0] ++ LBody "t" :: l,
       Some (ErrorObj "teardown"))
    /\ call_order AfterEach l = [0%nat]
    /\ call_order AfterAll l = [].
Proof.
  exact (teardown_error_wins (failing "t") false [0%nat]
           [mkStackItem [] [] [HookFn "ae" (Rejects (ErrorObj "teardown"))]
              [HookFn "aa" Fulfils] 1 0 0 0 "s"]
           [LCallAll BeforeAll 0; LCallAll BeforeEach 0] 0%nat _
           (ErrorObj "teardown") eq_refl (NoDup_singleton 0%nat)
           eq_refl eq_refl eq_refl).
Defined.

(** ** The race against the timer *)



Lemma advance_idle t m :
  background m = [] -> advance t m = mkMachine (heap m) (log m) t [].
Proof. intros H. unfold advance. rewrite H. cbn. by rewrite app_nil_r. Qed.

(** X20. A test that loses the race against its timer is failed with a
    [TimeoutError] as soon as the timer fires, with the counters of its
    frames untouched and no teardown hook called; its wrapped function is
    not cancelled, though: once the test's function has settled, the
    completion counters of its frames are incremented and its teardown
    hooks run, whatever else is running by then. *)
Theorem timed_out_test_finishes_later t m T :
  calm (heap m) -> background m = [] ->
  timer_delay (t_timeout t) < fn_elapsed (t_fn t) ->
  now m + fn_elapsed (t_fn t) <= T ->
  let m1 := fst (run_timeout t m) in
  let h' := update_all (incr_completed (t_only t)) (t_hooks t) (heap m) in
  snd (run_timeout t m) = Some (TimeoutError (t_timeout t))
  /\ heap m1 = heap m
  /\ now m1 = now m + timer_delay (t_timeout t)
  /\ log m1
     = log m ++ setup_log (heap m) (t_hooks t) ++ [LBody (fn_label (t_fn t))]
  /\ heap (advance T m1) = h'
  /\ log (advance T m1) = log m1 ++ teardown_log h' (rev (t_hooks t))
  /\ background (advance T m1) = [].
Proof.
  intros Hcalm Hbg Hslow HT. cbv zeta. unfold run_timeout.
  rewrite setup_calm by done.
  rewrite (proj2 (Z.leb_le _ _) (Z.lt_le_incl _ _ Hslow)).
  rewrite advance_idle by done. unfold add_log.
  cbn [enqueue fst snd heap log now background].
  split; [done|]. split; [done|]. split; [done|]. split; [done|].
  unfold advance. cbn [background heap log now flush due p_hooks p_only
                       p_settle].
  rewrite (proj2 (Z.leb_le _ _) HT).
  rewrite finish_calm by done. cbn. by rewrite app_nil_r.
Qed.

Lemma timed_out_test_finishes_later_witness :
  calm (heap (snd late_suite0)) /\ background (snd late_suite0) = []
  /\ snd (run_timeout (mkWrapped (TestFn "slow" 20 Fulfils) "s > slow" false
                         false 10 [0%nat]) (snd late_suite0))
     = Some (TimeoutError 10)
  /\ (completed <$>
        heap (fst (run_timeout
                     (mkWrapped (TestFn "slow" 20 Fulfils) "s > slow" false
                        false 10 [0%nat]) (snd late_suite0))) !! 0%nat)
     = Some 0%nat
  /\ (completed <$>
        heap (advance 20
                (fst (run_timeout
                        (mkWrapped (TestFn "slow" 20 Fulfils) "s > slow" false
                           false 10 [0%nat]) (snd late_suite0)))) !! 0%nat)
     = Some 1%nat.
Proof.
  assert (H1 : calm (heap (snd late_suite0))) by repeat constructor.
  split; [exact H1|]. split; [reflexivity|].
  pose proof (timed_out_test_finishes_later
                (mkWrapped (TestFn "slow" 20 Fulfils) "s > slow" false false
                   10 [0%nat]) (snd late_suite0) 20 H1 eq_refl eq_refl
                ltac:(vm_compute; discriminate)) as H.
  cbv zeta in H. destruct H as (He & Hh & _ & _ & Hh' & _).
  split; [exact He|]. split; [by rewrite Hh|by rewrite Hh'].
Defined.

(** ** Ignored tests *)

Lemma run_one_stats t st st' m :
  fst (fst (run_one t st m)) = fst (fst (run_one t st' m))
  /\ snd (run_one t st m) = snd (run_one t st' m)
  /\ (s_passed st = s_passed st' -> s_failed st = s_failed st' ->
      s_passed (snd (fst (run_one t st m)))
      = s_passed (snd (fst (run_one t st' m)))
      /\ s_failed (snd (fst (run_one t st m)))
         = s_failed (snd (fst (run_one t st' m)))).
Proof.
  unfold run_one. destruct (t_ignore t); [done|].
  destruct (run_timeout t m) as [m1 [err|]]; cbn; repeat split; congruence.
Qed.

Lemma outcomes_without_ignored ff tests : forall st st' m,
  s_passed st = s_passed st' -> s_failed st = s_failed st' ->
  let '(l, st1, m1) := outcomes ff tests st m in
  let '(l', st1', m1') := outcomes ff (List.filter not_ignored tests) st' m in
  m1' = m1
  /\ l' = List.filter (fun p => not_ignored (fst p)) l
  /\ s_passed st1' = s_passed st1 /\ s_failed st1' = s_failed st1.
Proof.
  induction tests as [|t rest IH]; intros st st' m Hp Hf.
  - done.
  - cbn [outcomes List.filter]. unfold not_ignored at 1.
    destruct (t_ignore t) eqn:Hi; cbn [negb].
    + unfold run_one at 1. rewrite Hi. cbn [carries_error te_error].
      rewrite andb_false_r.
      specialize (IH (mkStats (s_filtered st) (s_ignored st + 1) (s_passed st)
                        (s_failed st)) st' m Hp Hf).
      destruct (outcomes ff rest _ m) as [[l st1] m1].
      destruct (outcomes ff (List.filter not_ignored rest) st' m)
        as [[l' st1'] m1'].
      cbn [List.filter fst].
      replace (not_ignored t) with false by (unfold not_ignored; by rewrite Hi).
      exact IH.
    + cbn [outcomes].
      destruct (run_one_stats t st st' m) as (He & Hm & Hs).
      destruct (Hs Hp Hf) as [Hp1 Hf1].
      destruct (run_one t st m) as [[e st1] m1].
      destruct (run_one t st' m) as [[e' st1'] m1'].
      cbn in He, Hm, Hp1, Hf1. subst e' m1'.
      destruct (ff && carries_error e).
      * cbn [List.filter fst].
        replace (not_ignored t) with true
          by (unfold not_ignored; by rewrite Hi).
        done.
      * specialize (IH st1 st1' m1 Hp1 Hf1).
        destruct (outcomes ff rest st1 m1) as [[l st2] m2].
        destruct (outcomes ff (List.filter not_ignored rest) st1' m1)
          as [[l' st2'] m2'].
        cbn [List.filter fst].
        replace (not_ignored t) with true
          by (unfold not_ignored; by rewrite Hi).
        destruct IH as (-> & -> & ? & ?). done.
Qed.

(** X21. Ignored tests are inert.  The generator invokes nothing for an
    ignored test, neither its function nor a hook, and never stops at one:
    a run over a list of tests leaves the frames, the log of invocations
    and the clock as the run over the same list without its ignored tests
    does, with the same outcomes for the other tests and the same numbers
    of passed and failed tests. *)
Theorem ignored_tests_are_inert used ff tests st m :
  fst (iterate drain (mkRunner used st ff (List.filter not_ignored tests)) m [])
  = fst (iterate drain (mkRunner used st ff tests) m [])
  /\ let '(l, st1, m1) := outcomes ff tests st m in
     let '(l', st1', m1') :=
       outcomes ff (List.filter not_ignored tests) st m in
     m1' = m1
     /\ l' = List.filter (fun p => not_ignored (fst p)) l
     /\ s_passed st1' = s_passed st1 /\ s_failed st1' = s_failed st1.
Proof.
  pose proof (outcomes_without_ignored ff tests st st m eq_refl eq_refl) as H.
  split; [|exact H]. rewrite !iterate_drain_machine. cbn.
  destruct (outcomes ff tests st m) as [[l st1] m1].
  destruct (outcomes ff (List.filter not_ignored tests) st m)
    as [[l' st1'] m1'].
  by destruct H as (-> & _).
Qed.

(** ** The clock *)

Lemma advance_now t m : now (advance t m) = t.
Proof.
  unfold advance. by destruct (flush t (background m) (heap m)) as [[bg h] l].
Qed.

Lemma run_timeout_clock t m : now m <= now (fst (run_timeout t m)).
Proof.
  unfold run_timeout. destruct (setup (heap m) (t_hooks t)) as [l [v|]].
  - cbn. lia.
  - destruct (timer_delay (t_timeout t) <=? fn_elapsed (t_fn t)).
    + cbn. rewrite advance_now. pose proof (timer_delay_pos (t_timeout t)). lia.
    + destruct (finish _ _ _ _) as [[h' l'] e]. cbn. rewrite advance_now. lia.
Qed.

Lemma run_one_clock t st m :
  now m <= now (snd (run_one t st m))
  /\ 0 <= te_duration (fst (fst (run_one t st m)))
       <= now (snd (run_one t st m)) - now m.
Proof.
  unfold run_one. destruct (t_ignore t); [cbn; lia|].
  pose proof (run_timeout_clock t m) as H.
  destruct (run_timeout t m) as [m1 [err|]]; cbn in *; lia.
Qed.

Lemma outcomes_clock ff tests : forall st m,
  let '(l, _, m') := outcomes ff tests st m in
  now m <= now m'
  /\ Forall (fun r => 0 <= te_duration r) (map snd l)
  /\ sum_durations (map snd l) <= now m' - now m.
Proof.
  induction tests as [|t rest IH]; intros st m; cbn [outcomes].
  - cbn. split; [lia|]. split; [constructor|lia].
  - pose proof (run_one_clock t st m) as (H1 & H2).
    destruct (run_one t st m) as [[e st1] m1]. cbn in H1, H2.
    destruct (ff && carries_error e).
    + cbn. split; [done|]. split; [repeat constructor; lia|lia].
    + specialize (IH st1 m1).
      destruct (outcomes ff rest st1 m1) as [[l st2] m2].
      destruct IH as (H3 & H4 & H5). cbn.
      split; [lia|]. split; [constructor; [lia|done]|].
      unfold sum_durations in H5. lia.
Qed.

(** X22. Durations add up: every outcome of a run carries a duration that
    is not negative, and the duration of the run, which its end event
    reports, is at least the sum of the durations of its outcomes. *)
Theorem durations_add_up rn m :
  exists e,
    last (events rn m) = Some (EvEnd e)
    /\ Forall (fun r => 0 <= te_duration r) (results e)
    /\ sum_durations (results e) <= duration e.
Proof.
  rewrite events_shape.
  pose proof (outcomes_clock (failFast rn) (testsToRun rn) (stats rn) m) as H.
  destruct (outcomes _ _ _ _) as [[l st] m1]. destruct H as (_ & H1 & H2).
  eexists. split; [rewrite app_comm_cons; apply last_snoc|]. cbn. done.
Qed.

(** ** The order of the results *)

Lemma filter_sublist {A} (f : A -> bool) (l : list A) :
  List.filter f l `sublist_of` l.
Proof.
  induction l as [|x l IH]; [done|]. cbn.
  destruct (f x); [by apply sublist_skip|by apply sublist_cons].
Qed.

Lemma new_TestRunner_sublist tests filterFn ff :
  testsToRun (new_TestRunner tests filterFn ff) `sublist_of` tests.
Proof.
  unfold new_TestRunner; cbn [testsToRun].
  destruct (0 <? length (List.filter t_only tests))%nat.
  - etrans; apply filter_sublist.
  - apply filter_sublist.
Qed.

(** X23. The outcomes of a run are reported in the order of registration,
    each under the name of its test: the names in the list of outcomes of
    the end event are the names of a sublist of the registered tests, in
    the order in which those are registered. *)
Theorem results_in_registration_order tests filterFn ff m :
  exists e,
    last (events (new_TestRunner tests filterFn ff) m) = Some (EvEnd e)
    /\ map te_name (results e) `sublist_of` map t_name tests.
Proof.
  rewrite events_shape.
  destruct (outcomes _ _ _ _) as [[l st] m1] eqn:E.
  pose proof (outcomes_prefix _ _ _ _ _ _ _ E) as (Hpre & Hall & _).
  eexists. split; [rewrite app_comm_cons; apply last_snoc|]. cbn.
  assert (Hn : map te_name (map snd l) = map t_name (map fst l)).
  { clear -Hall. induction Hall as [|p l Hp _ IH]; [done|]. cbn.
    by rewrite Hp, IH. }
  rewrite Hn.
  change (t_name <$> (map fst l) `sublist_of` t_name <$> tests).
  apply fmap_sublist.
  etrans; [|apply new_TestRunner_sublist].
  destruct Hpre as [k ->]. by apply sublist_inserts_r.
Qed.

(** ** What the reporter prints for a run *)

Lemma run_one_reported t st m :
  te_name (fst (fst (run_one t st m))) = t_name t
  /\ te_status (fst (fst (run_one t st m))) <> None.
Proof.
  unfold run_one. destruct (t_ignore t); [done|].
  destruct (run_timeout t m) as [m1 [err|]]; done.
Qed.

Lemma outcomes_reported ff tests : forall st m,
  Forall (fun p => te_name (snd p) = t_name (fst p)
                   /\ te_status (snd p) <> None)
    (fst (fst (outcomes ff tests st m))).
Proof.
  induction tests as [|t rest IH]; intros st m; cbn [outcomes]; [constructor|].
  pose proof (run_one_reported t st m) as H.
  destruct (run_one t st m) as [[e st1] m1]. cbn in H.
  destruct (ff && carries_error e); [cbn; constructor; [exact H|constructor]|].
  specialize (IH st1 m1). destruct (outcomes ff rest st1 m1) as [[l st2] m2].
  cbn in *. by constructor.
Qed.

Lemma print_test_end stack_of e n :
  te_name e = n -> te_status e <> None ->
  exists line,
    print stack_of (EvTestEnd e) = [line]
    /\ Js.startsWith line ("test " +:+ n +:+ " ... ") = true.
Proof.
  intros <- Hs. unfold print, Js.startsWith.
  destruct (te_status e) as [[]|]; [..|done];
    (eexists; split; [reflexivity|]);
    rewrite <- !append_assoc;
    rewrite !(append_assoc (("test " +:+ te_name e) +:+ " ... "));
    apply prefix_app.
Qed.

(** X24. What the reporter prints for the stream of a run: one line when
    the run starts, saying how many tests will run; nothing when a test
    starts; one line for the end of every test the generator went through,
    in their order, beginning with [test], the name of the test and [...];
    and then the lines of the end event. *)
Theorem report_of_a_run stack_of rn m :
  exists l e lines,
    events rn m = EvStart (testsToRun rn) :: test_events l ++ [EvEnd e]
    /\ flat_map (print stack_of) (events rn m)
       = ("running " +:+ pretty (length (testsToRun rn)) +:+ " tests")
         :: lines ++ print stack_of (EvEnd e)
    /\ Forall2 (fun line p =>
                  Js.startsWith line ("test " +:+ t_name (fst p) +:+ " ... ")
                  = true) lines l.
Proof.
  rewrite events_shape.
  pose proof (outcomes_reported (failFast rn) (testsToRun rn) (stats rn) m)
    as Hall.
  destruct (outcomes _ _ _ _) as [[l st] m1]. cbn [fst] in Hall.
  assert (exists lines,
            flat_map (print stack_of) (test_events l) = lines
            /\ Forall2 (fun line p =>
                          Js.startsWith line
                            ("test " +:+ t_name (fst p) +:+ " ... ") = true)
                 lines l) as (lines & Hl & Hf).
  { clear -Hall. induction Hall as [|[t e] l [Hn Hs] _ (lines & Hl & Hf)].
    - exists []. split; [done|constructor].
    - cbn in Hn, Hs.
      destruct (print_test_end stack_of e (t_name t) Hn Hs) as (line & Hp & Hpre).
      exists (line :: lines). split; [|by constructor].
      change (test_events ((t, e) :: l))
        with (EvTestStart t :: EvTestEnd e :: test_events l).
      cbn [flat_map].
      change (print stack_of (EvTestStart t)) with (@nil string).
      rewrite Hp, Hl. reflexivity. }
  eexists l, _, lines. split; [reflexivity|]. split; [|exact Hf].
  cbn [flat_map]. rewrite flat_map_app. cbn [flat_map].
  rewrite Hl, app_nil_r. reflexivity.
Qed.

(** ** Registrations after a reset *)

Lemma reg_step_detached n0 h0 st st' :
  detached n0 h0 st -> reg_step st st' -> detached n0 h0 st'.
Proof.
  destruct st as [s m]. intros (Hlen & Hst & Hreg & Hh) Hstep.
  cbn in Hlen, Hst, Hreg, Hh.
  inversion Hstep as [t ? ? Ht|p f ? ? Hh'|g ? ? Hp|? ? Hl Hp]; subst.
  - apply test_inv in Ht as (f & n & ->). unfold detached. cbn.
    assert (Hout : forall r, (r < n0)%nat -> r ∉ stack s).
    { intros r Hr Hin. rewrite Forall_forall in Hst. specialize (Hst r Hin).
      lia. }
    split; [destruct (default false (d_only t)),
              (negb (default false (ignore t)));
            by rewrite ?update_all_length|].
    split; [done|].
    split; [apply Forall_app; split; [done|by constructor]|].
    intros r Hr. rewrite <- (Hh r Hr).
    destruct (default false (d_only t)), (negb (default false (ignore t)));
      rewrite ?update_all_notin by auto; done.
  - unfold add_hook in Hh'. destruct (top s) as [r0|] eqn:Htop; [|done].
    injection Hh' as <-. unfold detached. cbn. rewrite length_alter.
    split; [done|]. split; [done|]. split; [done|].
    intros r Hr. rewrite <- (Hh r Hr). apply list_lookup_alter_ne.
    intros ->. unfold top in Htop.
    apply last_Some in Htop as [init Hs]. rewrite Hs in Hst.
    apply Forall_app in Hst as [_ Hst]. apply List.Forall_inv in Hst. lia.
  - injection Hp as <-. unfold detached. cbn. rewrite length_app. cbn.
    split; [lia|]. split; [apply Forall_app; split; [done|by constructor]|].
    split; [done|].
    intros r Hr. rewrite <- (Hh r Hr). apply lookup_app_l. lia.
  - injection Hp as <-. unfold detached. cbn.
    split; [done|]. split; [|done].
    rewrite Forall_forall in Hst |- *. intros r Hr. apply Hst.
    eapply elem_of_sublist; [exact Hr|apply removelast_sublist].
Qed.

Lemma reset_detached s m st1 :
  reset (s, m) = Ok tt st1 -> detached (length (heap m)) (heap m) st1.
Proof.
  intros [= <-]. unfold detached. cbn. rewrite length_app. cbn.
  split; [lia|]. split; [by repeat constructor|]. split; [constructor|].
  intros r Hr. by apply lookup_app_l.
Qed.

(** X25. [reset] detaches the suite from what was registered before: every
    test registered after a reset has a scope path made of frames created
    by the reset or after it, so that no hook registered before the reset
    runs for it and no counter of an earlier frame is touched by it; and
    the registrations after the reset leave the earlier frames as they
    were. *)
Theorem reset_detaches s m st1 st2 :
  reset (s, m) = Ok tt st1 ->
  rtc reg_step st1 st2 ->
  Forall (fun w => Forall (fun r => (length (heap m) <= r)%nat) (t_hooks w))
    (registry (fst st2))
  /\ take (length (heap m)) (heap (snd st2)) = heap m.
Proof.
  intros Hr Hrtc. apply reset_detached in Hr.
  assert (Hd : detached (length (heap m)) (heap m) st2).
  { clear -Hr Hrtc. induction Hrtc; eauto using reg_step_detached. }
  destruct Hd as (Hlen & _ & Hreg & Hh). split; [done|].
  apply list_eq. intros r. destruct (decide (r < length (heap m))%nat).
  - rewrite lookup_take_lt by done. by apply Hh.
  - rewrite lookup_take_ge by lia. symmetry. apply lookup_ge_None. lia.
Qed.

Lemma reset_detaches_witness :
  rtc reg_step reset_suite reset_suite1
  /\ map t_hooks (registry (fst reset_suite1)) = [[1%nat]]
  /\ Forall (fun w => Forall (fun r => (1 <= r)%nat) (t_hooks w))
       (registry (fst reset_suite1))
  /\ take 1 (heap (snd reset_suite1)) = heap (snd once_suite).
Proof.
  assert (H : rtc reg_step reset_suite reset_suite1).
  { apply rtc_once.
    by apply (step_test (mkTest (Some (passing "u")) "u" None None None)). }
  split; [exact H|]. split; [reflexivity|].
  exact (reset_detaches (fst once_suite) (snd once_suite) reset_suite
           reset_suite1 eq_refl H).
Defined.

(** ** Filters between slashes *)

Lemma rev_app_append (a b acc : string) :
  String.rev_app (a +:+ b) acc = String.rev_app b (String.rev_app a acc).
Proof.
  revert acc. induction a as [|c a IH]; intros acc; [done|].
  rewrite append_cons. cbn [String.rev_app]. apply IH.
Qed.

Lemma substring_all (s t : string) :
  String.substring 0 (String.length s) (s +:+ t) = s.
Proof.
  induction s as [|c s IH]; [by destruct t|].
  rewrite append_cons. cbn [String.length String.substring]. by rewrite IH.
Qed.

Lemma slashed_parts src :
  let f := "/" +:+ src +:+ "/" in
  Js.truthy_string f = true /\ Js.startsWith f "/" = true
  /\ Js.endsWith f "/" = true /\ Js.slice_inner f = src.
Proof.
  cbv zeta. rewrite append_cons, append_nil_l.
  split; [done|]. split; [by destruct (src +:+ "/")|]. split.
  - unfold Js.endsWith, String.rev. cbn [String.rev_app].
    rewrite rev_app_append. cbn [String.rev_app String.prefix].
    destruct (ascii_dec "/" "/"); [|done]. by destruct (String.rev_app src "/").
  - unfold Js.slice_inner. cbn [String.length].
    assert (Hl : String.length (src +:+ "/") = S (String.length src)).
    { induction src as [|c s IH]; [done|]. rewrite append_cons. cbn.
      by rewrite IH. }
    rewrite Hl. cbn [Nat.sub]. rewrite Nat.sub_0_r.
    cbn [String.substring]. apply substring_all.
Qed.

(** X26. A filter given as a string between slashes is the regular
    expression of the text between the slashes: the filter function made of
    the string [/src/] is the one made of the [RegExp] object with source
    [src], whatever the skip option.  The string made of one slash alone
    also counts as being between slashes, of the empty source. *)
Theorem filter_between_slashes re src skip def :
  createFilterFn re (Some (PString ("/" +:+ src +:+ "/"))) skip def
  = createFilterFn re (Some (PRegExp src)) skip def
  /\ createFilterFn re (Some (PString "/")) skip def
     = createFilterFn re (Some (PRegExp "")) skip def.
Proof.
  split; [|reflexivity].
  destruct (slashed_parts src) as (Ht & Hs & He & Hi). cbv zeta in *.
  unfold createFilterFn. by rewrite Ht, Hs, He, Hi.
Qed.

(** ** The accounts of a run *)

(** X27. The accounts of a run balance: the tests passed, failed, ignored
    and filtered out are together no more than the eligible tests, which
    are the tests marked only when there are any and all registered tests
    otherwise, and exactly as many when fail-fast is off; the number of
    tests filtered out is not negative. *)
Theorem accounts_balance tests filterFn ff m :
  let rn := new_TestRunner tests filterFn ff in
  let eligible := if r_usedOnly rn then List.filter t_only tests else tests in
  exists e,
    last (events rn m) = Some (EvEnd e)
    /\ 0 <= filtered e
    /\ passed e + failed e + ignored e + filtered e
       <= Z.of_nat (length eligible)
    /\ (ff = false ->
        passed e + failed e + ignored e + filtered e
        = Z.of_nat (length eligible)).
Proof.
  intros rn eligible. rewrite events_shape.
  destruct (outcomes _ _ _ _) as [[l st] m1] eqn:E.
  pose proof (outcomes_counts _ _ _ _ _ _ _ E) as (Hf & Hi & Hp & Hx & Hs).
  pose proof (outcomes_prefix _ _ _ _ _ _ _ E) as (Hpre & _ & Hlast).
  assert (Hfil : s_filtered (stats rn)
                 = Z.of_nat (length eligible)
                   - Z.of_nat (length (testsToRun rn))) by done.
  assert (Hle : (length (testsToRun rn) <= length eligible)%nat).
  { unfold rn, eligible, new_TestRunner. cbn [testsToRun r_usedOnly].
    apply sublist_length, filter_sublist. }
  assert (Hll : (length l <= length (testsToRun rn))%nat).
  { destruct Hpre as [k Hk]. rewrite Hk, length_app, length_map. lia. }
  eexists. split; [rewrite app_comm_cons; apply last_snoc|]. cbn.
  cbn in Hi, Hp, Hx. split; [lia|]. split; [lia|].
  intros ->. assert (length l = length (testsToRun rn)) as Heq.
  { destruct (decide (length l < length (testsToRun rn))%nat) as [Hlt|]; [|lia].
    by destruct (Hlast Hlt) as [? _]. }
  lia.
Qed.

(** ** Running with [reset] *)

(** X28. A run with the [reset] option that returns its result leaves the
    suite as new: the registry is empty and the stack is one fresh frame
    with the name of the suite, no hooks and counters at 0, while the name
    and the options of the suite stay.  A run that follows at once
    therefore finds no test: it returns the empty result. *)
Theorem run_with_reset_starts_over re opts opts2 s m e evs st' :
  pending (cache s) = true ->
  o_reset (merge (options s) opts) = Some true ->
  run re opts (s, m) = (Resolved e, evs, st') ->
  registry (fst st') = []
  /\ s_name (fst st') = s_name s /\ options (fst st') = options s
  /\ (exists r, stack (fst st') = [r]
               /\ heap (snd st') !! r = Some (newContext (s_name s)))
  /\ fst (run re opts2 st')
     = (Resolved emptyEndMsg, [EvStart []; EvEnd emptyEndMsg]).
Proof.
  intros Hp Hreset Hrun.
  assert (Hst : registry (fst st') = []
                /\ s_name (fst st') = s_name s /\ options (fst st') = options s
                /\ (exists r, stack (fst st') = [r]
                             /\ heap (snd st') !! r
                                = Some (newContext (s_name s)))
                /\ pending (cache (fst st')) = true).
  { revert Hrun. unfold run. rewrite Hp, Hreset. cbn [negb default from_option].
    destruct (iterate _ _ _ _) as [m1 a].
    match goal with
    | |- context [if ?b then (Exits 1, _, _) else _] => destruct b
    end; [by intros [=]|].
    intros [= _ _ <-]. cbn. do 3 (split; [done|]). split; [|done].
    eexists. split; [done|]. by rewrite lookup_app_r, Nat.sub_diag. }
  destruct Hst as (Hreg & Hn & Ho & Hr & Hp').
  do 4 (split; [done|]). destruct st' as [s' m'].
  by apply run_without_tests.
Qed.

Lemma run_with_reset_starts_over_witness :
  exists e evs st',
    run literal_test resetting once_suite = (Resolved e, evs, st')
    /\ passed e = 1
    /\ registry (fst st') = []
    /\ fst (run literal_test no_options st')
       = (Resolved emptyEndMsg, [EvStart []; EvEnd emptyEndMsg]).
Proof.
  eexists _, _, _. split; [vm_compute; reflexivity|]. split; [reflexivity|].
  pose proof (run_with_reset_starts_over literal_test resetting no_options
                (fst once_suite) (snd once_suite) _ _ _ eq_refl eq_refl
                eq_refl) as H.
  split; [apply H|apply H].
Defined.

(** ** Hooks in a run with tests marked only *)










(** ** Hooks around every test *)

Lemma same_hooks_incr on c : same_hooks c (incr_completed on c).
Proof. done. Qed.




(** ** Hooks added after a test *)












